(** * aws_news: the digest pipeline of [main.py]

    A shallow embedding of [src/main.py] (mail retrieval, article
    extraction, URL canonicalization, deduplication, digest window and
    file names) and the properties of it that the specification states.

    Python values are modelled as follows.
    - A [str] is a list of Unicode code points ([N]).
    - [re.sub] and [re.split] are modelled by a backtracking matcher over
      the fragment of regular expressions the program uses, with the
      scanning loops of CPython's [_sre] module.
    - An exception is a value of [exn]; code that may raise returns a
      [result]. *)

From Stdlib Require Import String Ascii.
From Stdlib Require Import List ZArith NArith Arith Lia Bool.
From Stdlib Require Import Permutation Sorted.
Import ListNotations.

Set Implicit Arguments.

(* ================================================================== *)
(** * Python strings *)
(* ================================================================== *)

Module Py.

(** A character is a code point; a string is a sequence of them. *)
Definition char := N.
Definition str := list char.

(** [py "abc"] is the Python literal ['abc'] (one-byte characters). *)
Definition py (s : string) : str := List.map N_of_ascii (list_ascii_of_string s).
Arguments py s%_string.

Definition CR : char := 13%N.
Definition LF : char := 10%N.

(** The literal ['\r\n']. *)
Definition crlf : str := [CR; LF].

Definition char_in (c : char) (cs : list char) : bool := existsb (N.eqb c) cs.

Fixpoint str_eqb (a b : str) : bool :=
  match a, b with
  | [], [] => true
  | x :: a', y :: b' => N.eqb x y && str_eqb a' b'
  | _, _ => false
  end.

(** [x in l] for a list of strings. *)
Definition str_in (x : str) (l : list str) : bool := existsb (str_eqb x) l.

(** [strip_prefix p s] is [Some rest] when [s = p + rest]
    ([s.startswith(p)]), else [None]. *)
Fixpoint strip_prefix (p s : str) : option str :=
  match p with
  | [] => Some s
  | a :: p' =>
      match s with
      | c :: s' => if N.eqb c a then strip_prefix p' s' else None
      | [] => None
      end
  end.

Definition startswith (s p : str) : bool :=
  match strip_prefix p s with Some _ => true | None => false end.

(** [find p s]: the text before and after the leftmost occurrence of [p]. *)
Fixpoint find (p s : str) : option (str * str) :=
  match strip_prefix p s with
  | Some rest => Some ([], rest)
  | None =>
      match s with
      | [] => None
      | c :: s' =>
          match find p s' with
          | Some (a, b) => Some (c :: a, b)
          | None => None
          end
      end
  end.

(** [s.split(sep)] for a non-empty [sep]: cut at the non-overlapping
    occurrences of [sep], left to right.  The fuel bounds the number of
    cuts; [length s] is enough since every cut consumes [sep]. *)
Fixpoint split_fuel (n : nat) (sep s : str) : list str :=
  match n with
  | O => [s]
  | S n' =>
      match find sep s with
      | None => [s]
      | Some (a, b) => a :: split_fuel n' sep b
      end
  end.

Definition split (s sep : str) : list str := split_fuel (length s) sep s.

(** [s.replace(old, new)] for a non-empty [old]. *)
Fixpoint replace_fuel (n : nat) (old new s : str) : str :=
  match n with
  | O => s
  | S n' =>
      match find old s with
      | None => s
      | Some (a, b) => a ++ new ++ replace_fuel n' old new b
      end
  end.

Definition replace (s old new : str) : str := replace_fuel (length s) old new s.

(** [''.join(l)]. *)
Definition join0 (l : list str) : str := List.concat l.

(** [sep.join(l)]. *)
Fixpoint join (sep : str) (l : list str) : str :=
  match l with
  | [] => []
  | [x] => x
  | x :: l' => x ++ sep ++ join sep l'
  end.

(** [c.isspace()]: the code points CPython's [_PyUnicode_IsWhitespace]
    accepts. *)
Definition isspace (c : char) : bool :=
  ((9 <=? c) && (c <=? 13) || (28 <=? c) && (c <=? 32) || (c =? 133)
   || (c =? 160) || (c =? 5760) || (8192 <=? c) && (c <=? 8202)
   || (c =? 8232) || (c =? 8233) || (c =? 8239) || (c =? 8287)
   || (c =? 12288))%N.

(** [s.lstrip()], [s.rstrip()], [s.strip()]. *)
Fixpoint lstrip (s : str) : str :=
  match s with
  | c :: s' => if isspace c then lstrip s' else s
  | [] => []
  end.

Definition rstrip (s : str) : str := rev (lstrip (rev s)).

Definition strip (s : str) : str := rstrip (lstrip s).

(** Python slices [l[1:-1]] and [l[:-1]], and the index [l[-1]]. *)
Definition slice_1_m1 {A} (l : list A) : list A := removelast (tl l).
Definition slice_to_m1 {A} (l : list A) : list A := removelast l.
Definition index_m1 {A} (l : list A) : option A := List.last (List.map Some l) None.

End Py.
Import Py.

(* ================================================================== *)
(** * Exceptions *)
(* ================================================================== *)

Inductive exn : Type :=
| IndexError
| KeyError
| TypeError
| ValueError
| OverflowError.

Inductive result (A : Type) : Type :=
| Ok (a : A)
| Raise (e : exn).
Arguments Ok {A} a.
Arguments Raise {A} e.

Definition bind {A B} (m : result A) (f : A -> result B) : result B :=
  match m with
  | Ok a => f a
  | Raise e => Raise e
  end.

Notation "x <- m ;; k" := (bind m (fun x => k))
  (at level 61, m at next level, right associativity).

(* ================================================================== *)
(** * Regular expressions: the fragment of [re] the program uses *)
(* ================================================================== *)

Module Re.

(** A set of characters: a literal, [.], [[...]] or [[^...]]. *)
Inductive cset : Type :=
| One (c : char)
| Dot
| In (cs : list char)
| NotIn (cs : list char).

(** [.] matches every character but the line feed (no DOTALL flag). *)
Definition cset_mem (k : cset) (c : char) : bool :=
  match k with
  | One a => N.eqb c a
  | Dot => negb (N.eqb c LF)
  | In cs => char_in c cs
  | NotIn cs => negb (char_in c cs)
  end.

(** Patterns: the empty pattern, one character of a set, a greedy
    repetition [k*] of a set, concatenation and alternation. *)
Inductive regex : Type :=
| Eps
| Chr (k : cset)
| Star (k : cset)
| Cat (r1 r2 : regex)
| Alt (r1 r2 : regex).

(** A literal string as a pattern. *)
Definition lit (p : str) : regex :=
  fold_right (fun c r => Cat (Chr (One c)) r) Eps p.

(** Greedy repetition with backtracking: take as many characters of [k]
    as possible, and give one back at a time until the rest of the
    pattern ([cont]) matches. *)
Fixpoint star (k : cset) (s : str) (cont : str -> option str) : option str :=
  match s with
  | c :: s' =>
      if cset_mem k c then
        match star k s' cont with
        | Some x => Some x
        | None => cont s
        end
      else cont s
  | [] => cont s
  end.

(** The backtracking matcher, in continuation-passing style: [rmatch r s
    cont] matches [r] at the head of [s] and hands the unread text to
    [cont]; the first alternative that lets [cont] succeed wins. *)
Fixpoint rmatch (r : regex) (s : str) (cont : str -> option str) : option str :=
  match r with
  | Eps => cont s
  | Chr k =>
      match s with
      | c :: s' => if cset_mem k c then cont s' else None
      | [] => None
      end
  | Star k => star k s cont
  | Cat a b => rmatch a s (fun s' => rmatch b s' cont)
  | Alt a b =>
      match rmatch a s cont with
      | Some x => Some x
      | None => rmatch b s cont
      end
  end.

(** One match attempt at the head of [s]; the result is the unread text.
    With [must_advance] an empty match is refused (the attempt that
    follows an empty match, in [_sre]). *)
Definition match_here (r : regex) (must_advance : bool) (s : str) : option str :=
  rmatch r s
    (fun s' =>
       if must_advance && (length s' =? length s)%nat then None else Some s').

(** [pattern.search]: the leftmost match. The result is the text before
    the match, the matched text and the text after it. [must_advance]
    holds for the first attempt only. *)
Fixpoint search (r : regex) (must_advance : bool) (s : str)
  : option (str * str * str) :=
  match match_here r must_advance s with
  | Some rest => Some ([], firstn (length s - length rest) s, rest)
  | None =>
      match s with
      | [] => None
      | c :: s' =>
          match search r false s' with
          | Some (a, m, b) => Some (c :: a, m, b)
          | None => None
          end
      end
  end.

Definition is_empty (s : str) : bool :=
  match s with [] => true | _ => false end.

(** The loop of [re.sub(r, repl, s)] for a literal replacement: copy the
    text before each match, then the replacement, and go on after the
    match. An empty match is followed by an attempt that must advance. *)
Fixpoint sub_loop (n : nat) (r : regex) (repl : str) (adv : bool) (s : str) : str :=
  match n with
  | O => s
  | S n' =>
      match search r adv s with
      | None => s
      | Some (a, m, b) => a ++ repl ++ sub_loop n' r repl (is_empty m) b
      end
  end.

Definition sub (r : regex) (repl s : str) : str :=
  sub_loop (2 * length s + 2) r repl false s.

(** The loop of [re.split(r, s)]. With [group] the whole pattern is one
    capturing group, and the matched text is kept in the result. *)
Fixpoint split_loop (n : nat) (r : regex) (group : bool) (adv : bool) (s : str)
  : list str :=
  match n with
  | O => [s]
  | S n' =>
      match search r adv s with
      | None => [s]
      | Some (a, m, b) =>
          a :: (if group then [m] else [])
            ++ split_loop n' r group (is_empty m) b
      end
  end.

Definition split (r : regex) (group : bool) (s : str) : list str :=
  split_loop (2 * length s + 2) r group false s.

End Re.

(* ================================================================== *)
(** * The patterns of [main.py] *)
(* ================================================================== *)

(** [r'[<>]'] (line 165). *)
Definition re_angle : Re.regex := Re.Chr (Re.In (py "<>")).

(** ['http.*http'] (line 166). *)
Definition re_http_http : Re.regex :=
  Re.Cat (Re.lit (py "http")) (Re.Cat (Re.Star Re.Dot) (Re.lit (py "http"))).

(** ['&ct=ga&.*'] (line 167). *)
Definition re_ct_ga : Re.regex := Re.Cat (Re.lit (py "&ct=ga&")) (Re.Star Re.Dot).

(** ['(===|- - - )'] (line 161): one capturing group around the pattern. *)
Definition re_delim : Re.regex := Re.Alt (Re.lit (py "===")) (Re.lit (py "- - - ")).

(** ['\r\n'] (lines 163, 164). *)
Definition re_crlf : Re.regex := Re.lit crlf.

(** [r'\([^)]*\)'] (line 102). *)
Definition re_paren : Re.regex :=
  Re.Cat (Re.Chr (Re.One 40%N))
    (Re.Cat (Re.Star (Re.NotIn [41%N])) (Re.Chr (Re.One 41%N))).

(* ================================================================== *)
(** * URL canonicalization (lines 165-167) *)
(* ================================================================== *)

Definition canonicalize (url : str) : str :=
  let url := Re.sub re_angle [] url in
  let url := Re.sub re_http_http (py "http") url in
  Re.sub re_ct_ga [] url.

(* ================================================================== *)
(** * Article extraction and the deduplication loop (lines 157-177) *)
(* ================================================================== *)

(** The dictionary [{'body': ..., 'url': ...}] of line 169. *)
Record article : Type := { body : str; url : str }.

(** [l[-1]]: an [IndexError] on the empty list. *)
Definition last_item {A} (l : list A) : result A :=
  match index_m1 l with
  | Some x => Ok x
  | None => Raise IndexError
  end.

(** Line 161: the article blocks of one message body. Indexing the split
    at 4 raises [IndexError] when it has fewer than five items. *)
Definition article_blocks (email_body : str) : result (list str) :=
  match nth_error (Re.split re_delim true email_body) 4 with
  | Some seg => Ok (slice_1_m1 (Py.split seg (crlf ++ crlf)))
  | None => Raise IndexError
  end.

(** Lines 163-164: the summary and the raw URL of one block. *)
Definition block_fields (a : str) : result (str * str) :=
  let lines := Re.split re_crlf false a in
  let body := strip (join0 (slice_to_m1 lines)) in
  last <- last_item lines ;;
  Ok (body, strip last).

(** Lines 163-167: the article of one block, its URL canonicalized. *)
Definition block_article (a : str) : result article :=
  f <- block_fields a ;;
  Ok {| body := fst f; url := canonicalize (snd f) |}.

(** The two accumulators of the loop: [urls] and [articles]. *)
Record acc : Type := { urls : list str; articles : list article }.

Definition acc0 : acc := {| urls := []; articles := [] |}.

(** Lines 168-173: the deduplication gate. *)
Definition gate (st : acc) (x : article) : acc :=
  if negb (str_in (url x) (urls st)) then
    {| urls := urls st ++ [url x]; articles := articles st ++ [x] |}
  else st.

(** One turn of the inner loop (lines 162-173). *)
Definition block_step (st : acc) (a : str) : result acc :=
  x <- block_article a ;;
  Ok (gate st x).

(** The inner loop over the blocks of one message. *)
Fixpoint for_blocks (st : acc) (arts : list str) : result acc :=
  match arts with
  | [] => Ok st
  | a :: arts' => st' <- block_step st a ;; for_blocks st' arts'
  end.

(** One turn of the outer loop (lines 159-173) on the body of a message. *)
Definition email_step (st : acc) (email_body : str) : result acc :=
  arts <- article_blocks email_body ;;
  for_blocks st arts.

(** The outer loop over the bodies of the retrieved messages. *)
Fixpoint for_emails (st : acc) (bodies : list str) : result acc :=
  match bodies with
  | [] => Ok st
  | b :: bodies' => st' <- email_step st b ;; for_emails st' bodies'
  end.

(** Lines 157-173: the article list of a run. *)
Definition collect (bodies : list str) : result (list article) :=
  st <- for_emails acc0 bodies ;;
  Ok (articles st).

(** Lines 175-177: the article part of the raw digest. *)
Definition render (x : article) : str := body x ++ [LF] ++ url x ++ [LF; LF].

Definition news_text (l : list article) : str := List.concat (List.map render l).

(** The loop as a transition system: a configuration holds the bodies
    still to be read, the blocks of the current message still to be
    processed, and the accumulators. *)
Record config : Type :=
  { todo_emails : list str; todo_blocks : list str; store : acc }.

Inductive step : config -> config -> Prop :=
| step_email : forall b bs arts st,
    article_blocks b = Ok arts ->
    step {| todo_emails := b :: bs; todo_blocks := []; store := st |}
         {| todo_emails := bs; todo_blocks := arts; store := st |}
| step_block : forall bs a arts st st',
    block_step st a = Ok st' ->
    step {| todo_emails := bs; todo_blocks := a :: arts; store := st |}
         {| todo_emails := bs; todo_blocks := arts; store := st' |}.

Inductive reachable (bodies : list str) : config -> Prop :=
| reach_start :
    reachable bodies {| todo_emails := bodies; todo_blocks := []; store := acc0 |}
| reach_step : forall c c',
    reachable bodies c -> step c c' -> reachable bodies c'.

(** "Keep the first occurrence of each URL", stated from the front: keep
    the head and drop every later article with its URL. *)
Fixpoint first_occurrences (l : list article) : list article :=
  match l with
  | [] => []
  | x :: l' =>
      x :: filter (fun y => negb (str_eqb (url y) (url x))) (first_occurrences l')
  end.

(* ================================================================== *)
(** * The calendar of [datetime] (the digest window, lines 148-151) *)
(* ================================================================== *)

Module Cal.
Local Open Scope Z_scope.

(** The date fields of a [datetime]; the time of day plays no part in
    [strftime('%Y/%m/%d')] and is left unchanged by adding whole days. *)
Record date : Type := { year : Z; month : Z; day : Z }.

Definition MINYEAR := 1.
Definition MAXYEAR := 9999.
(** [date.max.toordinal()]. *)
Definition MAXORDINAL := 3652059.

Definition is_leap (y : Z) : bool :=
  (y mod 4 =? 0) && (negb (y mod 100 =? 0) || (y mod 400 =? 0)).

Definition days_before_year (y : Z) : Z :=
  let y := y - 1 in y * 365 + y / 4 - y / 100 + y / 400.

Definition DAYS_IN_MONTH : list Z := [31; 28; 31; 30; 31; 30; 31; 31; 30; 31; 30; 31].
Definition DAYS_BEFORE_MONTH : list Z :=
  [0; 31; 59; 90; 120; 151; 181; 212; 243; 273; 304; 334].

Definition days_in_month (y m : Z) : Z :=
  if (m =? 2) && is_leap y then 29 else nth (Z.to_nat (m - 1)) DAYS_IN_MONTH 0.

Definition days_before_month (y m : Z) : Z :=
  nth (Z.to_nat (m - 1)) DAYS_BEFORE_MONTH 0
  + (if (2 <? m) && is_leap y then 1 else 0).

(** The dates a [datetime] can hold. *)
Definition valid (d : date) : bool :=
  (MINYEAR <=? year d) && (year d <=? MAXYEAR)
  && (1 <=? month d) && (month d <=? 12)
  && (1 <=? day d) && (day d <=? days_in_month (year d) (month d)).

(** [_ymd2ord]: the proleptic Gregorian ordinal, 0001-01-01 being day 1. *)
Definition ymd2ord (d : date) : Z :=
  days_before_year (year d) + days_before_month (year d) (month d) + day d.

Definition DI400Y := days_before_year 401.
Definition DI100Y := days_before_year 101.
Definition DI4Y := days_before_year 5.

(** The tail of [_ord2ymd]: month and day of the day [n] (from 0) of a
    year, estimated as [(n + 50) >> 5] and corrected. *)
Definition month_day (leapyear : bool) (n : Z) : Z * Z :=
  let m := Z.shiftr (n + 50) 5 in
  let preceding :=
    nth (Z.to_nat (m - 1)) DAYS_BEFORE_MONTH 0
    + (if (2 <? m) && leapyear then 1 else 0) in
  if n <? preceding then
    let m := m - 1 in
    let preceding :=
      preceding
      - (nth (Z.to_nat (m - 1)) DAYS_IN_MONTH 0
         + (if (m =? 2) && leapyear then 1 else 0)) in
    (m, n - preceding + 1)
  else (m, n - preceding + 1).

(** [_ord2ymd]. *)
Definition ord2ymd (n : Z) : date :=
  let n := n - 1 in
  let n400 := n / DI400Y in
  let n := n mod DI400Y in
  let y := n400 * 400 + 1 in
  let n100 := n / DI100Y in
  let n := n mod DI100Y in
  let n4 := n / DI4Y in
  let n := n mod DI4Y in
  let n1 := n / 365 in
  let n := n mod 365 in
  let y := y + n100 * 100 + n4 * 4 + n1 in
  if (n1 =? 4) || (n100 =? 4) then {| year := y - 1; month := 12; day := 31 |}
  else
    let leapyear := (n1 =? 3) && (negb (n4 =? 24) || (n100 =? 3)) in
    let md := month_day leapyear n in
    {| year := y; month := fst md; day := snd md |}.

(** [d + timedelta(days=k)]: an [OverflowError] outside
    [date.min .. date.max]. *)
Definition add_days (d : date) (k : Z) : result date :=
  let o := ymd2ord d + k in
  if (0 <? o) && (o <=? MAXORDINAL) then Ok (ord2ymd o) else Raise OverflowError.

(** The character of a decimal digit. *)
Definition digit (n : Z) : char := Z.to_N (48 + n mod 10).

(** [n] in decimal, zero-padded to [w] digits, for [0 <= n < 10^w]. *)
Fixpoint zpad (w : nat) (n : Z) : str :=
  match w with
  | O => []
  | S w' => zpad w' (n / 10) ++ [digit n]
  end.

(** The number of decimal digits of a year (1 ... 9999). *)
Definition year_width (y : Z) : nat :=
  if y <? 10 then 1%nat else if y <? 100 then 2%nat
  else if y <? 1000 then 3%nat else 4%nat.

(** [%Y] of [strftime]: CPython hands the format to the C library, which
    writes the year in decimal without padding, so the year 999 gives
    [999] and the year 1 gives [1]. *)
Definition strftime_Y (y : Z) : str := zpad (year_width y) y.

(** [d.strftime('%Y/%m/%d')]: the year as [%Y] writes it, and two digits
    for the month and for the day. *)
Definition strftime_Ymd (d : date) : str :=
  strftime_Y (year d) ++ py "/" ++ zpad 2 (month d) ++ py "/" ++ zpad 2 (day d).

(** The date text without its slashes (lines 179-180). *)
Definition date_digits (d : date) : str :=
  strftime_Y (year d) ++ zpad 2 (month d) ++ zpad 2 (day d).

(** [YYYYMMDD]: four, two and two digits, the form the specification
    gives to the dates of the file names. *)
Definition yyyymmdd (d : date) : str :=
  zpad 4 (year d) ++ zpad 2 (month d) ++ zpad 2 (day d).

(** The number a string of decimal digits denotes. *)
Definition decimal_value (s : str) : Z :=
  fold_left (fun v c => 10 * v + (Z.of_N c - 48)) s 0.

(** The check of [month_day] on one day of a year: the month and the
    day are in range, and the days before them add up to [n]. *)
Definition month_day_check (leapyear : bool) (n : Z) : bool :=
  let md := month_day leapyear n in
  let m := fst md in
  let d := snd md in
  (1 <=? m) && (m <=? 12) && (1 <=? d)
  && (d <=? (if (m =? 2) && leapyear then 29
             else nth (Z.to_nat (m - 1)) DAYS_IN_MONTH 0))
  && (nth (Z.to_nat (m - 1)) DAYS_BEFORE_MONTH 0
      + (if (2 <? m) && leapyear then 1 else 0) + d =? n + 1).

End Cal.

(** What [main] derives from [after_date] and [subject_filter]: the
    query (line 151) and the two file names (lines 181, 225). *)
Record window : Type :=
  { after_date_text : str;
    before_date_text : str;
    before_date : Cal.date;
    query : str;
    output_filename : str;
    output_filename_formatted : str }.

Definition digest_window (after_date : Cal.date) (subject_filter : str)
  : result window :=
  let after_date_text := Cal.strftime_Ymd after_date in
  before <- Cal.add_days after_date 6 ;;
  let before_date_text := Cal.strftime_Ymd before in
  let query :=
    py "subject:" ++ subject_filter ++ py " after:" ++ after_date_text
    ++ py " before:" ++ before_date_text in
  let after_date_removed_slash := Py.replace after_date_text (py "/") [] in
  let before_date_removed_slash := Py.replace before_date_text (py "/") [] in
  let output_filename :=
    py "output_" ++ after_date_removed_slash ++ py "-"
    ++ before_date_removed_slash ++ py ".txt" in
  Ok {| after_date_text := after_date_text;
        before_date_text := before_date_text;
        before_date := before;
        query := query;
        output_filename := output_filename;
        output_filename_formatted :=
          Py.replace output_filename (py ".txt") (py "_formatted.txt") |}.

(* ================================================================== *)
(** * Mail retrieval: [get_emails_by_subject] (lines 44-140) *)
(* ================================================================== *)

(** The timestamp of a message, as far as ordering goes: a [datetime]
    without [tzinfo] (what [datetime.now()] returns), or one with a UTC
    offset (what [strptime] returns for a format with [%z]). [t] counts
    the microseconds of the wall-clock fields. *)
Inductive datetime : Type :=
| Naive (t : Z)
| Aware (t : Z) (utcoffset : Z).

(** [a < b]: aware values compare by their UTC instants, naive ones by
    their fields, and comparing one of each raises [TypeError]. *)
Definition dt_lt (a b : datetime) : result bool :=
  match a, b with
  | Naive x, Naive y => Ok (x <? y)%Z
  | Aware x o, Aware y o' => Ok (x - o <? y - o')%Z
  | _, _ => Raise TypeError
  end.

(** [list.sort(key=..., reverse=...)]: a stable sort that only asks
    [<] of the keys, and raises what a comparison raises. As CPython
    does, [reverse=True] reverses the list, sorts it in ascending order
    and reverses the result. The insertion sort stands for the merge
    sort of CPython. *)
Section ListSort.
Variables (A K : Type) (key : A -> K) (lt : K -> K -> result bool).

Fixpoint insert (x : A) (l : list A) : result (list A) :=
  match l with
  | [] => Ok [x]
  | y :: l' =>
      c <- lt (key x) (key y) ;;
      if c then Ok (x :: y :: l')
      else (r <- insert x l' ;; Ok (y :: r))
  end.

Fixpoint sort_from (sorted l : list A) : result (list A) :=
  match l with
  | [] => Ok sorted
  | x :: l' => s <- insert x sorted ;; sort_from s l'
  end.

Definition list_sort (reverse : bool) (l : list A) : result (list A) :=
  if reverse then (s <- sort_from [] (rev l) ;; Ok (rev s))
  else sort_from [] l.

End ListSort.

Module Gmail.

(** The parts of a Gmail API message resource the function reads. *)
Record header : Type := { name : str; value : str }.
(** A body resource; ['data'] may be absent. *)
Record mbody : Type := { data : option str }.
Record part : Type := { mimeType : str; part_body : mbody }.
(** A payload; the keys ['parts'] and ['body'] may be absent. *)
Record payload : Type :=
  { headers : list header; parts : option (list part); payload_body : option mbody }.
(** One entry of the message list with the resource fetched for it. *)
Record message : Type := { msg_id : str; msg_payload : payload }.

(** The dictionary [email_data] (lines 126-133). *)
Record email : Type :=
  { id : str; subject : str; sender : str; date : datetime; body : str }.

(** [next((h['value'] for h in headers if h['name'] == n), default)]. *)
Fixpoint header_value (hs : list header) (n default : str) : str :=
  match hs with
  | [] => default
  | h :: hs' => if str_eqb (name h) n then value h else header_value hs' n default
  end.

(** Lines 92-96. *)
Definition date_formats : list str :=
  [py "%a, %d %b %Y %H:%M:%S %z";
   py "%a, %d %b %Y %H:%M:%S %z (%Z)";
   py "%d %b %Y %H:%M:%S %z"].

Section Retrieval.

(** [datetime.strptime]: library code, a parameter of the model. *)
Variable strptime : str -> str -> result datetime.
(** [base64.urlsafe_b64decode(d).decode('utf-8')], likewise. *)
Variable b64_utf8 : str -> result str.
(** The wall clock [datetime.now()] reads while the [i]-th message is
    processed. *)
Variable now : nat -> Z.

(** Lines 99-106: the first format that parses; [ValueError] moves on to
    the next one, any other exception leaves the loop. *)
Fixpoint try_formats (fmts : list str) (cleaned_date : str)
  : result (option datetime) :=
  match fmts with
  | [] => Ok None
  | fmt :: fmts' =>
      match strptime cleaned_date fmt with
      | Ok d => Ok (Some d)
      | Raise ValueError => try_formats fmts' cleaned_date
      | Raise e => Raise e
      end
  end.

(** Lines 90-113: the date of the [i]-th message. Every exception ends
    in [datetime.now()]. *)
Definition normalize_date (i : nat) (date_str : str) : datetime :=
  let cleaned_date := strip (Re.sub re_paren [] date_str) in
  match try_formats date_formats cleaned_date with
  | Ok (Some d) => d
  | Ok None => Naive (now i)
  | Raise _ => Naive (now i)
  end.

(** Lines 118-121: the first [text/plain] part; [part['body']['data']]
    raises [KeyError] when the part carries no data. *)
Fixpoint first_plain (ps : list part) : result str :=
  match ps with
  | [] => Ok []
  | p :: ps' =>
      if str_eqb (mimeType p) (py "text/plain") then
        match data (part_body p) with
        | Some d => b64_utf8 d
        | None => Raise KeyError
        end
      else first_plain ps'
  end.

(** Lines 116-123. *)
Definition message_body (pl : payload) : result str :=
  match parts pl with
  | Some ps => first_plain ps
  | None =>
      match payload_body pl with
      | Some b =>
          match data b with
          | Some d => b64_utf8 d
          | None => Ok []
          end
      | None => Ok []
      end
  end.

(** Lines 76-135: one turn of the loop over the messages. *)
Definition email_of (i : nat) (m : message) : result email :=
  let hs := headers (msg_payload m) in
  let subject := header_value hs (py "Subject") (py "No Subject") in
  let sender := header_value hs (py "From") (py "Unknown") in
  let date_str := header_value hs (py "Date") [] in
  let date_obj := normalize_date i date_str in
  body <- message_body (msg_payload m) ;;
  Ok {| id := msg_id m; subject := subject; sender := sender;
        date := date_obj; body := body |}.

Fixpoint for_messages (i : nat) (ms : list message) : result (list email) :=
  match ms with
  | [] => Ok []
  | m :: ms' =>
      e <- email_of i m ;;
      es <- for_messages (S i) ms' ;;
      Ok (e :: es)
  end.

(** [get_emails_by_subject], given the messages the provider lists for
    the query. *)
Definition get_emails_by_subject (messages : list message) : result (list email) :=
  match messages with
  | [] => Ok []
  | _ =>
      email_list <- for_messages 0 messages ;;
      list_sort date dt_lt true email_list
  end.

End Retrieval.
End Gmail.

(** Lines 154-173 of [main]: retrieval, then extraction and
    deduplication over the bodies in the order retrieval returns. *)
Definition main_articles
  (strptime : str -> str -> result datetime) (b64_utf8 : str -> result str)
  (now : nat -> Z) (messages : list Gmail.message) : result (list article) :=
  emails <- Gmail.get_emails_by_subject strptime b64_utf8 now messages ;;
  collect (List.map Gmail.body emails).

(* ================================================================== *)
(** * Notions used to state the properties *)
(* ================================================================== *)

(** [y] is what is left of [s] after reading some of it. *)
Definition suffix (y s : str) : Prop := exists m, s = m ++ y.

(** A pattern makes progress when none of its matches is empty. *)
Definition progress (r : Re.regex) : Prop :=
  forall s rest, Re.match_here r false s = Some rest -> length rest < length s.

(** A pattern is quiet on [s] when it matches at no position of [s]. *)
Definition quiet (r : Re.regex) (s : str) : Prop :=
  forall k, Re.match_here r false (skipn k s) = None.

(** [c] put in front of the first item of a split. *)
Definition cons_head (c : char) (l : list str) : list str :=
  match l with
  | x :: l' => (c :: x) :: l'
  | [] => [[c]]
  end.

(** The two literals of the canonicalization patterns. *)
Definition http : str := py "http".
Definition ct_ga : str := py "&ct=ga&".

(** What is left of [t] after the last [p] of its first line: the greedy
    [.*] followed by the literal [p]. *)
Definition after_last (p t : str) : option str :=
  Re.star Re.Dot t (strip_prefix p).

(** [t] from the end of its first line on: what a greedy [.*] leaves. *)
Fixpoint drop_line (t : str) : str :=
  match t with
  | c :: t' => if N.eqb c LF then t else drop_line t'
  | [] => []
  end.

Definition is_angle (c : char) : bool := char_in c (py "<>").

(** No [<] and no [>]. *)
Definition no_angle (s : str) : Prop := Forall (fun c => is_angle c = false) s.

(** The three steps of [canonicalize]. *)
Definition sub_angle (s : str) : str := Re.sub re_angle [] s.
Definition sub_http (s : str) : str := Re.sub re_http_http http s.
Definition sub_ct_ga (s : str) : str := Re.sub re_ct_ga [] s.

(** [rfind p s]: the text before and after the last occurrence of [p]. *)
Fixpoint rfind (p s : str) : option (str * str) :=
  match s with
  | [] =>
      match strip_prefix p [] with
      | Some r => Some ([], r)
      | None => None
      end
  | c :: s' =>
      match rfind p s' with
      | Some (a, b) => Some (c :: a, b)
      | None =>
          match strip_prefix p s with
          | Some r => Some ([], r)
          | None => None
          end
      end
  end.

Definition remove_angles (s : str) : str := filter (fun c => negb (is_angle c)) s.

(** Cut at the first [&ct=ga&]. *)
Definition truncate (s : str) : str :=
  match find ct_ga s with
  | Some (a, _) => a
  | None => s
  end.



(** What the program does to one line: with two or more occurrences of
    [http], the text from the first through the last is replaced by one
    [http], so the text before the first one stays. *)
Definition collapse (s : str) : str :=
  match find http s with
  | Some (a, t) =>
      match rfind http t with
      | Some (_, r) => a ++ http ++ r
      | None => s
      end
  | None => s
  end.

Definition canon_line (s : str) : str := truncate (collapse (remove_angles s)).

(** What may follow a line: nothing, or a line feed and more text. *)
Definition line_tail (tail : str) : Prop :=
  tail = [] \/ exists rest, tail = LF :: rest.

(** The articles of the blocks of one message, before the gate. *)
Fixpoint map_result {A B} (f : A -> result B) (l : list A) : result (list B) :=
  match l with
  | [] => Ok []
  | a :: l' => b <- f a ;; bs <- map_result f l' ;; Ok (b :: bs)
  end.

(** [extract]: the Article Extractor and the URL Canonicalizer on one
    message body. *)
Definition extract (email_body : str) : result (list article) :=
  arts <- article_blocks email_body ;;
  map_result block_article arts.

(** The articles of a run in discovery order: message by message, and
    block by block within a message. *)
Fixpoint discovered (bodies : list str) : result (list article) :=
  match bodies with
  | [] => Ok []
  | b :: bodies' =>
      xs <- extract b ;;
      ys <- discovered bodies' ;;
      Ok (xs ++ ys)
  end.

(** The invariant of the loop: the URLs of the articles kept so far are
    the list [urls], and no URL is in it twice. *)
Definition loop_inv (st : acc) : Prop :=
  List.map url (articles st) = urls st /\ NoDup (urls st).

(** What is left to run from a configuration. *)
Definition run (c : config) : result acc :=
  st <- for_blocks (store c) (todo_blocks c) ;;
  for_emails st (todo_emails c).

(** ** A digest body built from article blocks *)

(** The blank line between blocks: ['\r\n\r\n']. *)
Definition blank : str := crlf ++ crlf.

(** A block: its summary lines and its URL line, joined by ['\r\n']. *)
Definition block_text (b : list str * str) : str := join crlf (fst b ++ [snd b]).

(** The article section: a header chunk, the blocks and a footer chunk,
    joined by blank lines. *)
Definition article_section (header : str) (blocks : list (list str * str))
  (footer : str) : str :=
  join blank (header :: List.map block_text blocks ++ [footer]).

(** The body: two sections closed by a delimiter each, the article
    section, and what follows it ([d5 ++ more]). *)
Definition digest_body (s0 d1 s2 d3 seg d5 more : str) : str :=
  s0 ++ d1 ++ s2 ++ d3 ++ seg ++ d5 ++ more.

Definition is_delim (d : str) : bool :=
  str_eqb d (py "===") || str_eqb d (py "- - - ").

(** No delimiter starts at one of the first [n] positions of [s]. *)
Fixpoint no_delim_in_first (n : nat) (s : str) : bool :=
  match n with
  | O => true
  | S n' =>
      match Re.match_here re_delim false s with
      | Some _ => false
      | None =>
          match s with
          | [] => true
          | _ :: s' => no_delim_in_first n' s'
          end
      end
  end.

Definition cr_free (s : str) : bool := negb (char_in CR s).

(** A line of a block: not empty, and without carriage return. *)
Definition line_ok (s : str) : bool := negb (Re.is_empty s) && cr_free s.

Definition block_ok (b : list str * str) : bool :=
  forallb line_ok (fst b) && line_ok (snd b).

(** Lines 161-164 on one body: the summary and the trimmed last line of
    every block. *)
Definition extract_fields (email_body : str) : result (list (str * str)) :=
  arts <- article_blocks email_body ;;
  map_result block_fields arts.

(** Two blocks for a sample body in the layout of a digest mail. *)
Definition sample_blocks : list (list str * str) :=
  [([py "Title one"; py "a summary = of it "],
    py "<https://www.google.com/url?rct=j&url=https://a.example/1&ct=ga&cd=x>");
   ([py "Title two"], py " <http://b.example/2>")].

Definition sample_body : str :=
  digest_body [] (py "===") (py " News - AWS ") (py "===")
    (article_section [] sample_blocks []) (py "- - - ") (py "- - - unsubscribe").

(** ** Notions about timestamps and message bodies *)

(** Whether a [datetime] is naive. *)
Definition is_naive (d : datetime) : bool :=
  match d with
  | Naive _ => true
  | Aware _ _ => false
  end.

(** What the comparison of two timestamps of one kind compares: the
    wall-clock fields of a naive one, the UTC instant of an aware one. *)
Definition instant (d : datetime) : Z :=
  match d with
  | Naive t => t
  | Aware t o => (t - o)%Z
  end.

(** All the keys of [l] are of the kind [k]. *)
Definition same_kind {A} (key : A -> datetime) (k : bool) (l : list A) : Prop :=
  Forall (fun x => is_naive (key x) = k) l.

(** The items of [l] whose key is the instant [z], in their order. *)
Definition at_instant {A} (key : A -> datetime) (z : Z) (l : list A) : list A :=
  filter (fun x => Z.eqb (instant (key x)) z) l.

(** Ascending and descending order of the instants of the keys. *)
Definition ascending {A} (key : A -> datetime) (l : list A) : Prop :=
  StronglySorted (fun a b => (instant (key a) <= instant (key b))%Z) l.

Definition descending {A} (key : A -> datetime) (l : list A) : Prop :=
  StronglySorted (fun a b => (instant (key b) <= instant (key a))%Z) l.

(** The body of a message as the specification words it: the first
    [text/plain] part, otherwise the top-level body when present,
    otherwise the empty string. *)
Definition spec_message_body (b64_utf8 : str -> result str) (pl : Gmail.payload)
  : result str :=
  let top :=
    match Gmail.payload_body pl with
    | Some b =>
        match Gmail.data b with
        | Some d => b64_utf8 d
        | None => Ok []
        end
    | None => Ok []
    end in
  match Gmail.parts pl with
  | Some ps =>
      match List.find (fun p => str_eqb (Gmail.mimeType p) (py "text/plain")) ps with
      | Some p =>
          match Gmail.data (Gmail.part_body p) with
          | Some d => b64_utf8 d
          | None => Raise KeyError
          end
      | None => top
      end
  | None => top
  end.

(** ** Sample messages *)

(** The microseconds of the wall-clock fields of a [datetime]. *)
Definition wall_clock (d : Cal.date) (h m s : Z) : Z :=
  ((((Cal.ymd2ord d * 24 + h) * 60 + m) * 60 + s) * 1000000)%Z.

(** A [strptime] that parses two dates with the first format, and raises
    [ValueError] on everything else. *)
Definition sample_strptime (s fmt : str) : result datetime :=
  if str_eqb fmt (py "%a, %d %b %Y %H:%M:%S %z") then
    if str_eqb s (py "Mon, 05 May 2025 10:00:00 +0900") then
      Ok (Aware (wall_clock {| Cal.year := 2025; Cal.month := 5; Cal.day := 5 |} 10 0 0)
                (9 * 3600 * 1000000))
    else if str_eqb s (py "Tue, 06 May 2025 09:00:00 +0000") then
      Ok (Aware (wall_clock {| Cal.year := 2025; Cal.month := 5; Cal.day := 6 |} 9 0 0) 0)
    else Raise ValueError
  else Raise ValueError.

(** A clock that advances by a second per message. *)
Definition sample_now (i : nat) : Z :=
  (wall_clock {| Cal.year := 2025; Cal.month := 5; Cal.day := 12 |} 8 0 0
   + Z.of_nat i * 1000000)%Z.

Definition plain_message (msg_id date_str text : str) : Gmail.message :=
  {| Gmail.msg_id := msg_id;
     Gmail.msg_payload :=
       {| Gmail.headers :=
            [ {| Gmail.name := py "Subject"; Gmail.value := py "Alert" |};
              {| Gmail.name := py "Date"; Gmail.value := date_str |} ];
          Gmail.parts :=
            Some [ {| Gmail.mimeType := py "text/html";
                      Gmail.part_body := {| Gmail.data := Some (py "<p>") |} |};
                   {| Gmail.mimeType := py "text/plain";
                      Gmail.part_body := {| Gmail.data := Some text |} |} ];
          Gmail.payload_body := Some {| Gmail.data := None |} |} |}.

(** A message whose date parses, one whose date carries a zone name in
    parentheses, and one without a [Date] header. *)
Definition sample_m1 : Gmail.message :=
  plain_message (py "m1") (py "Mon, 05 May 2025 10:00:00 +0900") (py "one").
Definition sample_m2 : Gmail.message :=
  plain_message (py "m2") (py "Tue, 06 May 2025 09:00:00 +0000 (UTC)") (py "two").
Definition sample_m3 : Gmail.message :=
  {| Gmail.msg_id := py "m3";
     Gmail.msg_payload :=
       {| Gmail.headers := [];
          Gmail.parts := None;
          Gmail.payload_body := Some {| Gmail.data := Some (py "three") |} |} |}.

(** A multi-part payload without [text/plain] part, with top-level body
    data. *)
Definition html_only_payload : Gmail.payload :=
  {| Gmail.headers := [];
     Gmail.parts :=
       Some [ {| Gmail.mimeType := py "text/html";
                 Gmail.part_body := {| Gmail.data := Some (py "<p>") |} |} ];
     Gmail.payload_body := Some {| Gmail.data := Some (py "top") |} |}.

(** ** Notions about date texts *)

Definition is_digit (c : char) : bool := ((48 <=? c) && (c <=? 57))%N.

(** [s] is [YYYY/MM/DD] for the date [d]: four, two and two decimal
    digits that denote the year, the month and the day. *)
Definition renders_ymd (d : Cal.date) (s : str) : Prop :=
  exists Y M D,
    s = Y ++ py "/" ++ M ++ py "/" ++ D
    /\ length Y = 4 /\ length M = 2 /\ length D = 2
    /\ forallb is_digit (Y ++ M ++ D) = true
    /\ Cal.decimal_value Y = Cal.year d
    /\ Cal.decimal_value M = Cal.month d
    /\ Cal.decimal_value D = Cal.day d.

(** [s] is the date [d] as [strftime('%Y/%m/%d')] writes it: the year in
    decimal, of one to four digits without leading zero, and two digits
    for the month and for the day. *)
Definition renders_date (d : Cal.date) (s : str) : Prop :=
  exists Y M D,
    s = Y ++ py "/" ++ M ++ py "/" ++ D
    /\ 1 <= length Y <= 4 /\ length M = 2 /\ length D = 2
    /\ forallb is_digit (Y ++ M ++ D) = true
    /\ hd 48%N Y <> 48%N
    /\ Cal.decimal_value Y = Cal.year d
    /\ Cal.decimal_value M = Cal.month d
    /\ Cal.decimal_value D = Cal.day d.

(** The date text and the two file names as the specification words
    them: [YYYY/MM/DD], [output_<startYYYYMMDD>-<endYYYYMMDD>.txt] and
    [output_<startYYYYMMDD>-<endYYYYMMDD>_formatted.txt]. *)
Definition spec_date_text (d : Cal.date) : str :=
  Cal.zpad 4 (Cal.year d) ++ py "/" ++ Cal.zpad 2 (Cal.month d) ++ py "/"
  ++ Cal.zpad 2 (Cal.day d).

Definition spec_output_filename (a b : Cal.date) : str :=
  py "output_" ++ Cal.yyyymmdd a ++ py "-" ++ Cal.yyyymmdd b ++ py ".txt".

Definition spec_output_filename_formatted (a b : Cal.date) : str :=
  py "output_" ++ Cal.yyyymmdd a ++ py "-" ++ Cal.yyyymmdd b ++ py "_formatted.txt".

(** ** Notions about splits *)

(** The shape of a split on the delimiters: segments that hold no
    delimiter, with one delimiter between two of them. *)
Fixpoint segments_and_delims (l : list str) : Prop :=
  match l with
  | [] => False
  | [x] => quiet re_delim x
  | x :: d :: l' =>
      quiet re_delim x /\ is_delim d = true /\ segments_and_delims l'
  end.

(** ** The gate on a discovery sequence *)

(** What the gate of lines 168-173 keeps of the articles [l], fed to it
    in order from the empty accumulators. *)
Definition kept (l : list article) : list article :=
  articles (fold_left gate l acc0).

(** The article stored for the URL [u], if any. *)
Definition lookup_url (u : str) (l : list article) : option article :=
  List.find (fun y => str_eqb (url y) u) l.

(** ** Notions about the date header *)

(** Line 102: the date header without its parenthesized comments,
    trimmed. [normalize_date] parses this text. *)
Definition cleaned_date (date_str : str) : str :=
  strip (Re.sub re_paren [] date_str).

(** No ['('] of [s] is followed, anywhere after it, by a [')']. *)
Definition no_comment (s : str) : Prop :=
  forall a b c, s <> a ++ py "(" ++ b ++ py ")" ++ c.

(* ================================================================== *)
(** * Credentials, files and the whole run (lines 20-42, 142-229) *)
(* ================================================================== *)

(** What a call may raise: an exception of the program's own
    operations, or the exception of a library or of the operating
    system, by its name. *)
Inductive failure : Type :=
| Builtin (e : exn)
| Library (name : str).

Inductive outcome (A : Type) : Type :=
| Done (a : A)
| Failed (e : failure).
Arguments Done {A} a.
Arguments Failed {A} e.

Definition lift {A} (r : result A) : outcome A :=
  match r with
  | Ok a => Done a
  | Raise e => Failed (Builtin e)
  end.

Module Auth.

(** The credentials object as [authenticate_gmail] reads it: the
    properties [valid] and [expired], and [refresh_token], which is
    [None] or a string; [token] is the access token. *)
Record credentials : Type :=
  { valid : bool; expired : bool; refresh_token : option str; token : str }.

(** The truth value of [creds.refresh_token]. *)
Definition truthy (t : option str) : bool :=
  match t with
  | Some (_ :: _) => true
  | _ => false
  end.

End Auth.

(** What a file holds: a pickled credentials object, or text. *)
Inductive content : Type :=
| Pickle (c : Auth.credentials)
| Text (s : str).

(** The files of the working directory, by name. *)
Definition files : Type := str -> option content.

(** [open(name, 'w')] and a write of the whole content. *)
Definition write (fs : files) (name : str) (c : content) : files :=
  fun n => if str_eqb n name then Some c else fs n.

Definition token_pickle : str := py "token.pickle".

(** The constant parts of the raw digest (lines 182-189) and of the
    prompt (lines 197-211), as code points: the two headings of the
    digest, the sign between the two dates, and the two parts of the
    instructions. *)
Definition digest_heading_period : str :=
  [35; 35; 35; 35; 35; 35; 32; 12491; 12517; 12540; 12473; 12398; 26399;
   38291; 10; 10]%N.

Definition digest_heading_articles : str :=
  [10; 10; 35; 35; 35; 35; 35; 35; 32; 12491; 12517; 12540; 12473; 35352;
   20107; 10]%N.

Definition wave_dash : str := [65374]%N.

Definition prompt_instructions : str :=
  [10; 19982; 12360; 12425; 12428; 12383; 12491; 12517; 12540; 12473;
   35352; 20107; 12434; 20197; 19979; 12398; 12501; 12457; 12540; 12510;
   12483; 12488; 12391; 20986; 21147; 12375; 12390; 12367; 12384; 12373;
   12356; 12290; 10; 10; 12491; 12517; 12540; 12473; 12398; 26399; 38291;
   65306]%N.

Definition prompt_constraints : str :=
  [10; 10; 35; 35; 35; 35; 35; 35; 32; 21046; 32004; 10; 45; 32; 12491;
   12517; 12540; 12473; 35352; 20107; 12399; 12289; 65; 87; 83; 40; 65;
   109; 97; 122; 111; 110; 32; 87; 101; 98; 32; 83; 101; 114; 118; 105; 99;
   101; 115; 41; 12395; 38306; 36899; 12377; 12427; 12418; 12398; 12391;
   12354; 12427; 24517; 35201; 12364; 12354; 12426; 12414; 12377; 12290;
   10; 45; 32; 21516; 12376; 20869; 23481; 12398; 35352; 20107; 12399;
   12414; 12392; 12417; 12390; 12367; 12384; 12373; 12356; 12290; 46; 10;
   10; 35; 35; 35; 35; 35; 35; 32; 20986; 21147; 12501; 12457; 12540;
   12510; 12483; 12488; 10; 9679; 32; 35352; 20107; 12398; 12479; 12452;
   12488; 12523; 32; 45; 32; 35352; 20107; 12398; 27010; 35201; 32; 35352;
   20107; 12398; 85; 82; 76; 10; 9679; 32; 35352; 20107; 12398; 12479;
   12452; 12488; 12523; 32; 45; 32; 35352; 20107; 12398; 27010; 35201; 32;
   35352; 20107; 12398; 85; 82; 76; 10; 10]%N.

(** Lines 182-189: the raw digest. *)
Definition raw_digest (w : window) (l : list article) : str :=
  digest_heading_period ++ after_date_text w ++ wave_dash ++ before_date_text w
  ++ digest_heading_articles ++ news_text l ++ [LF].

(** Lines 197-211: the prompt, which ends in the raw digest. *)
Definition prompt (w : window) (raw : str) : str :=
  prompt_instructions ++ after_date_text w ++ wave_dash ++ before_date_text w
  ++ prompt_constraints ++ raw ++ [LF].

Section Run.

(** The Gmail service object. *)
Variable service : Type.
(** [pickle.load] on a file that holds something else than what
    [pickle.dump] wrote for a credentials object. *)
Variable pickle_load : str -> outcome Auth.credentials.
(** [creds.refresh(Request())]: the credentials after the refresh. *)
Variable refresh : Auth.credentials -> outcome Auth.credentials.
(** [InstalledAppFlow.from_client_secrets_file(...).run_local_server(port=0)]. *)
Variable run_local_server : outcome Auth.credentials.
(** [build('gmail', 'v1', credentials=creds)]. *)
Variable build : Auth.credentials -> outcome service.
(** The messages the mailbox lists for a query and a maximal number,
    each with its resource. *)
Variable list_messages : service -> str -> nat -> outcome (list Gmail.message).
Variable strptime : str -> str -> result datetime.
Variable b64_utf8 : str -> result str.
Variable now : nat -> Z.
(** [os.getenv('OPENAI_API_KEY')]. *)
Variable api_key : option str.
(** [OpenAI(api_key=...).responses.create(model=..., input=...).output_text]. *)
Variable responses_create : option str -> str -> str -> outcome str.

(** Lines 25-27: the stored credentials, [None] without the file. *)
Definition load_token (fs : files) : outcome (option Auth.credentials) :=
  match fs token_pickle with
  | None => Done None
  | Some (Pickle c) => Done (Some c)
  | Some (Text s) =>
      match pickle_load s with
      | Done c => Done (Some c)
      | Failed e => Failed e
      end
  end.

(** Lines 39-40 and 42: store the credentials, then build the service. *)
Definition store_and_build (fs : files) (c : Auth.credentials)
  : files * outcome service :=
  (write fs token_pickle (Pickle c), build c).

(** Lines 34-36: the consent flow in the browser. *)
Definition new_credentials (fs : files) : files * outcome service :=
  match run_local_server with
  | Done c => store_and_build fs c
  | Failed e => (fs, Failed e)
  end.

(** [authenticate_gmail] (lines 20-42): the files after the call, and
    the service or the exception. *)
Definition authenticate_gmail (fs : files) : files * outcome service :=
  match load_token fs with
  | Failed e => (fs, Failed e)
  | Done None => new_credentials fs
  | Done (Some c) =>
      if Auth.valid c then (fs, build c)
      else if Auth.expired c && Auth.truthy (Auth.refresh_token c) then
        match refresh c with
        | Done c' => store_and_build fs c'
        | Failed e => (fs, Failed e)
        end
      else new_credentials fs
  end.

(** [main] (lines 142-229): the files after the run, and whether it
    returned. Standard output is not part of the model. *)
Definition main (after_date : Cal.date) (subject_filter : str) (fs : files)
  : files * outcome unit :=
  match authenticate_gmail fs with
  | (fs1, Failed e) => (fs1, Failed e)
  | (fs1, Done srv) =>
      match digest_window after_date subject_filter with
      | Raise e => (fs1, Failed (Builtin e))
      | Ok w =>
          match list_messages srv (query w) 30 with
          | Failed e => (fs1, Failed e)
          | Done messages =>
              match main_articles strptime b64_utf8 now messages with
              | Raise e => (fs1, Failed (Builtin e))
              | Ok l =>
                  let raw := raw_digest w l in
                  let fs2 := write fs1 (output_filename w) (Text raw) in
                  match responses_create api_key (py "o4-mini") (prompt w raw) with
                  | Failed e => (fs2, Failed e)
                  | Done news_text_formatted =>
                      (write fs2 (output_filename_formatted w)
                         (Text news_text_formatted), Done tt)
                  end
              end
          end
      end
  end.

End Run.

Arguments load_token pickle_load fs : clear implicits.
Arguments store_and_build service build fs c : clear implicits.
Arguments new_credentials service run_local_server build fs : clear implicits.
Arguments authenticate_gmail service pickle_load refresh run_local_server build fs
  : clear implicits.
Arguments main service pickle_load refresh run_local_server build list_messages
  strptime b64_utf8 now api_key responses_create after_date subject_filter fs
  : clear implicits.

(** ** A sample run *)

(** Credentials as a consent flow returns them, a mailbox with one
    digest mail, and a summarizer that answers every prompt alike. *)
Definition sample_credentials : Auth.credentials :=
  {| Auth.valid := true; Auth.expired := false;
     Auth.refresh_token := Some (py "r"); Auth.token := py "t" |}.

Definition sample_mailbox (_ : unit) (_ : str) (_ : nat)
  : outcome (list Gmail.message) :=
  Done [plain_message (py "m1") (py "Mon, 05 May 2025 10:00:00 +0900") sample_body].

Definition sample_run (fs : files) : files * outcome unit :=
  main unit (fun _ => Failed (Library (py "UnpicklingError")))
    (fun c => Done c) (Done sample_credentials) (fun _ => Done tt)
    sample_mailbox sample_strptime Ok sample_now (Some (py "key"))
    (fun _ _ _ => Done (py "summary"))
    {| Cal.year := 2025; Cal.month := 5; Cal.day := 5 |} (py "AWS") fs.

(** ** Two mails with an article in common *)

(** A later digest mail that reports the first article of [sample_body]
    again, under another title. *)
Definition sample_body_later : str :=
  digest_body [] (py "===") (py " News - AWS ") (py "===")
    (article_section [] [([py "Title one, again"], py "<https://a.example/1>")] [])
    (py "- - - ") (py "- - - unsubscribe").

Definition sample_older : Gmail.message :=
  plain_message (py "m1") (py "Mon, 05 May 2025 10:00:00 +0900") sample_body.
Definition sample_newer : Gmail.message :=
  plain_message (py "m2") (py "Tue, 06 May 2025 09:00:00 +0000") sample_body_later.

(** ** Notions about the rendered articles *)

(** Neither the summary nor the URL of the article holds a line feed. *)
Definition lf_free (x : article) : Prop :=
  ~ List.In LF (body x) /\ ~ List.In LF (url x).

Unset Implicit Arguments.

(* ================================================================== *)
(** * Facts about strings *)
(* ================================================================== *)

Lemma str_eqb_eq (a b : str) : str_eqb a b = true <-> a = b.
Proof.
  revert b; induction a as [|x a IH]; intros [|y b]; simpl; split; intro H;
    try discriminate; try reflexivity.
  - apply andb_prop in H as [H1 H2]. apply N.eqb_eq in H1.
    apply IH in H2. congruence.
  - injection H as -> ->. rewrite N.eqb_refl. simpl. now apply IH.
Qed.

Lemma str_eqb_refl (a : str) : str_eqb a a = true.
Proof. now apply str_eqb_eq. Qed.

Lemma str_eqb_neq (a b : str) : str_eqb a b = false <-> a <> b.
Proof.
  split; intro H.
  - intro E. apply str_eqb_eq in E. congruence.
  - destruct (str_eqb a b) eqn:E; [|reflexivity].
    apply str_eqb_eq in E. contradiction.
Qed.

Lemma str_in_In (x : str) (l : list str) : str_in x l = true <-> List.In x l.
Proof.
  unfold str_in. rewrite existsb_exists. split.
  - intros (y & Hy & E). apply str_eqb_eq in E. now subst.
  - intro H. exists x. split; [assumption|apply str_eqb_refl].
Qed.

Lemma str_in_not_In (x : str) (l : list str) :
  str_in x l = false <-> ~ List.In x l.
Proof.
  rewrite <- str_in_In. destruct (str_in x l); split; intro H;
    try discriminate; try reflexivity; try congruence.
Qed.

Lemma strip_prefix_Some (p s r : str) :
  strip_prefix p s = Some r <-> s = p ++ r.
Proof.
  revert s; induction p as [|a p IH]; intros s; simpl.
  - split; [now intros [= ->]|now intros ->].
  - destruct s as [|c s].
    + split; [discriminate|discriminate].
    + destruct (N.eqb_spec c a) as [->|Hne].
      * rewrite IH. split; [now intros ->|now intros [= ->]].
      * split; [discriminate|]. intros [= E _]. contradiction.
Qed.

Lemma strip_prefix_cons (a : char) (p : str) (c : char) (s : str) :
  strip_prefix (a :: p) (c :: s) = if N.eqb c a then strip_prefix p s else None.
Proof. reflexivity. Qed.

Lemma strip_prefix_app (p r : str) : strip_prefix p (p ++ r) = Some r.
Proof. now apply strip_prefix_Some. Qed.

Lemma strip_prefix_length (p s r : str) :
  strip_prefix p s = Some r -> length s = length p + length r.
Proof. intros H. apply strip_prefix_Some in H. subst. apply length_app. Qed.

(** [find] cuts its argument in three. *)
Lemma find_Some (p s a b : str) :
  find p s = Some (a, b) -> s = a ++ p ++ b.
Proof.
  revert a b; induction s as [|c s IH]; intros a b; simpl.
  - destruct (strip_prefix p []) eqn:E; [|discriminate].
    intros [= <- <-]. now apply strip_prefix_Some in E.
  - destruct (strip_prefix p (c :: s)) eqn:E.
    + intros [= <- <-]. now apply strip_prefix_Some in E.
    + destruct (find p s) as [[a' b']|] eqn:F; [|discriminate].
      intros [= <- <-]. simpl. f_equal. now apply IH.
Qed.

Lemma find_shorter (p s a b : str) :
  p <> [] -> find p s = Some (a, b) -> length b < length s.
Proof.
  intros Hp H. apply find_Some in H. subst.
  rewrite !length_app. destruct p; [contradiction|simpl; lia].
Qed.

(** Fuel beyond the length of the string changes nothing. *)
Lemma split_fuel_enough (sep : str) :
  sep <> [] -> forall n m s, length s <= n -> length s <= m ->
  split_fuel n sep s = split_fuel m sep s.
Proof.
  intros Hsep. induction n as [|n IH]; intros m s Hn Hm.
  - destruct s; [|simpl in Hn; lia].
    destruct m; simpl; [reflexivity|].
    destruct (strip_prefix sep []) eqn:E; [|reflexivity].
    apply strip_prefix_Some in E. destruct sep; [contradiction|discriminate].
  - destruct m as [|m].
    + destruct s; [|simpl in Hm; lia]. simpl.
      destruct (strip_prefix sep []) eqn:E; [|reflexivity].
      apply strip_prefix_Some in E. destruct sep; [contradiction|discriminate].
    + simpl. destruct (find sep s) as [[a b]|] eqn:F; [|reflexivity].
      f_equal. pose proof (find_shorter _ _ _ _ Hsep F). apply IH; lia.
Qed.

(** The equation of [split]. *)
Lemma split_eq (sep s : str) :
  sep <> [] ->
  Py.split s sep =
    match find sep s with
    | None => [s]
    | Some (a, b) => a :: Py.split b sep
    end.
Proof.
  intros Hsep. unfold Py.split. destruct s as [|c s].
  - cbn [length split_fuel].
    destruct (find sep []) as [[a b]|] eqn:F; [|reflexivity].
    apply (find_shorter _ _ _ _ Hsep) in F. simpl in F. lia.
  - cbn [length split_fuel].
    destruct (find sep (c :: s)) as [[a b]|] eqn:F; [|reflexivity].
    f_equal. pose proof (find_shorter _ _ _ _ Hsep F) as L. simpl in L.
    apply split_fuel_enough; [assumption|lia|lia].
Qed.

Lemma replace_fuel_enough (old new : str) :
  old <> [] -> forall n m s, length s <= n -> length s <= m ->
  replace_fuel n old new s = replace_fuel m old new s.
Proof.
  intros Hold. induction n as [|n IH]; intros m s Hn Hm.
  - destruct s; [|simpl in Hn; lia].
    destruct m; simpl; [reflexivity|].
    destruct (strip_prefix old []) eqn:E; [|reflexivity].
    apply strip_prefix_Some in E. destruct old; [contradiction|discriminate].
  - destruct m as [|m].
    + destruct s; [|simpl in Hm; lia]. simpl.
      destruct (strip_prefix old []) eqn:E; [|reflexivity].
      apply strip_prefix_Some in E. destruct old; [contradiction|discriminate].
    + simpl. destruct (find old s) as [[a b]|] eqn:F; [|reflexivity].
      do 2 f_equal. pose proof (find_shorter _ _ _ _ Hold F). apply IH; lia.
Qed.

(** The equation of [replace]. *)
Lemma replace_eq (old new s : str) :
  old <> [] ->
  Py.replace s old new =
    match find old s with
    | None => s
    | Some (a, b) => a ++ new ++ Py.replace b old new
    end.
Proof.
  intros Hold. unfold Py.replace. destruct s as [|c s].
  - cbn [length replace_fuel].
    destruct (find old []) as [[a b]|] eqn:F; [|reflexivity].
    apply (find_shorter _ _ _ _ Hold) in F. simpl in F. lia.
  - cbn [length replace_fuel].
    destruct (find old (c :: s)) as [[a b]|] eqn:F; [|reflexivity].
    do 2 f_equal. pose proof (find_shorter _ _ _ _ Hold F) as L. simpl in L.
    apply replace_fuel_enough; [assumption|lia|lia].
Qed.

(* ================================================================== *)
(** * Facts about the matcher and the loops of [re] *)
(* ================================================================== *)

Lemma suffix_refl (s : str) : suffix s s.
Proof. now exists []. Qed.

Lemma suffix_trans (a b c : str) : suffix a b -> suffix b c -> suffix a c.
Proof.
  intros [m ->] [m' ->]. exists (m' ++ m). now rewrite app_assoc.
Qed.

Lemma suffix_cons (c : char) (y s : str) : suffix y s -> suffix y (c :: s).
Proof. intros [m ->]. now exists (c :: m). Qed.

Lemma suffix_length (y s : str) : suffix y s -> length y <= length s.
Proof. intros [m ->]. rewrite length_app. lia. Qed.

Lemma suffix_Forall (P : char -> Prop) (y s : str) :
  suffix y s -> Forall P s -> Forall P y.
Proof. intros [m ->] H. now apply Forall_app in H. Qed.

(** Whatever the matcher returns, the continuation returned it, on some
    suffix of the text. *)
Lemma star_inv (k : Re.cset) (s : str) (cont : str -> option str) (x : str) :
  Re.star k s cont = Some x -> exists s', suffix s' s /\ cont s' = Some x.
Proof.
  induction s as [|c s IH]; simpl; intros H.
  - exists []. split; [apply suffix_refl|assumption].
  - destruct (Re.cset_mem k c).
    + destruct (Re.star k s cont) eqn:E.
      * injection H as ->. destruct (IH eq_refl) as (s' & Hs & Hc).
        exists s'. split; [now apply suffix_cons|assumption].
      * exists (c :: s). split; [apply suffix_refl|assumption].
    + exists (c :: s). split; [apply suffix_refl|assumption].
Qed.

Lemma rmatch_inv (r : Re.regex) :
  forall (s : str) (cont : str -> option str) (x : str),
  Re.rmatch r s cont = Some x -> exists s', suffix s' s /\ cont s' = Some x.
Proof.
  induction r as [|k|k|a IHa b IHb|a IHa b IHb]; simpl; intros s cont x H.
  - exists s. split; [apply suffix_refl|assumption].
  - destruct s as [|c s]; [discriminate|].
    destruct (Re.cset_mem k c); [|discriminate].
    exists s. split; [apply suffix_cons, suffix_refl|assumption].
  - eapply star_inv; eassumption.
  - apply IHa in H as (s1 & H1 & H). apply IHb in H as (s2 & H2 & H).
    exists s2. split; [now apply suffix_trans with s1|assumption].
  - destruct (Re.rmatch a s cont) eqn:E.
    + injection H as ->. now apply IHa.
    + now apply IHb.
Qed.

Lemma match_here_suffix (r : Re.regex) (adv : bool) (s rest : str) :
  Re.match_here r adv s = Some rest -> suffix rest s.
Proof.
  unfold Re.match_here. intros H. apply rmatch_inv in H as (s' & Hs & H).
  destruct (adv && (length s' =? length s)); [discriminate|].
  now injection H as <-.
Qed.

(** A literal matches exactly when the text starts with it. *)
Lemma rmatch_lit (p s : str) (cont : str -> option str) :
  Re.rmatch (Re.lit p) s cont =
    match strip_prefix p s with
    | Some r => cont r
    | None => None
    end.
Proof.
  revert s; induction p as [|a p IH]; intros s; simpl; [reflexivity|].
  destruct s as [|c s]; [reflexivity|].
  destruct (N.eqb c a); [apply IH|reflexivity].
Qed.

Lemma firstn_suffix (rest s : str) :
  suffix rest s -> s = firstn (length s - length rest) s ++ rest.
Proof.
  intros [m ->]. rewrite length_app.
  replace (length m + length rest - length rest) with (length m + 0) by lia.
  rewrite firstn_app_2. simpl. now rewrite app_nil_r.
Qed.

(** [search] cuts the text in three. *)
Lemma search_parts (r : Re.regex) (s : str) :
  forall adv a m b, Re.search r adv s = Some (a, m, b) -> s = a ++ m ++ b.
Proof.
  induction s as [|c s IH]; intros adv a m b; simpl.
  - destruct (Re.match_here r adv []) eqn:E; [|discriminate].
    intros [= <- <- <-]. apply match_here_suffix in E.
    now apply firstn_suffix in E.
  - destruct (Re.match_here r adv (c :: s)) eqn:E.
    + intros [= <- <- <-]. apply match_here_suffix in E.
      now apply firstn_suffix in E.
    + destruct (Re.search r false s) as [[[a' m'] b']|] eqn:F; [|discriminate].
      intros [= <- <- <-]. simpl. f_equal. now apply (IH false).
Qed.

Lemma search_progress (r : Re.regex) (s : str) :
  progress r ->
  forall a m b, Re.search r false s = Some (a, m, b) ->
  length b < length s /\ Re.is_empty m = false.
Proof.
  intros Hr. induction s as [|c s IH]; intros a m b; cbn [Re.search].
  - destruct (Re.match_here r false []) as [rest|] eqn:E; [|discriminate].
    apply Hr in E. simpl in E. lia.
  - destruct (Re.match_here r false (c :: s)) as [rest|] eqn:E.
    + intros [= <- <- <-]. apply Hr in E. split; [assumption|].
      assert (G : forall k, 0 < k -> Re.is_empty (firstn k (c :: s)) = false)
        by (intros [|k] ?; [lia|reflexivity]).
      apply G. simpl in E. destruct (length rest); lia.
    + destruct (Re.search r false s) as [[[a' m'] b']|] eqn:F; [|discriminate].
      intros [= <- <- <-]. destruct (IH _ _ _ eq_refl) as [L M].
      split; [simpl; lia|assumption].
Qed.

Lemma sub_loop_enough (r : Re.regex) (repl : str) :
  progress r ->
  forall n m s, length s < n -> length s < m ->
  Re.sub_loop n r repl false s = Re.sub_loop m r repl false s.
Proof.
  intros Hr. induction n as [|n IH]; intros m s Hn Hm; [lia|].
  destruct m as [|m]; [lia|]. simpl.
  destruct (Re.search r false s) as [[[a x] b]|] eqn:F; [|reflexivity].
  destruct (search_progress _ _ Hr _ _ _ F) as [L ->].
  do 2 f_equal. apply IH; lia.
Qed.

(** The equation of [re.sub] for a pattern that makes progress. *)
Lemma sub_eq (r : Re.regex) (repl s : str) :
  progress r ->
  Re.sub r repl s =
    match Re.search r false s with
    | None => s
    | Some (a, _, b) => a ++ repl ++ Re.sub r repl b
    end.
Proof.
  intros Hr. unfold Re.sub.
  replace (2 * length s + 2) with (S (2 * length s + 1)) by lia.
  cbn [Re.sub_loop].
  destruct (Re.search r false s) as [[[a x] b]|] eqn:F; [|reflexivity].
  destruct (search_progress _ _ Hr _ _ _ F) as [L ->].
  do 2 f_equal. apply sub_loop_enough; [assumption|lia|lia].
Qed.

Lemma split_loop_enough (r : Re.regex) (g : bool) :
  progress r ->
  forall n m s, length s < n -> length s < m ->
  Re.split_loop n r g false s = Re.split_loop m r g false s.
Proof.
  intros Hr. induction n as [|n IH]; intros m s Hn Hm; [lia|].
  destruct m as [|m]; [lia|]. simpl.
  destruct (Re.search r false s) as [[[a x] b]|] eqn:F; [|reflexivity].
  destruct (search_progress _ _ Hr _ _ _ F) as [L ->].
  do 2 f_equal. apply IH; lia.
Qed.

(** The equation of [re.split] for a pattern that makes progress. *)
Lemma re_split_eq (r : Re.regex) (g : bool) (s : str) :
  progress r ->
  Re.split r g s =
    match Re.search r false s with
    | None => [s]
    | Some (a, m, b) => a :: (if g then [m] else []) ++ Re.split r g b
    end.
Proof.
  intros Hr. unfold Re.split.
  replace (2 * length s + 2) with (S (2 * length s + 1)) by lia.
  cbn [Re.split_loop].
  destruct (Re.search r false s) as [[[a x] b]|] eqn:F; [|reflexivity].
  destruct (search_progress _ _ Hr _ _ _ F) as [L ->].
  do 2 f_equal. apply split_loop_enough; [assumption|lia|lia].
Qed.

(** The loops, one character at a time. *)
Lemma sub_nil (r : Re.regex) (repl : str) : progress r -> Re.sub r repl [] = [].
Proof.
  intros Hr. rewrite sub_eq by assumption. cbn [Re.search].
  destruct (Re.match_here r false []) as [rest|] eqn:E; [|reflexivity].
  apply Hr in E. simpl in E. lia.
Qed.

Lemma sub_hit (r : Re.regex) (repl s rest : str) :
  progress r -> Re.match_here r false s = Some rest ->
  Re.sub r repl s = repl ++ Re.sub r repl rest.
Proof.
  intros Hr E. rewrite sub_eq by assumption.
  destruct s; cbn [Re.search]; rewrite E; reflexivity.
Qed.

Lemma sub_miss (r : Re.regex) (repl : str) (c : char) (s : str) :
  progress r -> Re.match_here r false (c :: s) = None ->
  Re.sub r repl (c :: s) = c :: Re.sub r repl s.
Proof.
  intros Hr E. rewrite (sub_eq r repl (c :: s)) by assumption.
  rewrite (sub_eq r repl s) by assumption.
  cbn [Re.search]. rewrite E.
  destruct (Re.search r false s) as [[[a x] b]|]; reflexivity.
Qed.

Lemma re_split_nil (r : Re.regex) (g : bool) : progress r -> Re.split r g [] = [[]].
Proof.
  intros Hr. rewrite re_split_eq by assumption. cbn [Re.search].
  destruct (Re.match_here r false []) as [rest|] eqn:E; [|reflexivity].
  apply Hr in E. simpl in E. lia.
Qed.

Lemma re_split_hit (r : Re.regex) (g : bool) (s rest : str) :
  progress r -> Re.match_here r false s = Some rest ->
  Re.split r g s =
    [] :: (if g then [firstn (length s - length rest) s] else [])
       ++ Re.split r g rest.
Proof.
  intros Hr E. rewrite re_split_eq by assumption.
  destruct s; cbn [Re.search]; rewrite E; reflexivity.
Qed.

Lemma re_split_miss (r : Re.regex) (g : bool) (c : char) (s : str) :
  progress r -> Re.match_here r false (c :: s) = None ->
  Re.split r g (c :: s) = cons_head c (Re.split r g s).
Proof.
  intros Hr E. rewrite (re_split_eq r g (c :: s)) by assumption.
  rewrite (re_split_eq r g s) by assumption.
  cbn [Re.search]. rewrite E.
  destruct (Re.search r false s) as [[[a x] b]|]; reflexivity.
Qed.

(** Where a pattern is quiet, [re.sub] changes nothing. *)
Lemma quiet_cons (r : Re.regex) (c : char) (s : str) :
  quiet r (c :: s) <-> Re.match_here r false (c :: s) = None /\ quiet r s.
Proof.
  split.
  - intros H. split; [apply (H 0)|]. intros k. apply (H (S k)).
  - intros [H0 H] [|k]; [exact H0|apply H].
Qed.

Lemma quiet_suffix (r : Re.regex) (y s : str) : suffix y s -> quiet r s -> quiet r y.
Proof.
  intros [m ->] H k. specialize (H (length m + k)).
  now rewrite skipn_app, skipn_all2, Nat.add_comm, Nat.add_sub in H by lia.
Qed.

Lemma sub_quiet (r : Re.regex) (repl s : str) :
  progress r -> quiet r s -> Re.sub r repl s = s.
Proof.
  intros Hr. induction s as [|c s IH]; intros H.
  - now apply sub_nil.
  - apply quiet_cons in H as [H0 H].
    rewrite sub_miss by assumption. f_equal. now apply IH.
Qed.

Lemma star_ext (k : Re.cset) (s : str) (c1 c2 : str -> option str) :
  (forall x, c1 x = c2 x) -> Re.star k s c1 = Re.star k s c2.
Proof.
  intros E. induction s as [|c s IH]; simpl; [apply E|].
  rewrite IH, E. reflexivity.
Qed.

Lemma rmatch_ext (r : Re.regex) :
  forall (s : str) (c1 c2 : str -> option str),
  (forall x, c1 x = c2 x) -> Re.rmatch r s c1 = Re.rmatch r s c2.
Proof.
  induction r as [|k|k|a IHa b IHb|a IHa b IHb]; simpl; intros s c1 c2 E.
  - apply E.
  - destruct s as [|c s]; [reflexivity|]. now rewrite E.
  - now apply star_ext.
  - apply IHa. intros x. now apply IHb.
  - now rewrite (IHa s c1 c2 E), (IHb s c1 c2 E).
Qed.

Lemma match_here_false (r : Re.regex) (s : str) :
  Re.match_here r false s = Re.rmatch r s Some.
Proof. reflexivity. Qed.

(** Patterns that make progress. *)
Lemma progress_chr (k : Re.cset) : progress (Re.Chr k).
Proof.
  intros [|c s] rest; rewrite match_here_false; simpl; [discriminate|].
  destruct (Re.cset_mem k c); [|discriminate]. intros [= <-]. lia.
Qed.

Lemma progress_chr_cat (k : Re.cset) (r : Re.regex) : progress (Re.Cat (Re.Chr k) r).
Proof.
  intros [|c s] rest; rewrite match_here_false; simpl; [discriminate|].
  destruct (Re.cset_mem k c); [|discriminate]. intros H.
  apply rmatch_inv in H as (s' & Hs & [= <-]).
  apply suffix_length in Hs. lia.
Qed.

Lemma progress_lit_cat (p : str) (r : Re.regex) :
  p <> [] -> progress (Re.Cat (Re.lit p) r).
Proof.
  intros Hp s rest. rewrite match_here_false. cbn [Re.rmatch].
  rewrite rmatch_lit. destruct (strip_prefix p s) as [t|] eqn:E; [|discriminate].
  intros H. apply rmatch_inv in H as (s' & Hs & [= <-]).
  apply suffix_length in Hs. apply strip_prefix_length in E.
  destruct p; [contradiction|simpl in E; lia].
Qed.

Lemma progress_lit (p : str) : p <> [] -> progress (Re.lit p).
Proof.
  intros Hp s rest. rewrite match_here_false, rmatch_lit.
  destruct (strip_prefix p s) as [t|] eqn:E; [|discriminate].
  intros [= <-]. apply strip_prefix_length in E.
  destruct p; [contradiction|simpl in E; lia].
Qed.

Lemma progress_alt (a b : Re.regex) : progress a -> progress b -> progress (Re.Alt a b).
Proof.
  intros Ha Hb s rest. rewrite match_here_false. cbn [Re.rmatch].
  destruct (Re.rmatch a s Some) eqn:E.
  - intros [= <-]. now apply Ha.
  - apply Hb.
Qed.

Lemma progress_angle : progress re_angle.
Proof. apply progress_chr. Qed.

Lemma progress_http_http : progress re_http_http.
Proof. apply progress_lit_cat. discriminate. Qed.

Lemma progress_ct_ga : progress re_ct_ga.
Proof. apply progress_lit_cat. discriminate. Qed.

Lemma progress_delim : progress re_delim.
Proof. apply progress_alt; apply progress_lit; discriminate. Qed.

Lemma progress_crlf : progress re_crlf.
Proof. apply progress_lit. discriminate. Qed.

Lemma progress_paren : progress re_paren.
Proof. apply progress_chr_cat. Qed.

(** What one attempt of each canonicalization pattern does. *)
Lemma mh_angle (s : str) :
  Re.match_here re_angle false s =
    match s with
    | c :: s' => if is_angle c then Some s' else None
    | [] => None
    end.
Proof. destruct s; reflexivity. Qed.

Lemma mh_http (s : str) :
  Re.match_here re_http_http false s =
    match strip_prefix http s with
    | Some t => after_last http t
    | None => None
    end.
Proof.
  rewrite match_here_false. unfold re_http_http. cbn [Re.rmatch].
  rewrite rmatch_lit. fold http.
  destruct (strip_prefix http s) as [t|]; [|reflexivity].
  apply star_ext. intros x. rewrite rmatch_lit.
  now destruct (strip_prefix http x).
Qed.

Lemma star_dot_Some (t : str) : Re.star Re.Dot t Some = Some (drop_line t).
Proof.
  induction t as [|c t IH]; simpl; [reflexivity|].
  destruct (N.eqb c LF); simpl; [reflexivity|]. now rewrite IH.
Qed.

Lemma mh_ct_ga (s : str) :
  Re.match_here re_ct_ga false s =
    match strip_prefix ct_ga s with
    | Some t => Some (drop_line t)
    | None => None
    end.
Proof.
  rewrite match_here_false. unfold re_ct_ga. cbn [Re.rmatch].
  rewrite rmatch_lit. fold ct_ga.
  destruct (strip_prefix ct_ga s) as [t|]; [|reflexivity].
  apply star_dot_Some.
Qed.

(* ================================================================== *)
(** * URL canonicalization: the three substitutions *)
(* ================================================================== *)

Lemma canonicalize_steps (x : str) :
  canonicalize x = sub_ct_ga (sub_http (sub_angle x)).
Proof. reflexivity. Qed.

(** Induction on the length of a string. *)
Lemma str_len_ind (P : str -> Prop) :
  (forall s, (forall y, length y < length s -> P y) -> P s) -> forall s, P s.
Proof.
  intros H s. remember (length s) as n eqn:E. revert s E.
  induction n as [n IH] using lt_wf_ind. intros s ->.
  apply H. intros y L. now apply (IH (length y)).
Qed.

Ltac len_induction s IH :=
  pattern s; apply str_len_ind; clear s; intros s IH.

(** What [re.sub] returns is made of the text and of the replacement. *)
Lemma sub_Forall (P : char -> Prop) (r : Re.regex) (repl : str) :
  progress r -> Forall P repl ->
  forall s, Forall P s -> Forall P (Re.sub r repl s).
Proof.
  intros Hr Hrepl s. len_induction s IH. intros Hs.
  rewrite sub_eq by assumption.
  destruct (Re.search r false s) as [[[a m] b]|] eqn:F; [|assumption].
  pose proof (search_parts _ _ _ _ _ _ F) as E.
  destruct (search_progress _ _ Hr _ _ _ F) as [L _].
  rewrite E in Hs. apply Forall_app in Hs as [Ha Hs].
  apply Forall_app in Hs as [_ Hb].
  apply Forall_app. split; [assumption|].
  apply Forall_app. split; [assumption|]. now apply IH.
Qed.

(** ** Step 1: the angle brackets *)

Lemma sub_angle_filter (s : str) :
  sub_angle s = filter (fun c => negb (is_angle c)) s.
Proof.
  unfold sub_angle. induction s as [|c s IH].
  - apply sub_nil, progress_angle.
  - simpl. destruct (is_angle c) eqn:E; simpl.
    + rewrite (sub_hit re_angle [] (c :: s) s progress_angle).
      * exact IH.
      * rewrite mh_angle, E. reflexivity.
    + rewrite sub_miss.
      * now rewrite IH.
      * apply progress_angle.
      * rewrite mh_angle, E. reflexivity.
Qed.

Lemma sub_angle_no_angle (s : str) : no_angle (sub_angle s).
Proof.
  rewrite sub_angle_filter. apply Forall_forall. intros c H.
  apply filter_In in H as [_ H]. now apply negb_true_iff in H.
Qed.

Lemma sub_angle_id (s : str) : no_angle s -> sub_angle s = s.
Proof.
  intros H. rewrite sub_angle_filter. induction H as [|c s Hc Hs IH]; simpl.
  - reflexivity.
  - rewrite Hc. simpl. now rewrite IH.
Qed.

Lemma no_angle_http : no_angle http.
Proof. repeat constructor. Qed.

(** ** Step 2: [http.*http] *)

Lemma sub_http_nil : sub_http [] = [].
Proof. apply sub_nil, progress_http_http. Qed.

Lemma sub_http_hit (s t r : str) :
  strip_prefix http s = Some t -> after_last http t = Some r ->
  sub_http s = http ++ sub_http r.
Proof.
  intros E1 E2. apply sub_hit; [apply progress_http_http|].
  now rewrite mh_http, E1.
Qed.

Lemma sub_http_miss (c : char) (s : str) :
  Re.match_here re_http_http false (c :: s) = None ->
  sub_http (c :: s) = c :: sub_http s.
Proof. intros E. apply sub_miss; [apply progress_http_http|assumption]. Qed.

(** A position that does not start with [h] is no match. *)
Lemma mh_http_not_h (c : char) (s : str) :
  c <> 104%N -> Re.match_here re_http_http false (c :: s) = None.
Proof.
  intros Hc. rewrite mh_http. simpl.
  destruct (N.eqb_spec c 104); [contradiction|reflexivity].
Qed.

Lemma after_last_LF (p t : str) :
  after_last p (LF :: t) = strip_prefix p (LF :: t).
Proof. reflexivity. Qed.

Lemma after_last_cons (p : str) (c : char) (t : str) :
  c <> LF ->
  after_last p (c :: t) =
    match after_last p t with
    | Some x => Some x
    | None => strip_prefix p (c :: t)
    end.
Proof.
  intros Hc. unfold after_last. simpl.
  destruct (N.eqb_spec c LF); [contradiction|reflexivity].
Qed.

Lemma after_last_None_cons (p : str) (c : char) (t : str) :
  after_last p (c :: t) = None -> c <> LF ->
  after_last p t = None /\ strip_prefix p (c :: t) = None.
Proof.
  intros H Hc. rewrite after_last_cons in H by assumption.
  destruct (after_last p t); [discriminate|]. now split.
Qed.

Lemma strip_prefix_http_LF (t : str) : strip_prefix http (LF :: t) = None.
Proof. reflexivity. Qed.

(** After the last [http] of a line there is no [http] on that line. *)
Lemma after_last_http_last (t r : str) :
  after_last http t = Some r -> after_last http r = None.
Proof.
  induction t as [|c t IH]; [discriminate|].
  destruct (N.eqb_spec c LF) as [->|Hc].
  - rewrite after_last_LF. discriminate.
  - rewrite after_last_cons by assumption.
    destruct (after_last http t) as [x|] eqn:E.
    + intros [= <-]. now apply IH.
    + intros H. apply strip_prefix_Some in H. injection H as -> ->.
      apply after_last_None_cons in E as [E _]; [|discriminate].
      apply after_last_None_cons in E as [E _]; [|discriminate].
      apply after_last_None_cons in E as [E _]; [|discriminate].
      exact E.
Qed.

Lemma sub_http_keep (s t : str) :
  strip_prefix http s = Some t -> after_last http t = None ->
  sub_http s = http ++ sub_http t.
Proof.
  intros E1 E2. apply strip_prefix_Some in E1. subst s.
  change (http ++ t) with (104 :: 116 :: 116 :: 112 :: t)%N.
  rewrite sub_http_miss by (rewrite mh_http; exact E2).
  repeat (rewrite sub_http_miss by (apply mh_http_not_h; discriminate)).
  reflexivity.
Qed.

(** A prefix without [h] in the result was a prefix of the text. *)
Lemma sub_http_prefix (p : str) :
  Forall (fun c => c <> 104%N) p ->
  forall s x, strip_prefix p (sub_http s) = Some x ->
  exists t, strip_prefix p s = Some t /\ x = sub_http t.
Proof.
  induction 1 as [|a p Ha Hp IH]; intros s x H.
  - simpl in H. injection H as <-. now exists s.
  - destruct s as [|c s].
    + rewrite sub_http_nil in H. discriminate.
    + destruct (Re.match_here re_http_http false (c :: s)) as [r|] eqn:E.
      * exfalso. rewrite mh_http in E.
        destruct (strip_prefix http (c :: s)) as [t|] eqn:E1; [|discriminate].
        rewrite (sub_http_hit _ _ _ E1 E) in H.
        change (http ++ sub_http r) with (104 :: (py "ttp" ++ sub_http r))%N in H.
        rewrite strip_prefix_cons in H.
        destruct (N.eqb_spec 104 a); [now subst a|discriminate].
      * rewrite (sub_http_miss _ _ E) in H. rewrite strip_prefix_cons in H |- *.
        destruct (N.eqb c a); [|discriminate]. now apply IH.
Qed.

Lemma sub_http_starts (s x : str) :
  strip_prefix http (sub_http s) = Some x ->
  exists t, strip_prefix http s = Some t.
Proof.
  intros H. destruct s as [|c s].
  - rewrite sub_http_nil in H. discriminate.
  - destruct (Re.match_here re_http_http false (c :: s)) as [r|] eqn:E.
    + rewrite mh_http in E.
      destruct (strip_prefix http (c :: s)) as [t|]; [now exists t|discriminate].
    + rewrite (sub_http_miss _ _ E) in H.
      change http with (104 :: py "ttp")%N in H |- *.
      rewrite strip_prefix_cons in H |- *.
      destruct (N.eqb c 104); [|discriminate].
      apply sub_http_prefix in H as (t & Ht & _).
      * exists t. exact Ht.
      * repeat constructor; discriminate.
Qed.

(** A line without [http] stays without. *)
Lemma sub_http_after_last_None (s : str) :
  after_last http s = None -> after_last http (sub_http s) = None.
Proof.
  induction s as [|c s IH]; intros H.
  - now rewrite sub_http_nil.
  - assert (M : Re.match_here re_http_http false (c :: s) = None).
    { rewrite mh_http. destruct (strip_prefix http (c :: s)) as [t|] eqn:E; [|reflexivity].
      exfalso. destruct (N.eqb_spec c LF) as [->|Hc]; [discriminate|].
      apply after_last_None_cons in H as [_ H]; [congruence|assumption]. }
    rewrite (sub_http_miss _ _ M).
    destruct (N.eqb_spec c LF) as [->|Hc]; [reflexivity|].
    apply after_last_None_cons in H as [H1 H2]; [|assumption].
    rewrite after_last_cons by assumption. rewrite (IH H1).
    destruct (strip_prefix http (c :: sub_http s)) as [x|] eqn:E; [|reflexivity].
    exfalso. rewrite <- (sub_http_miss _ _ M) in E.
    apply sub_http_starts in E as (t & Et). congruence.
Qed.

(** After step 2 the pattern of step 2 matches nowhere. *)
Lemma sub_http_quiet (s : str) : quiet re_http_http (sub_http s).
Proof.
  len_induction s IH. destruct s as [|c s].
  - rewrite sub_http_nil. intros k. now destruct k.
  - destruct (Re.match_here re_http_http false (c :: s)) as [r|] eqn:E.
    + rewrite mh_http in E.
      destruct (strip_prefix http (c :: s)) as [t|] eqn:E1; [|discriminate].
      rewrite (sub_http_hit _ _ _ E1 E).
      assert (L : length r < length (c :: s)).
      { apply (progress_http_http (c :: s) r). now rewrite mh_http, E1. }
      change (http ++ sub_http r) with (104 :: 116 :: 116 :: 112 :: sub_http r)%N.
      apply quiet_cons. split.
      { rewrite mh_http. simpl. apply sub_http_after_last_None.
        now apply after_last_http_last with t. }
      apply quiet_cons. split; [apply mh_http_not_h; discriminate|].
      apply quiet_cons. split; [apply mh_http_not_h; discriminate|].
      apply quiet_cons. split; [apply mh_http_not_h; discriminate|].
      now apply IH.
    + rewrite (sub_http_miss _ _ E). apply quiet_cons. split.
      * rewrite <- (sub_http_miss _ _ E). rewrite mh_http.
        destruct (strip_prefix http (sub_http (c :: s))) as [x|] eqn:E2; [|reflexivity].
        destruct (sub_http_starts _ _ E2) as (t & Et).
        rewrite mh_http, Et in E.
        rewrite (sub_http_keep _ _ Et E) in E2.
        rewrite strip_prefix_app in E2. injection E2 as <-.
        now apply sub_http_after_last_None.
      * apply IH. simpl. lia.
Qed.

(** ** Step 3: [&ct=ga&.*] *)

Lemma sub_ct_ga_nil : sub_ct_ga [] = [].
Proof. apply sub_nil, progress_ct_ga. Qed.

Lemma sub_ct_ga_hit (s t : str) :
  strip_prefix ct_ga s = Some t -> sub_ct_ga s = sub_ct_ga (drop_line t).
Proof.
  intros E. unfold sub_ct_ga.
  rewrite (sub_hit re_ct_ga [] s (drop_line t) progress_ct_ga); [reflexivity|].
  now rewrite mh_ct_ga, E.
Qed.

Lemma sub_ct_ga_miss (c : char) (s : str) :
  strip_prefix ct_ga (c :: s) = None -> sub_ct_ga (c :: s) = c :: sub_ct_ga s.
Proof.
  intros E. apply sub_miss; [apply progress_ct_ga|]. now rewrite mh_ct_ga, E.
Qed.

Lemma drop_line_cases (t : str) :
  drop_line t = [] \/ exists v, drop_line t = LF :: v.
Proof.
  induction t as [|c t IH]; simpl; [now left|].
  destruct (N.eqb_spec c LF) as [->|_]; [right; now exists t|exact IH].
Qed.

Lemma drop_line_suffix (t : str) : suffix (drop_line t) t.
Proof.
  induction t as [|c t IH]; simpl; [apply suffix_refl|].
  destruct (N.eqb c LF); [apply suffix_refl|now apply suffix_cons].
Qed.

(** What step 3 returns after a match is empty or starts a new line. *)
Lemma sub_ct_ga_drop_line (t : str) :
  sub_ct_ga (drop_line t) = [] \/ exists v, sub_ct_ga (drop_line t) = LF :: v.
Proof.
  destruct (drop_line_cases t) as [->|[v ->]].
  - left. apply sub_ct_ga_nil.
  - right. exists (sub_ct_ga v). now apply sub_ct_ga_miss.
Qed.

(** A non-empty prefix without line feed in the result was a prefix of
    the text. *)
Lemma sub_ct_ga_prefix (p : str) :
  Forall (fun c => c <> LF) p -> p <> [] ->
  forall s x, strip_prefix p (sub_ct_ga s) = Some x ->
  exists t, strip_prefix p s = Some t.
Proof.
  induction 1 as [|a p Ha Hp IH]; intros Hne s x H; [contradiction|].
  destruct s as [|c s].
  - rewrite sub_ct_ga_nil in H. discriminate.
  - destruct (strip_prefix ct_ga (c :: s)) as [t|] eqn:E.
    + exfalso. rewrite (sub_ct_ga_hit _ _ E) in H.
      destruct (sub_ct_ga_drop_line t) as [R|[v R]]; rewrite R in H.
      * discriminate.
      * rewrite strip_prefix_cons in H.
        destruct (N.eqb_spec LF a); [now subst a|discriminate].
    + rewrite (sub_ct_ga_miss _ _ E) in H. rewrite strip_prefix_cons in H |- *.
      destruct (N.eqb c a); [|discriminate].
      destruct p as [|b p]; [now exists s|].
      apply IH with x; [discriminate|assumption].
Qed.

(** Step 3 copies a literal [http]. *)
Lemma sub_ct_ga_http (t : str) : sub_ct_ga (http ++ t) = http ++ sub_ct_ga t.
Proof.
  change (http ++ t) with (104 :: 116 :: 116 :: 112 :: t)%N.
  now rewrite !sub_ct_ga_miss by reflexivity.
Qed.

Lemma sub_ct_ga_after_last_None (t : str) :
  after_last http t = None -> after_last http (sub_ct_ga t) = None.
Proof.
  len_induction t IH. intros H. destruct t as [|c t].
  - now rewrite sub_ct_ga_nil.
  - destruct (strip_prefix ct_ga (c :: t)) as [u|] eqn:E.
    + rewrite (sub_ct_ga_hit _ _ E).
      destruct (sub_ct_ga_drop_line u) as [->|[v ->]]; reflexivity.
    + rewrite (sub_ct_ga_miss _ _ E).
      destruct (N.eqb_spec c LF) as [->|Hc]; [reflexivity|].
      apply after_last_None_cons in H as [H1 H2]; [|assumption].
      rewrite after_last_cons by assumption. rewrite IH by (simpl; lia || assumption).
      destruct (strip_prefix http (c :: sub_ct_ga t)) as [x|] eqn:E2; [|reflexivity].
      exfalso. rewrite <- (sub_ct_ga_miss _ _ E) in E2.
      apply sub_ct_ga_prefix in E2 as (t' & Et).
      * congruence.
      * repeat constructor; discriminate.
      * discriminate.
Qed.

(** Step 3 keeps the pattern of step 2 quiet. *)
Lemma sub_ct_ga_keeps_quiet (s : str) :
  quiet re_http_http s -> quiet re_http_http (sub_ct_ga s).
Proof.
  len_induction s IH. intros Q. destruct s as [|c s].
  - now rewrite sub_ct_ga_nil.
  - destruct (strip_prefix ct_ga (c :: s)) as [u|] eqn:E.
    + rewrite (sub_ct_ga_hit _ _ E).
      assert (S1 : suffix u (c :: s)).
      { apply strip_prefix_Some in E. rewrite E. now exists ct_ga. }
      assert (S2 : suffix (drop_line u) (c :: s)).
      { apply suffix_trans with u; [apply drop_line_suffix|assumption]. }
      apply IH.
      * apply strip_prefix_length in E. pose proof (suffix_length _ _ (drop_line_suffix u)).
        change (length ct_ga) with 7 in E. lia.
      * now apply quiet_suffix with (c :: s).
    + rewrite (sub_ct_ga_miss _ _ E). apply quiet_cons in Q as [Q0 Q].
      apply quiet_cons. split; [|apply IH; [simpl; lia|assumption]].
      rewrite <- (sub_ct_ga_miss _ _ E). rewrite mh_http.
      destruct (strip_prefix http (sub_ct_ga (c :: s))) as [x|] eqn:E2; [|reflexivity].
      assert (P : exists t, strip_prefix http (c :: s) = Some t).
      { apply sub_ct_ga_prefix with x; [repeat constructor; discriminate|discriminate|assumption]. }
      destruct P as (t & Et). rewrite mh_http, Et in Q0.
      apply strip_prefix_Some in Et. rewrite Et, sub_ct_ga_http in E2.
      rewrite strip_prefix_app in E2. injection E2 as <-.
      now apply sub_ct_ga_after_last_None.
Qed.

(** After step 3 the pattern of step 3 matches nowhere. *)
Lemma sub_ct_ga_quiet (s : str) : quiet re_ct_ga (sub_ct_ga s).
Proof.
  len_induction s IH. destruct s as [|c s].
  - rewrite sub_ct_ga_nil. intros k. now destruct k.
  - destruct (strip_prefix ct_ga (c :: s)) as [u|] eqn:E.
    + rewrite (sub_ct_ga_hit _ _ E). apply IH.
      apply strip_prefix_length in E. pose proof (suffix_length _ _ (drop_line_suffix u)).
      change (length ct_ga) with 7 in E. lia.
    + rewrite (sub_ct_ga_miss _ _ E). apply quiet_cons. split; [|apply IH; simpl; lia].
      rewrite <- (sub_ct_ga_miss _ _ E). rewrite mh_ct_ga.
      destruct (strip_prefix ct_ga (sub_ct_ga (c :: s))) as [x|] eqn:E2; [|reflexivity].
      exfalso. apply sub_ct_ga_prefix in E2 as (t & Et).
      * congruence.
      * repeat constructor; discriminate.
      * discriminate.
Qed.

(** ** The result of [canonicalize] is a fixed point of each step *)

Lemma canonicalize_no_angle (x : str) : no_angle (canonicalize x).
Proof.
  rewrite canonicalize_steps.
  apply sub_Forall; [apply progress_ct_ga|constructor|].
  apply sub_Forall; [apply progress_http_http|apply no_angle_http|].
  apply sub_angle_no_angle.
Qed.

Lemma canonicalize_quiet_http (x : str) : quiet re_http_http (canonicalize x).
Proof.
  rewrite canonicalize_steps. apply sub_ct_ga_keeps_quiet, sub_http_quiet.
Qed.

Lemma canonicalize_quiet_ct_ga (x : str) : quiet re_ct_ga (canonicalize x).
Proof. rewrite canonicalize_steps. apply sub_ct_ga_quiet. Qed.

(** C3. URL canonicalization is idempotent: for every string [x],
    [canonicalize (canonicalize x) = canonicalize x], where
    [canonicalize] is the removal of angle brackets, then
    [re.sub('http.*http', 'http', _)], then [re.sub('&ct=ga&.*', '', _)],
    as in lines 165-167. *)
Theorem canonicalize_idempotent (x : str) :
  canonicalize (canonicalize x) = canonicalize x.
Proof.
  rewrite (canonicalize_steps (canonicalize x)).
  rewrite (sub_angle_id _ (canonicalize_no_angle x)).
  unfold sub_http, sub_ct_ga.
  rewrite (sub_quiet _ _ _ progress_http_http (canonicalize_quiet_http x)).
  apply (sub_quiet _ _ _ progress_ct_ga (canonicalize_quiet_ct_ga x)).
Qed.

(* ================================================================== *)
(** * URL canonicalization, line by line *)
(* ================================================================== *)

Lemma line_tail_nil : line_tail [].
Proof. now left. Qed.

Lemma line_tail_LF (rest : str) : line_tail (LF :: rest).
Proof. right. now exists rest. Qed.

(** A literal without line feed cannot reach into what follows a line. *)
Lemma strip_prefix_line (p : str) :
  ~ List.In LF p -> forall u tail, line_tail tail ->
  strip_prefix p (u ++ tail) = option_map (fun r => r ++ tail) (strip_prefix p u).
Proof.
  induction p as [|a p IH]; intros Hp u tail Ht; [reflexivity|].
  assert (Ha : a <> LF) by (intros ->; apply Hp; now left).
  assert (Hp' : ~ List.In LF p) by (intros H; apply Hp; now right).
  destruct u as [|c u].
  - simpl. destruct Ht as [->|[rest ->]]; [reflexivity|].
    destruct (N.eqb_spec LF a); [now subst a|reflexivity].
  - simpl app. rewrite !strip_prefix_cons.
    destruct (N.eqb c a); [now apply IH|reflexivity].
Qed.

Lemma not_In_LF_http : ~ List.In LF http.
Proof. intros H. repeat (destruct H as [H|H]; [discriminate|]). exact H. Qed.

Lemma not_In_LF_ct_ga : ~ List.In LF ct_ga.
Proof. intros H. repeat (destruct H as [H|H]; [discriminate|]). exact H. Qed.

Lemma find_cons (p : str) (c : char) (s : str) :
  find p (c :: s) =
    match strip_prefix p (c :: s) with
    | Some rest => Some ([], rest)
    | None =>
        match find p s with
        | Some (a, b) => Some (c :: a, b)
        | None => None
        end
    end.
Proof. reflexivity. Qed.

Lemma find_cons_prefix (p s rest : str) :
  strip_prefix p s = Some rest -> find p s = Some ([], rest).
Proof. intros H. destruct s; simpl; now rewrite H. Qed.

Lemma rfind_cons (p : str) (c : char) (s : str) :
  rfind p (c :: s) =
    match rfind p s with
    | Some (a, b) => Some (c :: a, b)
    | None =>
        match strip_prefix p (c :: s) with
        | Some r => Some ([], r)
        | None => None
        end
    end.
Proof. reflexivity. Qed.

Lemma rfind_None_find (p s : str) : rfind p s = None -> find p s = None.
Proof.
  induction s as [|c s IH].
  - simpl. now destruct (strip_prefix p []).
  - rewrite rfind_cons, find_cons.
    destruct (rfind p s) as [[a b]|]; [discriminate|].
    destruct (strip_prefix p (c :: s)); [discriminate|].
    intros _. now rewrite IH.
Qed.

Lemma rfind_None_suffix (p u r : str) : rfind p (u ++ r) = None -> rfind p r = None.
Proof.
  induction u as [|c u IH]; [trivial|]. simpl app. rewrite rfind_cons.
  destruct (rfind p (u ++ r)) as [[a b]|]; [discriminate|]. intros _. now apply IH.
Qed.

(** After the last occurrence there is none. *)
Lemma rfind_Some_last (p s m r : str) :
  p <> [] -> rfind p s = Some (m, r) -> rfind p r = None.
Proof.
  intros Hp. revert m. induction s as [|c s IH]; intros m.
  - simpl. destruct p; [contradiction|discriminate].
  - rewrite rfind_cons. destruct (rfind p s) as [[a b]|] eqn:E.
    + intros [= <- <-]. now apply IH with a.
    + destruct (strip_prefix p (c :: s)) as [x|] eqn:E2; [|discriminate].
      intros [= <- <-]. apply strip_prefix_Some in E2.
      destruct p as [|a p]; [contradiction|]. injection E2 as -> ->.
      now apply rfind_None_suffix with p.
Qed.

(** The greedy [.*] followed by [http], on a line. *)
Lemma after_last_line (t tail : str) :
  ~ List.In LF t -> line_tail tail ->
  after_last http (t ++ tail) =
    option_map (fun ab => snd ab ++ tail) (rfind http t).
Proof.
  intros Ht Htail. induction t as [|c t IH].
  - simpl app. destruct Htail as [->|[rest ->]]; reflexivity.
  - assert (Hc : c <> LF) by (intros ->; apply Ht; now left).
    assert (Ht' : ~ List.In LF t) by (intros H; apply Ht; now right).
    simpl app. rewrite after_last_cons by assumption.
    rewrite (IH Ht'), rfind_cons.
    destruct (rfind http t) as [[a b]|]; [reflexivity|]. cbn [option_map].
    change (c :: t ++ tail) with ((c :: t) ++ tail).
    rewrite (strip_prefix_line http not_In_LF_http _ _ Htail).
    now destruct (strip_prefix http (c :: t)).
Qed.

Lemma sub_http_LF (rest : str) : sub_http (LF :: rest) = LF :: sub_http rest.
Proof. apply sub_http_miss, mh_http_not_h. discriminate. Qed.

Lemma sub_http_line_tail (tail : str) : line_tail tail -> line_tail (sub_http tail).
Proof.
  intros [->|[rest ->]].
  - rewrite sub_http_nil. apply line_tail_nil.
  - rewrite sub_http_LF. apply line_tail_LF.
Qed.

(** Step 2 copies a line without [http]. *)
Lemma sub_http_copy (l tail : str) :
  find http l = None -> line_tail tail ->
  sub_http (l ++ tail) = l ++ sub_http tail.
Proof.
  intros H Htail. induction l as [|c l IH]; [reflexivity|].
  rewrite find_cons in H.
  destruct (strip_prefix http (c :: l)) as [x|] eqn:E; [discriminate|].
  destruct (find http l) as [[a b]|]; [discriminate|].
  simpl app. rewrite sub_http_miss.
  - now rewrite IH.
  - rewrite mh_http. change (c :: l ++ tail) with ((c :: l) ++ tail).
    now rewrite (strip_prefix_line http not_In_LF_http _ _ Htail), E.
Qed.

(** Step 2 copies a line up to its first [http]. *)
Lemma sub_http_first (l a t tail : str) :
  find http l = Some (a, t) -> line_tail tail ->
  sub_http (l ++ tail) = a ++ sub_http (http ++ t ++ tail).
Proof.
  intros H Htail. revert a H. induction l as [|c l IH]; intros a H; [discriminate|].
  rewrite find_cons in H.
  destruct (strip_prefix http (c :: l)) as [x|] eqn:E.
  - injection H as <- <-. apply strip_prefix_Some in E. rewrite E.
    now rewrite <- app_assoc.
  - destruct (find http l) as [[a' b']|] eqn:F; [|discriminate].
    injection H as <- <-. simpl app. rewrite sub_http_miss.
    + now rewrite (IH a').
    + rewrite mh_http. change (c :: l ++ tail) with ((c :: l) ++ tail).
      now rewrite (strip_prefix_line http not_In_LF_http _ _ Htail), E.
Qed.

Lemma find_parts_not_In (p s a b : str) (c : char) :
  find p s = Some (a, b) -> ~ List.In c s -> ~ List.In c a /\ ~ List.In c b.
Proof.
  intros H Hs. apply find_Some in H. subst s.
  split; intros Hc; apply Hs; apply in_or_app; [now left|right].
  apply in_or_app. now right.
Qed.

(** Step 2 on a line. *)
Lemma sub_http_line (l tail : str) :
  ~ List.In LF l -> line_tail tail ->
  sub_http (l ++ tail) = collapse l ++ sub_http tail.
Proof.
  intros Hl Htail. unfold collapse.
  destruct (find http l) as [[a t]|] eqn:F.
  - rewrite (sub_http_first _ _ _ _ F Htail).
    destruct (find_parts_not_In _ _ _ _ LF F Hl) as [_ Ht].
    pose proof (after_last_line t tail Ht Htail) as AL.
    destruct (rfind http t) as [[m r]|] eqn:R; simpl in AL.
    + rewrite (sub_http_hit (http ++ t ++ tail) (t ++ tail) (r ++ tail));
        [|apply strip_prefix_app|assumption].
      rewrite sub_http_copy; [now rewrite <- !app_assoc| |assumption].
      apply rfind_None_find. apply rfind_Some_last with t m; [discriminate|assumption].
    + rewrite (sub_http_keep (http ++ t ++ tail) (t ++ tail));
        [|apply strip_prefix_app|assumption].
      rewrite sub_http_copy; [|now apply rfind_None_find|assumption].
      apply find_Some in F. rewrite F. now rewrite <- !app_assoc.
  - now apply sub_http_copy.
Qed.

Lemma rfind_parts (p s a b : str) : rfind p s = Some (a, b) -> s = a ++ p ++ b.
Proof.
  revert a. induction s as [|c s IH]; intros a.
  - simpl. destruct (strip_prefix p []) eqn:E; [|discriminate].
    intros [= <- <-]. now apply strip_prefix_Some in E.
  - rewrite rfind_cons. destruct (rfind p s) as [[a' b']|] eqn:R.
    + intros [= <- <-]. simpl. f_equal. now apply IH.
    + destruct (strip_prefix p (c :: s)) eqn:E; [|discriminate].
      intros [= <- <-]. now apply strip_prefix_Some in E.
Qed.

Lemma collapse_not_In_LF (l : str) : ~ List.In LF l -> ~ List.In LF (collapse l).
Proof.
  intros Hl. unfold collapse.
  destruct (find http l) as [[a t]|] eqn:F; [|assumption].
  destruct (find_parts_not_In _ _ _ _ LF F Hl) as [Ha Ht].
  destruct (rfind http t) as [[m r]|] eqn:R; [|assumption].
  apply rfind_parts in R. intros H.
  apply in_app_or in H as [H|H]; [now apply Ha|].
  apply in_app_or in H as [H|H]; [now apply not_In_LF_http|].
  apply Ht. rewrite R. apply in_or_app. right. apply in_or_app. now right.
Qed.

Lemma remove_angles_not_In_LF (l : str) :
  ~ List.In LF l -> ~ List.In LF (remove_angles l).
Proof. intros Hl H. apply filter_In in H as [H _]. now apply Hl. Qed.

(** Step 1 on a line. *)
Lemma sub_angle_line (l tail : str) :
  sub_angle (l ++ tail) = remove_angles l ++ sub_angle tail.
Proof. rewrite !sub_angle_filter. apply filter_app. Qed.

Lemma sub_angle_line_tail (tail : str) : line_tail tail -> line_tail (sub_angle tail).
Proof.
  intros [->|[rest ->]]; rewrite sub_angle_filter.
  - apply line_tail_nil.
  - apply line_tail_LF.
Qed.

(** Step 3 on a line. *)
Lemma drop_line_app (t tail : str) :
  ~ List.In LF t -> line_tail tail -> drop_line (t ++ tail) = tail.
Proof.
  intros Ht Htail. induction t as [|c t IH].
  - destruct Htail as [->|[rest ->]]; reflexivity.
  - simpl. destruct (N.eqb_spec c LF) as [->|_].
    + exfalso. apply Ht. now left.
    + apply IH. intros H. apply Ht. now right.
Qed.


Lemma sub_ct_ga_line (l tail : str) :
  ~ List.In LF l -> line_tail tail ->
  sub_ct_ga (l ++ tail) = truncate l ++ sub_ct_ga tail.
Proof.
  intros Hl Htail. unfold truncate. induction l as [|c l IH]; [reflexivity|].
  assert (Hl' : ~ List.In LF l) by (intros H; apply Hl; now right).
  rewrite find_cons.
  pose proof (strip_prefix_line ct_ga not_In_LF_ct_ga (c :: l) tail Htail) as SP.
  change ((c :: l) ++ tail) with (c :: (l ++ tail)) in SP.
  destruct (strip_prefix ct_ga (c :: l)) as [t|] eqn:E; cbn [option_map] in SP.
  - simpl app. rewrite (sub_ct_ga_hit _ _ SP). rewrite drop_line_app; [reflexivity| |assumption].
    apply strip_prefix_Some in E. intros H. apply Hl. rewrite E.
    apply in_or_app. now right.
  - simpl app. rewrite (sub_ct_ga_miss _ _ SP). rewrite (IH Hl').
    now destruct (find ct_ga l) as [[a b]|].
Qed.

Lemma canonicalize_nil : canonicalize [] = [].
Proof. reflexivity. Qed.


(** [canonicalize] works line by line. *)
Lemma canonicalize_line (l tail : str) :
  ~ List.In LF l -> line_tail tail ->
  canonicalize (l ++ tail) = canon_line l ++ canonicalize tail.
Proof.
  intros Hl Htail. rewrite !canonicalize_steps. unfold canon_line.
  rewrite sub_angle_line.
  pose proof (remove_angles_not_In_LF _ Hl) as H1.
  pose proof (sub_angle_line_tail _ Htail) as T1.
  rewrite (sub_http_line _ _ H1 T1).
  pose proof (collapse_not_In_LF _ H1) as H2.
  pose proof (sub_http_line_tail _ T1) as T2.
  now rewrite (sub_ct_ga_line _ _ H2 T2).
Qed.




(* ================================================================== *)
(** * The extraction and deduplication loop *)
(* ================================================================== *)

Lemma split_loop_not_nil (n : nat) (r : Re.regex) (g adv : bool) (s : str) :
  Re.split_loop n r g adv s <> [].
Proof.
  destruct n; simpl; [discriminate|].
  destruct (Re.search r adv s) as [[[a m] b]|]; discriminate.
Qed.

Lemma re_split_not_nil (r : Re.regex) (g : bool) (s : str) : Re.split r g s <> [].
Proof. apply split_loop_not_nil. Qed.

Lemma last_item_Ok {A} (l : list A) : l <> [] -> exists x, last_item l = Ok x.
Proof.
  unfold last_item, index_m1. induction l as [|a l IH]; [contradiction|].
  intros _. destruct l as [|b l].
  - now exists a.
  - apply IH. discriminate.
Qed.

(** A block always yields an article. *)
Lemma block_fields_Ok (a : str) : exists f, block_fields a = Ok f.
Proof.
  unfold block_fields.
  destruct (last_item_Ok _ (re_split_not_nil re_crlf false a)) as [x ->].
  simpl. eauto.
Qed.

Lemma block_article_Ok (a : str) : exists x, block_article a = Ok x.
Proof.
  unfold block_article. destruct (block_fields_Ok a) as [f ->]. simpl. eauto.
Qed.

Lemma block_step_Ok (st : acc) (a : str) :
  exists x, block_article a = Ok x /\ block_step st a = Ok (gate st x).
Proof.
  unfold block_step. destruct (block_article_Ok a) as [x ->]. simpl. eauto.
Qed.

Lemma map_result_block_article_Ok (arts : list str) :
  exists xs, map_result block_article arts = Ok xs.
Proof.
  induction arts as [|a arts [xs IH]]; simpl; [eauto|].
  destruct (block_article_Ok a) as [x ->]. rewrite IH. simpl. eauto.
Qed.

(** The inner loop is the gate folded over the articles of the blocks. *)
Lemma for_blocks_fold (arts : list str) :
  forall st, for_blocks st arts =
    (xs <- map_result block_article arts ;; Ok (fold_left gate xs st)).
Proof.
  induction arts as [|a arts IH]; intros st; simpl; [reflexivity|].
  destruct (block_step_Ok st a) as (x & E1 & E2). rewrite E1, E2. simpl.
  rewrite IH. now destruct (map_result block_article arts).
Qed.

Lemma email_step_fold (st : acc) (b : str) :
  email_step st b = (xs <- extract b ;; Ok (fold_left gate xs st)).
Proof.
  unfold email_step, extract. destruct (article_blocks b) as [arts|e]; simpl.
  - apply for_blocks_fold.
  - reflexivity.
Qed.

(** The whole loop is the gate folded over the articles in discovery
    order. *)
Lemma for_emails_fold (bodies : list str) :
  forall st, for_emails st bodies =
    (xs <- discovered bodies ;; Ok (fold_left gate xs st)).
Proof.
  induction bodies as [|b bodies IH]; intros st; simpl; [reflexivity|].
  rewrite email_step_fold. destruct (extract b) as [xs|e]; simpl; [|reflexivity].
  rewrite IH. destruct (discovered bodies) as [ys|e]; simpl; [|reflexivity].
  now rewrite fold_left_app.
Qed.

Lemma str_in_app (x : str) (l1 l2 : list str) :
  str_in x (l1 ++ l2) = str_in x l1 || str_in x l2.
Proof. apply existsb_app. Qed.

Lemma filter_filter {A} (f g : A -> bool) (l : list A) :
  filter f (filter g l) = filter (fun x => g x && f x) l.
Proof.
  induction l as [|a l IH]; simpl; [reflexivity|].
  destruct (g a); simpl; [destruct (f a)|]; now rewrite IH.
Qed.

(** The gate keeps the first occurrences. *)
Lemma fold_gate_articles (l : list article) :
  forall st, articles (fold_left gate l st) =
    articles st
    ++ filter (fun y => negb (str_in (url y) (urls st))) (first_occurrences l).
Proof.
  induction l as [|x l IH]; intros st; simpl.
  - now rewrite app_nil_r.
  - rewrite IH. unfold gate at 1 2.
    destruct (str_in (url x) (urls st)) eqn:E; simpl.
    + f_equal. rewrite filter_filter. apply filter_ext_in. intros y _.
      destruct (str_eqb (url y) (url x)) eqn:E2; simpl; [|reflexivity].
      apply str_eqb_eq in E2. now rewrite E2, E.
    + rewrite <- app_assoc. simpl. do 2 f_equal.
      rewrite filter_filter. apply filter_ext. intros y.
      rewrite str_in_app. simpl. rewrite orb_false_r, negb_orb.
      apply andb_comm.
Qed.

Lemma fold_gate_first (l : list article) :
  articles (fold_left gate l acc0) = first_occurrences l.
Proof.
  rewrite fold_gate_articles. simpl. induction (first_occurrences l) as [|x xs IH];
    simpl; [reflexivity|]. now rewrite IH.
Qed.

Lemma filter_none {A} (f : A -> bool) (l : list A) :
  (forall x, List.In x l -> f x = false) -> filter f l = [].
Proof.
  induction l as [|a l IH]; intros H; simpl; [reflexivity|].
  rewrite (H a) by now left. apply IH. intros x Hx. apply H. now right.
Qed.

Lemma filter_snoc {A} (f : A -> bool) (l : list A) (x : A) :
  filter f (l ++ [x]) = filter f l ++ (if f x then [x] else []).
Proof. now rewrite filter_app. Qed.

Lemma first_occurrences_urls (l : list article) (u : str) :
  str_in u (List.map url (first_occurrences l)) = str_in u (List.map url l).
Proof.
  induction l as [|x l IH]; simpl; [reflexivity|].
  destruct (str_eqb u (url x)) eqn:E; simpl; [reflexivity|].
  rewrite <- IH. clear IH.
  induction (first_occurrences l) as [|y ys IH]; simpl; [reflexivity|].
  destruct (str_eqb (url y) (url x)) eqn:E2; simpl.
  - apply str_eqb_eq in E2. rewrite E2, E. simpl. exact IH.
  - now rewrite IH.
Qed.

(** An article at the end is kept exactly when its URL is new. *)
Lemma first_occurrences_snoc (l : list article) (x : article) :
  first_occurrences (l ++ [x]) =
    first_occurrences l
    ++ (if str_in (url x) (List.map url l) then [] else [x]).
Proof.
  induction l as [|y l IH]; simpl; [reflexivity|].
  rewrite IH, filter_app. f_equal. f_equal.
  destruct (str_eqb (url x) (url y)) eqn:E; simpl.
  - destruct (str_in (url x) (List.map url l)); simpl; [reflexivity|].
    now rewrite E.
  - destruct (str_in (url x) (List.map url l)); simpl; [reflexivity|].
    now rewrite E.
Qed.

(** C4. The deduplication gate processes the canonicalized articles in
    discovery order (message by message in the order of retrieval, block
    by block within a message), keeps the first occurrence of each URL
    and drops every later one, in the order of discovery: an article is
    kept exactly when its URL has not occurred before it. For [a], [b],
    [c] with the URL of [c] that of [a] and another one for [b], the kept
    sequence is [a], [b]. *)
Theorem dedup_keeps_first_occurrences (bodies : list str) :
  collect bodies = (xs <- discovered bodies ;; Ok (first_occurrences xs))
  /\ (forall strptime b64_utf8 now messages,
        main_articles strptime b64_utf8 now messages =
          (emails <- Gmail.get_emails_by_subject strptime b64_utf8 now messages ;;
           xs <- discovered (List.map Gmail.body emails) ;;
           Ok (first_occurrences xs)))
  /\ (forall l, articles (fold_left gate l acc0) = first_occurrences l)
  /\ (forall l x,
        first_occurrences (l ++ [x]) =
          first_occurrences l
          ++ (if str_in (url x) (List.map url l) then [] else [x]))
  /\ (forall l u,
        str_in u (List.map url (first_occurrences l)) = str_in u (List.map url l))
  /\ (forall a b c,
        url c = url a -> url b <> url a ->
        articles (fold_left gate [a; b; c] acc0) = [a; b]).
Proof.
  assert (C : forall bs,
            collect bs = (xs <- discovered bs ;; Ok (first_occurrences xs))).
  { intros bs. unfold collect. rewrite for_emails_fold.
    destruct (discovered bs) as [xs|e]; simpl; [|reflexivity].
    now rewrite fold_gate_first. }
  repeat split.
  - apply C.
  - intros strptime b64_utf8 now messages. unfold main_articles.
    destruct (Gmail.get_emails_by_subject strptime b64_utf8 now messages);
      cbn [bind]; [apply C|reflexivity].
  - apply fold_gate_first.
  - apply first_occurrences_snoc.
  - intros l u. apply first_occurrences_urls.
  - intros a b c Hc Hb. rewrite fold_gate_first.
    assert (E1 : str_eqb (url c) (url a) = true) by now apply str_eqb_eq.
    assert (E2 : str_eqb (url b) (url a) = false) by now apply str_eqb_neq.
    cbn [first_occurrences filter].
    destruct (str_eqb (url c) (url b)); cbn [negb filter];
      rewrite E2; cbn [negb filter]; rewrite ?E1; reflexivity.
Qed.

Lemma gate_inv (st : acc) (x : article) : loop_inv st -> loop_inv (gate st x).
Proof.
  intros [H1 H2]. unfold gate.
  destruct (str_in (url x) (urls st)) eqn:E; simpl; [now split|].
  split; simpl.
  - now rewrite map_app, H1.
  - apply str_in_not_In in E. apply NoDup_app; [assumption|repeat constructor; auto| ].
    intros y Hy [<-|[]]. contradiction.
Qed.

Lemma block_step_inv (st st' : acc) (a : str) :
  block_step st a = Ok st' -> loop_inv st -> loop_inv st'.
Proof.
  destruct (block_step_Ok st a) as (x & _ & E). rewrite E.
  intros [= <-]. apply gate_inv.
Qed.

Lemma step_inv (c c' : config) : step c c' -> loop_inv (store c) -> loop_inv (store c').
Proof.
  intros [b bs arts st H|bs a arts st st' H]; simpl; [trivial|].
  now apply block_step_inv with a.
Qed.

Lemma reachable_inv (bodies : list str) (c : config) :
  reachable bodies c -> loop_inv (store c).
Proof.
  induction 1 as [|c c' _ IH Hs].
  - split; [reflexivity|constructor].
  - now apply step_inv with c.
Qed.

Lemma step_run (c c' : config) : step c c' -> run c = run c'.
Proof.
  intros [b bs arts st H|bs a arts st st' H]; unfold run; simpl.
  - unfold email_step. now rewrite H.
  - now rewrite H.
Qed.

(** A run that returns ends in a configuration the transitions reach. *)
Lemma run_reaches (bodies : list str) (c : config) (st : acc) :
  reachable bodies c -> run c = Ok st ->
  reachable bodies {| todo_emails := []; todo_blocks := []; store := st |}.
Proof.
  destruct c as [bs arts st0]. revert arts st0.
  induction bs as [|b bs IHb]; intros arts; induction arts as [|a arts IHa];
    intros st0 R H; unfold run in H; simpl in H.
  - now injection H as <-.
  - destruct (block_step st0 a) as [st1|] eqn:E; [|discriminate].
    apply (IHa st1); [|exact H].
    eapply reach_step; [exact R|]. now constructor.
  - unfold email_step in H.
    destruct (article_blocks b) as [arts|] eqn:E; [|discriminate].
    apply (IHb arts st0); [|exact H].
    eapply reach_step; [exact R|]. now constructor.
  - destruct (block_step st0 a) as [st1|] eqn:E; [|discriminate].
    apply (IHa st1); [|exact H].
    eapply reach_step; [exact R|]. now constructor.
Qed.

(** C10. Invariant of the extraction and deduplication loop: in every
    configuration the loop reaches, the URLs of the accumulated articles
    are, in order, the list [urls], and they are pairwise distinct. A
    run that returns ends in such a configuration, so the articles the
    raw digest renders have pairwise distinct URLs. *)
Theorem dedup_loop_invariant (bodies : list str) :
  (forall c, reachable bodies c ->
     List.map url (articles (store c)) = urls (store c)
     /\ NoDup (urls (store c)))
  /\ (forall l, collect bodies = Ok l ->
        (exists st,
           reachable bodies {| todo_emails := []; todo_blocks := []; store := st |}
           /\ articles st = l)
        /\ NoDup (List.map url l)
        /\ news_text l = List.concat (List.map render l)).
Proof.
  split.
  - apply reachable_inv.
  - intros l H. unfold collect in H.
    destruct (for_emails acc0 bodies) as [st|] eqn:E; [|discriminate].
    injection H as <-.
    assert (R : reachable bodies {| todo_emails := []; todo_blocks := []; store := st |}).
    { apply run_reaches with {| todo_emails := bodies; todo_blocks := []; store := acc0 |}.
      - constructor.
      - exact E. }
    split; [now exists st|]. split; [|reflexivity].
    destruct (reachable_inv _ _ R) as [H1 H2]. simpl in H1, H2. now rewrite H1.
Qed.

Lemma for_blocks_Ok (arts : list str) (st : acc) : exists st', for_blocks st arts = Ok st'.
Proof.
  rewrite for_blocks_fold.
  destruct (map_result_block_article_Ok arts) as [xs ->]. simpl. eauto.
Qed.

Lemma article_blocks_short (b : str) :
  length (Re.split re_delim true b) < 5 -> article_blocks b = Raise IndexError.
Proof.
  intros Hb. unfold article_blocks.
  assert (E : nth_error (Re.split re_delim true b) 4 = None)
    by (apply nth_error_None; lia).
  now rewrite E.
Qed.

Lemma article_blocks_Raise (b : str) (e : exn) :
  article_blocks b = Raise e -> e = IndexError.
Proof.
  unfold article_blocks.
  destruct (nth_error (Re.split re_delim true b) 4); [discriminate|congruence].
Qed.

Lemma for_emails_short (bodies : list str) (b : str) :
  List.In b bodies -> length (Re.split re_delim true b) < 5 ->
  forall st, for_emails st bodies = Raise IndexError.
Proof.
  intros Hin Hb. induction bodies as [|b' bodies IH]; [contradiction|].
  intros st. cbn [for_emails]. unfold email_step.
  destruct (article_blocks b') as [arts|e] eqn:E; cbn [bind].
  - destruct (for_blocks_Ok arts st) as [st' ->]. cbn [bind].
    apply IH. destruct Hin as [->|Hin]; [|assumption].
    rewrite (article_blocks_short b Hb) in E. discriminate.
  - now rewrite (article_blocks_Raise b' e E).
Qed.

(** C9. A message body whose split on the delimiters has fewer than five
    items (['hello'] is one) makes the extraction raise [IndexError]: it
    neither skips the message nor returns an empty list of articles, and
    the exception leaves the loop and ends the run, whatever the other
    messages are. *)
Theorem short_body_raises_IndexError :
  length (Re.split re_delim true (py "hello")) = 1
  /\ (forall b, length (Re.split re_delim true b) < 5 ->
        article_blocks b = Raise IndexError /\ extract b = Raise IndexError)
  /\ (forall bodies b,
        List.In b bodies -> length (Re.split re_delim true b) < 5 ->
        collect bodies = Raise IndexError)
  /\ (forall strptime b64_utf8 now messages emails e,
        Gmail.get_emails_by_subject strptime b64_utf8 now messages = Ok emails ->
        List.In e emails -> length (Re.split re_delim true (Gmail.body e)) < 5 ->
        main_articles strptime b64_utf8 now messages = Raise IndexError).
Proof.
  split; [reflexivity|]. split; [|split].
  - intros b Hb. unfold extract. now rewrite (article_blocks_short b Hb).
  - intros bodies b Hin Hb. unfold collect.
    now rewrite (for_emails_short bodies b Hin Hb).
  - intros strptime b64 now messages emails e H Hin He.
    unfold main_articles. rewrite H. simpl. unfold collect.
    rewrite (for_emails_short (List.map Gmail.body emails) (Gmail.body e)); trivial.
    now apply in_map.
Qed.

(* ================================================================== *)
(** * Extraction from a body built from blocks *)
(* ================================================================== *)

Lemma mh_crlf (s : str) : Re.match_here re_crlf false s = strip_prefix crlf s.
Proof.
  rewrite match_here_false. unfold re_crlf. rewrite rmatch_lit.
  now destruct (strip_prefix crlf s).
Qed.

Lemma mh_delim (s : str) :
  Re.match_here re_delim false s =
    match strip_prefix (py "===") s with
    | Some r => Some r
    | None => strip_prefix (py "- - - ") s
    end.
Proof.
  rewrite match_here_false. unfold re_delim. cbn [Re.rmatch].
  rewrite !rmatch_lit.
  destruct (strip_prefix (py "===") s); [reflexivity|].
  now destruct (strip_prefix (py "- - - ") s).
Qed.

Lemma cr_free_cons (c : char) (s : str) :
  cr_free (c :: s) = true -> c <> CR /\ cr_free s = true.
Proof.
  unfold cr_free. simpl. intros H. apply negb_true_iff, orb_false_iff in H as [H1 H2].
  split; [|now rewrite H2]. intros ->. discriminate.
Qed.

Lemma strip_prefix_not_head (a : char) (p : str) (c : char) (s : str) :
  c <> a -> strip_prefix (a :: p) (c :: s) = None.
Proof.
  intros H. rewrite strip_prefix_cons.
  destruct (N.eqb_spec c a); [contradiction|reflexivity].
Qed.

(** ['\r\n'] splits a text at the end of a line without carriage
    return. *)
Lemma re_split_crlf_line (l : str) :
  cr_free l = true ->
  Re.split re_crlf false l = [l]
  /\ forall rest, Re.split re_crlf false (l ++ crlf ++ rest)
                 = l :: Re.split re_crlf false rest.
Proof.
  induction l as [|c l IH]; intros H.
  - split; [apply re_split_nil, progress_crlf|]. intros rest.
    apply (re_split_hit re_crlf false (crlf ++ rest) rest progress_crlf).
    now rewrite mh_crlf.
  - apply cr_free_cons in H as [Hc Hl]. destruct (IH Hl) as [IH1 IH2].
    assert (M : forall x, Re.match_here re_crlf false (c :: x) = None).
    { intros x. rewrite mh_crlf. now apply strip_prefix_not_head. }
    split.
    + rewrite re_split_miss; [|apply progress_crlf|apply M]. now rewrite IH1.
    + intros rest. change ((c :: l) ++ crlf ++ rest) with (c :: (l ++ crlf ++ rest)).
      rewrite re_split_miss; [|apply progress_crlf|apply M]. now rewrite IH2.
Qed.

Lemma join_cons2 (sep x y : str) (l : list str) :
  join sep (x :: y :: l) = x ++ sep ++ join sep (y :: l).
Proof. reflexivity. Qed.

Lemma re_split_crlf_join (ls : list str) :
  ls <> [] -> forallb cr_free ls = true ->
  Re.split re_crlf false (join crlf ls) = ls.
Proof.
  induction ls as [|l ls IH]; [contradiction|]. intros _ H.
  simpl in H. apply andb_prop in H as [Hl Hls].
  destruct (re_split_crlf_line l Hl) as [E1 E2].
  destruct ls as [|l2 ls]; [exact E1|].
  rewrite join_cons2, E2. f_equal. apply IH; [discriminate|assumption].
Qed.

Lemma index_m1_snoc {A} (l : list A) (x : A) : index_m1 (l ++ [x]) = Some x.
Proof.
  unfold index_m1. rewrite map_app. simpl. apply last_last.
Qed.

(** The fields of a block built from lines: the summary is the
    concatenation of the lines before the last, trimmed, and the URL is
    the last line, trimmed. *)
Lemma block_fields_lines (b : list str * str) :
  block_ok b = true ->
  block_fields (block_text b) = Ok (strip (join0 (fst b)), strip (snd b)).
Proof.
  destruct b as [ls u]. unfold block_ok, block_fields, block_text. simpl fst. simpl snd.
  intros H. apply andb_prop in H as [H1 H2].
  rewrite re_split_crlf_join.
  - unfold last_item. rewrite index_m1_snoc. unfold slice_to_m1.
    now rewrite removelast_last.
  - now destruct ls.
  - rewrite forallb_app. simpl. rewrite andb_true_r.
    apply andb_true_intro. split.
    + apply forallb_forall. intros x Hx.
      apply (proj1 (forallb_forall _ _) H1) in Hx. now apply andb_prop in Hx.
    + now apply andb_prop in H2.
Qed.

Lemma strip_prefix_blank_not_CR (c : char) (s : str) :
  c <> CR -> strip_prefix blank (c :: s) = None.
Proof.
  intros H. change blank with (CR :: [LF; CR; LF]). now apply strip_prefix_not_head.
Qed.

(** A blank line is found at the end of a chunk without carriage return. *)
Lemma find_blank_cr_free (x : str) :
  cr_free x = true ->
  find blank x = None /\ forall rest, find blank (x ++ blank ++ rest) = Some (x, rest).
Proof.
  induction x as [|c x IH]; intros H.
  - split; [reflexivity|]. intros rest.
    change ([] ++ blank ++ rest) with (blank ++ rest).
    apply find_cons_prefix, strip_prefix_app.
  - apply cr_free_cons in H as [Hc Hx]. destruct (IH Hx) as [IH1 IH2]. split.
    + rewrite find_cons, (strip_prefix_blank_not_CR c x Hc). now rewrite IH1.
    + intros rest. change ((c :: x) ++ blank ++ rest) with (c :: (x ++ blank ++ rest)).
      rewrite find_cons, (strip_prefix_blank_not_CR c _ Hc). now rewrite IH2.
Qed.

Lemma join_cons_ne (sep x : str) (l : list str) :
  l <> [] -> join sep (x :: l) = x ++ sep ++ join sep l.
Proof. destruct l; [contradiction|reflexivity]. Qed.

Lemma join_head (sep : str) (c : char) (x : str) (l : list str) :
  join sep ((c :: x) :: l) = c :: join sep (x :: l).
Proof. destruct l; reflexivity. Qed.

Lemma line_ok_inv (l : str) :
  line_ok l = true -> exists c x, l = c :: x /\ c <> CR /\ cr_free l = true.
Proof.
  unfold line_ok. intros H. apply andb_prop in H as [H1 H2].
  destruct l as [|c x]; [discriminate|]. exists c, x.
  split; [reflexivity|]. split; [|assumption]. now apply cr_free_cons in H2.
Qed.

(** The search for a blank line passes over a line and its line break,
    when the next line starts with another character than a carriage
    return. *)
Lemma find_blank_skip_line (l : str) (c2 : char) (y a b : str) :
  cr_free l = true -> c2 <> CR ->
  find blank (c2 :: y) = Some (a, b) ->
  find blank (l ++ crlf ++ c2 :: y) = Some (l ++ crlf ++ a, b).
Proof.
  intros Hl Hc2 F. induction l as [|c l IH].
  - change ([] ++ crlf ++ c2 :: y) with (CR :: LF :: c2 :: y).
    rewrite find_cons. change blank with (CR :: LF :: CR :: [LF]).
    rewrite !strip_prefix_cons, !N.eqb_refl.
    destruct (N.eqb_spec c2 CR) as [|_]; [contradiction|].
    rewrite find_cons, strip_prefix_not_head by discriminate.
    change (CR :: LF :: CR :: [LF]) with blank. now rewrite F.
  - apply cr_free_cons in Hl as [Hc Hl].
    change ((c :: l) ++ crlf ++ c2 :: y) with (c :: (l ++ crlf ++ c2 :: y)).
    rewrite find_cons, (strip_prefix_blank_not_CR c _ Hc). now rewrite (IH Hl).
Qed.

(** The first blank line after a block is the one that ends it. *)
Lemma find_blank_block (ls : list str) (rest : str) :
  ls <> [] -> forallb line_ok ls = true ->
  find blank (join crlf ls ++ blank ++ rest) = Some (join crlf ls, rest).
Proof.
  induction ls as [|l ls IH]; [contradiction|]. intros _ H.
  simpl in H. apply andb_prop in H as [Hl Hls].
  destruct (line_ok_inv l Hl) as (c & x & -> & Hc & Hcr).
  destruct ls as [|l2 ls].
  - now apply find_blank_cr_free.
  - rewrite join_cons2, <- !app_assoc.
    pose proof Hls as Hls'. simpl in Hls'. apply andb_prop in Hls' as [Hl2 _].
    destruct (line_ok_inv l2 Hl2) as (c2 & x2 & -> & Hc2 & _).
    specialize (IH ltac:(discriminate) Hls).
    rewrite join_head in IH |- *.
    change ((c2 :: join crlf (x2 :: ls)) ++ blank ++ rest)
      with (c2 :: (join crlf (x2 :: ls) ++ blank ++ rest)) in IH |- *.
    now rewrite (find_blank_skip_line (c :: x) c2 _ _ _ Hcr Hc2 IH).
Qed.

Lemma blank_not_nil : blank <> [].
Proof. discriminate. Qed.

Lemma block_text_split (b : list str * str) (rest : str) :
  block_ok b = true ->
  find blank (block_text b ++ blank ++ rest) = Some (block_text b, rest).
Proof.
  destruct b as [ls u]. unfold block_ok, block_text. simpl fst. simpl snd.
  intros H. apply andb_prop in H as [H1 H2]. apply find_blank_block.
  - now destruct ls.
  - rewrite forallb_app. simpl. now rewrite H1, H2.
Qed.

(** Splitting the blocks and the footer on blank lines gives them back. *)
Lemma split_blocks_footer (blocks : list (list str * str)) (footer : str) :
  forallb block_ok blocks = true -> cr_free footer = true ->
  Py.split (join blank (List.map block_text blocks ++ [footer])) blank
  = List.map block_text blocks ++ [footer].
Proof.
  intros Hb Hf. induction blocks as [|b blocks IH].
  - simpl. rewrite split_eq by apply blank_not_nil.
    now rewrite (proj1 (find_blank_cr_free footer Hf)).
  - simpl in Hb. apply andb_prop in Hb as [Hb Hbs].
    cbn [List.map app]. rewrite join_cons_ne by now destruct (List.map block_text blocks).
    rewrite split_eq by apply blank_not_nil.
    rewrite (block_text_split b _ Hb). f_equal. now apply IH.
Qed.

(** Splitting the article section on blank lines and dropping the first
    and the last chunk gives the blocks. *)
Lemma split_article_section (header footer : str) (blocks : list (list str * str)) :
  cr_free header = true -> cr_free footer = true ->
  forallb block_ok blocks = true ->
  slice_1_m1 (Py.split (article_section header blocks footer) blank)
  = List.map block_text blocks.
Proof.
  intros Hh Hf Hb. unfold article_section.
  rewrite join_cons_ne by now destruct (List.map block_text blocks).
  rewrite split_eq by apply blank_not_nil.
  rewrite (proj2 (find_blank_cr_free header Hh)).
  rewrite (split_blocks_footer blocks footer Hb Hf).
  unfold slice_1_m1. simpl tl. apply removelast_last.
Qed.

Lemma is_delim_cases (d : str) :
  is_delim d = true -> d = py "===" \/ d = py "- - - ".
Proof.
  unfold is_delim. intros H. apply orb_prop in H as [H|H];
    apply str_eqb_eq in H; auto.
Qed.

Lemma mh_delim_here (d rest : str) :
  is_delim d = true -> Re.match_here re_delim false (d ++ rest) = Some rest.
Proof.
  intros H. rewrite mh_delim. destruct (is_delim_cases d H) as [->| ->]; reflexivity.
Qed.

Lemma strip_prefix_None_app (p x m : str) :
  strip_prefix p x = None -> length p <= length x -> strip_prefix p (x ++ m) = None.
Proof.
  revert x. induction p as [|a p IH]; intros x H L; [discriminate|].
  destruct x as [|c x]; [simpl in L; lia|].
  simpl app. rewrite strip_prefix_cons in H |- *.
  destruct (N.eqb c a); [|reflexivity]. apply IH; [assumption|simpl in L; lia].
Qed.

(** Whether a delimiter starts before another delimiter does not depend
    on what follows that one. *)
Lemma mh_delim_lookahead (u d rest : str) :
  is_delim d = true -> u <> [] ->
  Re.match_here re_delim false (u ++ d) = None ->
  Re.match_here re_delim false (u ++ d ++ rest) = None.
Proof.
  intros Hd Hu. rewrite !mh_delim.
  destruct (strip_prefix (py "===") (u ++ d)) eqn:E1; [discriminate|].
  intros E2. rewrite app_assoc.
  rewrite (strip_prefix_None_app _ _ rest E1).
  2:{ rewrite length_app. destruct (is_delim_cases d Hd) as [->| ->];
      destruct u; simpl; try contradiction; lia. }
  destruct (is_delim_cases d Hd) as [->| ->].
  - destruct u as [|a [|b [|c u]]]; [contradiction| | |].
    + change (([a] ++ py "===") ++ rest) with (a :: py "===" ++ rest).
      change (py "- - - ") with (45 :: 32 :: py "- - ")%N.
      rewrite strip_prefix_cons. destruct (N.eqb a 45); reflexivity.
    + change (([a; b] ++ py "===") ++ rest) with (a :: b :: py "===" ++ rest).
      change (py "- - - ") with (45 :: 32 :: py "- - ")%N.
      rewrite !strip_prefix_cons.
      destruct (N.eqb a 45); [|reflexivity]. destruct (N.eqb b 32); reflexivity.
    + apply strip_prefix_None_app; [assumption|].
      rewrite length_app. simpl. lia.
  - apply strip_prefix_None_app; [assumption|].
    rewrite length_app. destruct u; [contradiction|simpl; lia].
Qed.

(** The split up to the first delimiter. *)
Lemma re_split_delim_first (x d rest : str) :
  is_delim d = true -> no_delim_in_first (length x) (x ++ d) = true ->
  Re.split re_delim true (x ++ d ++ rest) = x :: d :: Re.split re_delim true rest.
Proof.
  intros Hd. induction x as [|c x IH]; intros H.
  - change ([] ++ d ++ rest) with (d ++ rest).
    rewrite (re_split_hit re_delim true (d ++ rest) rest progress_delim (mh_delim_here d rest Hd)).
    rewrite length_app, Nat.add_sub, firstn_app, Nat.sub_diag, firstn_all. simpl.
    now rewrite app_nil_r.
  - cbn [length no_delim_in_first] in H.
    destruct (Re.match_here re_delim false ((c :: x) ++ d)) eqn:E; [discriminate|].
    change ((c :: x) ++ d) with (c :: (x ++ d)) in H.
    pose proof (mh_delim_lookahead (c :: x) d rest Hd ltac:(discriminate) E) as M.
    change ((c :: x) ++ d ++ rest) with (c :: (x ++ d ++ rest)) in M |- *.
    rewrite (re_split_miss re_delim true c _ progress_delim M).
    now rewrite (IH H).
Qed.

(** The split of a text without delimiter. *)
Lemma re_split_delim_none (x : str) :
  no_delim_in_first (length x) x = true -> Re.split re_delim true x = [x].
Proof.
  induction x as [|c x IH]; intros H.
  - apply re_split_nil, progress_delim.
  - cbn [length no_delim_in_first] in H.
    destruct (Re.match_here re_delim false (c :: x)) eqn:E; [discriminate|].
    rewrite re_split_miss; [|apply progress_delim|assumption]. now rewrite (IH H).
Qed.

(** The fifth item of the split of a body built as [digest_body]. *)
Lemma digest_body_section (s0 d1 s2 d3 seg d5 more : str) :
  is_delim d1 = true -> is_delim d3 = true ->
  (d5 = [] /\ more = [] \/ is_delim d5 = true) ->
  no_delim_in_first (length s0) (s0 ++ d1) = true ->
  no_delim_in_first (length s2) (s2 ++ d3) = true ->
  no_delim_in_first (length seg) (seg ++ d5) = true ->
  nth_error (Re.split re_delim true (digest_body s0 d1 s2 d3 seg d5 more)) 4
  = Some seg.
Proof.
  intros H1 H3 H5 N0 N2 N4. unfold digest_body.
  rewrite (re_split_delim_first s0 d1 _ H1 N0).
  rewrite (re_split_delim_first s2 d3 _ H3 N2).
  destruct H5 as [[-> ->]|H5].
  - rewrite app_nil_r in N4 |- *. now rewrite (re_split_delim_none seg N4).
  - now rewrite (re_split_delim_first seg d5 _ H5 N4).
Qed.

Lemma map_result_block_fields (blocks : list (list str * str)) :
  forallb block_ok blocks = true ->
  map_result block_fields (List.map block_text blocks)
  = Ok (List.map (fun b => (strip (join0 (fst b)), strip (snd b))) blocks).
Proof.
  induction blocks as [|b blocks IH]; intros H; [reflexivity|].
  simpl in H. apply andb_prop in H as [Hb Hbs].
  cbn [List.map map_result]. rewrite (block_fields_lines b Hb). cbn [bind].
  now rewrite (IH Hbs).
Qed.

Lemma map_result_block_article (blocks : list (list str * str)) :
  forallb block_ok blocks = true ->
  map_result block_article (List.map block_text blocks)
  = Ok (List.map
          (fun b => {| body := strip (join0 (fst b));
                       url := canonicalize (strip (snd b)) |}) blocks).
Proof.
  induction blocks as [|b blocks IH]; intros H; [reflexivity|].
  simpl in H. apply andb_prop in H as [Hb Hbs].
  cbn [List.map map_result]. unfold block_article at 1.
  rewrite (block_fields_lines b Hb). cbn [bind fst snd].
  now rewrite (IH Hbs).
Qed.

(** C1. Extraction (lines 161-164) splits the body on the delimiters
    [===] and [- - - ], which stay in the split, takes item 4, splits it
    on blank lines, drops the first and the last chunk, and gives for
    every other chunk the trimmed last line as URL and the concatenation
    of the lines before it, trimmed, as summary. So a body built from [N]
    blocks in this layout (two sections closed by a delimiter each, then
    a header chunk, the blocks and a footer chunk joined by blank lines,
    then nothing or a delimiter and more text; lines not empty and
    without carriage return; no delimiter elsewhere) yields exactly [N]
    articles, with the fields of the blocks after trimming. *)
Theorem extraction_round_trip
  (s0 d1 s2 d3 header footer d5 more : str) (blocks : list (list str * str)) :
  is_delim d1 = true -> is_delim d3 = true ->
  (d5 = [] /\ more = [] \/ is_delim d5 = true) ->
  no_delim_in_first (length s0) (s0 ++ d1) = true ->
  no_delim_in_first (length s2) (s2 ++ d3) = true ->
  no_delim_in_first (length (article_section header blocks footer))
    (article_section header blocks footer ++ d5) = true ->
  cr_free header = true -> cr_free footer = true ->
  forallb block_ok blocks = true ->
  let email_body :=
    digest_body s0 d1 s2 d3 (article_section header blocks footer) d5 more in
  nth_error (Re.split re_delim true email_body) 4
    = Some (article_section header blocks footer)
  /\ article_blocks email_body = Ok (List.map block_text blocks)
  /\ extract_fields email_body
     = Ok (List.map (fun b => (strip (join0 (fst b)), strip (snd b))) blocks)
  /\ (exists l, extract_fields email_body = Ok l /\ length l = length blocks)
  /\ extract email_body
     = Ok (List.map
             (fun b => {| body := strip (join0 (fst b));
                          url := canonicalize (strip (snd b)) |}) blocks).
Proof.
  intros H1 H3 H5 N0 N2 N4 Hh Hf Hb email_body.
  pose proof (digest_body_section s0 d1 s2 d3 _ d5 more H1 H3 H5 N0 N2 N4) as E.
  fold email_body in E.
  assert (A : article_blocks email_body = Ok (List.map block_text blocks)).
  { unfold article_blocks. rewrite E. fold blank.
    now rewrite (split_article_section header footer blocks Hh Hf Hb). }
  assert (F : extract_fields email_body
              = Ok (List.map (fun b => (strip (join0 (fst b)), strip (snd b))) blocks)).
  { unfold extract_fields. rewrite A. cbn [bind]. now apply map_result_block_fields. }
  repeat split; try assumption.
  - eexists. split; [exact F|]. apply length_map.
  - unfold extract. rewrite A. cbn [bind]. now apply map_result_block_article.
Qed.

(** The theorem at [sample_body]. *)
Lemma extraction_round_trip_witness :
  extract_fields sample_body
  = Ok [(py "Title onea summary = of it",
         py "<https://www.google.com/url?rct=j&url=https://a.example/1&ct=ga&cd=x>");
        (py "Title two", py "<http://b.example/2>")].
Proof.
  pose proof (extraction_round_trip [] (py "===") (py " News - AWS ") (py "===")
                [] [] (py "- - - ") (py "- - - unsubscribe") sample_blocks) as H.
  destruct H as (_ & _ & H & _).
  - reflexivity.
  - reflexivity.
  - right. reflexivity.
  - reflexivity.
  - vm_compute. reflexivity.
  - vm_compute. reflexivity.
  - reflexivity.
  - reflexivity.
  - vm_compute. reflexivity.
  - unfold sample_body. rewrite H. vm_compute. reflexivity.
Defined.

(* ================================================================== *)
(** * Sorting by timestamp *)
(* ================================================================== *)

Section SortFacts.
Variables (A : Type) (key : A -> datetime).

Local Notation "'ins'" := (insert key dt_lt).
Local Notation "'srt'" := (sort_from key dt_lt).
Local Notation "'inst' x" := (instant (key x)) (at level 10, x at level 9).

Lemma dt_lt_same (a b : datetime) :
  is_naive a = is_naive b -> dt_lt a b = Ok (instant a <? instant b)%Z.
Proof. destruct a, b; simpl; intros H; try discriminate; reflexivity. Qed.

Lemma dt_lt_mixed (a b : datetime) :
  is_naive a <> is_naive b -> dt_lt a b = Raise TypeError.
Proof. destruct a, b; simpl; intros H; try reflexivity; contradiction. Qed.

Lemma dt_lt_Ok (a b : datetime) (c : bool) :
  dt_lt a b = Ok c -> is_naive a = is_naive b.
Proof. destruct a, b; simpl; intros H; try discriminate; reflexivity. Qed.

(** Inserting a key of the kind of the list. *)
Lemma insert_same_kind (k : bool) (x : A) (l : list A) :
  same_kind key k l -> is_naive (key x) = k ->
  exists r, ins x l = Ok r /\ Permutation (x :: l) r /\ same_kind key k r.
Proof.
  intros Hl Hx. induction Hl as [|y l Hy Hl IH].
  - exists [x]. repeat split; [apply Permutation_refl|now constructor].
  - simpl. rewrite dt_lt_same by congruence. cbn [bind].
    destruct (inst x <? inst y)%Z.
    + exists (x :: y :: l). repeat split; [apply Permutation_refl|].
      repeat constructor; assumption.
    + destruct IH as (r & E & P & S). rewrite E. cbn [bind].
      exists (y :: r). repeat split.
      * apply perm_trans with (y :: x :: l); [apply perm_swap|now apply perm_skip].
      * now constructor.
Qed.

(** Inserting a key of the other kind raises [TypeError]. *)
Lemma insert_other_kind (k : bool) (x : A) (l : list A) :
  l <> [] -> same_kind key k l -> is_naive (key x) <> k ->
  ins x l = Raise TypeError.
Proof.
  intros Hne Hl Hx. destruct Hl as [|y l Hy Hl]; [contradiction|].
  simpl. rewrite dt_lt_mixed by congruence. reflexivity.
Qed.

Lemma same_kind_perm (k : bool) (l l' : list A) :
  Permutation l l' -> same_kind key k l -> same_kind key k l'.
Proof. intros P H. unfold same_kind. now rewrite <- P. Qed.

(** The sort returns on keys of one kind. *)
Lemma sort_from_same_kind (k : bool) (l : list A) :
  forall sorted, same_kind key k (sorted ++ l) ->
  exists out, srt sorted l = Ok out /\ Permutation (sorted ++ l) out.
Proof.
  induction l as [|x l IH]; intros sorted H.
  - exists sorted. rewrite app_nil_r. split; [reflexivity|apply Permutation_refl].
  - apply Forall_app in H as [Hs Hl]. apply Forall_cons_iff in Hl as [Hx Hl'].
    destruct (insert_same_kind k x sorted Hs Hx) as (r & E & P & S).
    simpl. rewrite E. cbn [bind].
    destruct (IH r) as (out & E2 & P2).
    { apply Forall_app. now split. }
    exists out. split; [assumption|].
    apply perm_trans with (r ++ l); [|assumption].
    apply perm_trans with ((x :: sorted) ++ l).
    + apply Permutation_sym, Permutation_middle.
    + now apply Permutation_app_tail.
Qed.

(** The sort raises [TypeError] on keys of both kinds. *)
Lemma sort_from_mixed (l : list A) :
  forall sorted k, same_kind key k sorted ->
  (forall k', ~ same_kind key k' (sorted ++ l)) ->
  srt sorted l = Raise TypeError.
Proof.
  induction l as [|x l IH]; intros sorted k Hs Hm.
  - exfalso. apply (Hm k). now rewrite app_nil_r.
  - simpl. destruct sorted as [|y sorted].
    + simpl. apply (IH [x] (is_naive (key x))).
      * now repeat constructor.
      * exact Hm.
    + destruct (Bool.bool_dec (is_naive (key x)) k) as [Hx|Hx].
      * destruct (insert_same_kind k x (y :: sorted) Hs Hx) as (r & E & P & S).
        rewrite E. cbn [bind]. apply (IH r k S).
        intros k' H. apply (Hm k'). apply same_kind_perm with (r ++ l); [|assumption].
        apply perm_trans with ((x :: y :: sorted) ++ l).
        -- apply Permutation_app_tail, Permutation_sym, P.
        -- apply Permutation_middle.
      * rewrite (insert_other_kind k x (y :: sorted)); [reflexivity|discriminate|assumption|assumption].
Qed.

Lemma insert_sorted (k : bool) (x : A) (l r : list A) :
  same_kind key k l -> is_naive (key x) = k -> ascending key l ->
  ins x l = Ok r ->
  ascending key r /\ forall z, at_instant key z r = at_instant key z (l ++ [x]).
Proof.
  intros Hl Hx. revert r. induction Hl as [|y l Hy Hl IH]; intros r Hs E.
  - injection E as <-. split; [repeat constructor|reflexivity].
  - simpl in E. rewrite dt_lt_same in E by congruence. cbn [bind] in E.
    apply StronglySorted_inv in Hs as [Hs Hy'].
    destruct (inst x <? inst y)%Z eqn:C.
    + injection E as <-. apply Z.ltb_lt in C. split.
      * constructor; [now constructor|]. constructor; [lia|].
        apply Forall_forall. intros w Hw.
        apply (proj1 (Forall_forall _ _) Hy') in Hw. lia.
      * intros z. unfold at_instant. rewrite filter_app. simpl.
        destruct (Z.eqb_spec (inst x) z) as [Ez|Ez]; [|now rewrite app_nil_r].
        destruct (Z.eqb_spec (inst y) z) as [Ey|Ey]; [lia|].
        replace (filter (fun w => (inst w =? z)%Z) l) with (@nil A); [reflexivity|].
        symmetry. apply filter_none. intros w Hw.
        apply (proj1 (Forall_forall _ _) Hy') in Hw.
        apply Z.eqb_neq. lia.
    + destruct (ins x l) as [r'|] eqn:E'; [|discriminate]. cbn [bind] in E.
      injection E as <-. destruct (IH r' Hs eq_refl) as [S1 S2]. split.
      * constructor; [assumption|].
        destruct (insert_same_kind k x l Hl Hx) as (r'' & E'' & P & _).
        rewrite E' in E''. injection E'' as <-.
        rewrite <- P. constructor; [|assumption]. apply Z.ltb_ge in C. lia.
      * intros z. unfold at_instant in *. simpl. rewrite S2.
        now destruct (inst y =? z)%Z.
Qed.

Lemma sort_from_sorted (k : bool) (l : list A) :
  forall sorted out, same_kind key k (sorted ++ l) -> ascending key sorted ->
  srt sorted l = Ok out ->
  ascending key out /\ forall z, at_instant key z out = at_instant key z (sorted ++ l).
Proof.
  induction l as [|x l IH]; intros sorted out H Hs E.
  - injection E as <-. rewrite app_nil_r. now split.
  - apply Forall_app in H as [H1 H2]. apply Forall_cons_iff in H2 as [Hx Hl].
    simpl in E. destruct (ins x sorted) as [r|] eqn:E1; [|discriminate].
    cbn [bind] in E.
    destruct (insert_sorted k x sorted r H1 Hx Hs E1) as [S1 S2].
    destruct (insert_same_kind k x sorted H1 Hx) as (r' & E1' & _ & K).
    rewrite E1 in E1'. injection E1' as <-.
    destruct (IH r out) as [S3 S4]; [apply Forall_app; now split|assumption|assumption|].
    split; [assumption|]. intros z. rewrite S4. unfold at_instant in *.
    rewrite !filter_app, S2, filter_app. simpl.
    destruct (inst x =? z)%Z; now rewrite <- app_assoc.
Qed.

Lemma StronglySorted_snoc (R : A -> A -> Prop) (l : list A) (a : A) :
  StronglySorted R l -> Forall (fun x => R x a) l -> StronglySorted R (l ++ [a]).
Proof.
  induction 1 as [|b l Hl IH Hb]; intros H; simpl.
  - repeat constructor.
  - apply Forall_cons_iff in H as [Hba H]. constructor; [now apply IH|].
    apply Forall_app. split; [assumption|now repeat constructor].
Qed.

Lemma ascending_rev (l : list A) : ascending key l -> descending key (rev l).
Proof.
  induction 1 as [|a l Hl IH Ha]; simpl; [constructor|].
  apply StronglySorted_snoc; [assumption|].
  apply Forall_rev. exact Ha.
Qed.

Lemma at_instant_rev (z : Z) (l : list A) :
  at_instant key z (rev l) = rev (at_instant key z l).
Proof.
  unfold at_instant. induction l as [|a l IH]; simpl; [reflexivity|].
  rewrite filter_app, IH. simpl. now destruct (inst a =? z)%Z; simpl; rewrite ?app_nil_r.
Qed.

(** [list.sort(key=..., reverse=True)] on keys of one kind: it returns a
    permutation, in descending order, in which the items of equal keys
    keep their order. *)
Lemma list_sort_reverse_same_kind (k : bool) (l : list A) :
  same_kind key k l ->
  exists out, list_sort key dt_lt true l = Ok out
    /\ Permutation l out /\ descending key out
    /\ forall z, at_instant key z out = at_instant key z l.
Proof.
  intros H. unfold list_sort.
  assert (Hr : same_kind key k ([] ++ rev l)).
  { apply same_kind_perm with l; [apply Permutation_rev|assumption]. }
  destruct (sort_from_same_kind k (rev l) [] Hr) as (s & E & P).
  destruct (sort_from_sorted k (rev l) [] s Hr ltac:(constructor) E) as [S1 S2].
  rewrite E. cbn [bind]. exists (rev s). repeat split.
  - apply perm_trans with (rev l); [apply Permutation_rev|].
    apply perm_trans with s; [exact P|apply Permutation_rev].
  - now apply ascending_rev.
  - intros z. rewrite at_instant_rev, S2. simpl app.
    now rewrite at_instant_rev, rev_involutive.
Qed.

(** On keys of both kinds it raises [TypeError]. *)
Lemma list_sort_reverse_mixed (l : list A) (a b : A) :
  List.In a l -> List.In b l -> is_naive (key a) <> is_naive (key b) ->
  list_sort key dt_lt true l = Raise TypeError.
Proof.
  intros Ha Hb Hab. unfold list_sort.
  rewrite (sort_from_mixed (rev l) [] true); [reflexivity|constructor|].
  intros k H. simpl in H. unfold same_kind in H. rewrite Forall_forall in H.
  apply Hab. rewrite (H a), (H b); [reflexivity| |]; now apply -> in_rev.
Qed.

Lemma same_kind_dec (k : bool) (l : list A) :
  {same_kind key k l} + {~ same_kind key k l}.
Proof. apply Forall_dec. intros x. apply Bool.bool_dec. Qed.

(** When it returns, the keys were of one kind. *)
Lemma list_sort_reverse_Ok (l out : list A) :
  list_sort key dt_lt true l = Ok out -> exists k, same_kind key k l.
Proof.
  intros E. destruct (same_kind_dec true l) as [H|Ht]; [now exists true|].
  destruct (same_kind_dec false l) as [H|Hf]; [now exists false|].
  exfalso. unfold list_sort in E.
  rewrite (sort_from_mixed (rev l) [] true) in E; [discriminate|constructor|].
  intros [|] H; [apply Ht|apply Hf];
    (apply same_kind_perm with (rev l); [apply Permutation_sym, Permutation_rev|exact H]).
Qed.
End SortFacts.

(* ================================================================== *)
(** * Mail retrieval *)
(* ================================================================== *)

Section RetrievalFacts.
Variable strptime : str -> str -> result datetime.
Variable b64_utf8 : str -> result str.
Variable now : nat -> Z.

Lemma header_value_missing (hs : list Gmail.header) (n default : str) :
  (forall h, List.In h hs -> Gmail.name h <> n) ->
  Gmail.header_value hs n default = default.
Proof.
  induction hs as [|h hs IH]; intros H; simpl; [reflexivity|].
  destruct (str_eqb (Gmail.name h) n) eqn:E.
  - apply str_eqb_eq in E. exfalso. apply (H h); [now left|assumption].
  - apply IH. intros h' Hh'. apply H. now right.
Qed.

Lemma first_plain_none (ps : list Gmail.part) :
  (forall p, List.In p ps -> Gmail.mimeType p <> py "text/plain") ->
  Gmail.first_plain b64_utf8 ps = Ok [].
Proof.
  induction ps as [|p ps IH]; intros H; simpl; [reflexivity|].
  destruct (str_eqb (Gmail.mimeType p) (py "text/plain")) eqn:E.
  - apply str_eqb_eq in E. exfalso. apply (H p); [now left|assumption].
  - apply IH. intros q Hq. apply H. now right.
Qed.

Lemma first_plain_first (ps1 ps2 : list Gmail.part) (p : Gmail.part) (d : str) :
  (forall q, List.In q ps1 -> Gmail.mimeType q <> py "text/plain") ->
  Gmail.mimeType p = py "text/plain" -> Gmail.data (Gmail.part_body p) = Some d ->
  Gmail.first_plain b64_utf8 (ps1 ++ p :: ps2) = b64_utf8 d.
Proof.
  intros H Hp Hd. induction ps1 as [|q ps1 IH]; simpl.
  - now rewrite Hp, str_eqb_refl, Hd.
  - destruct (str_eqb (Gmail.mimeType q) (py "text/plain")) eqn:E.
    + apply str_eqb_eq in E. exfalso. apply (H q); [now left|assumption].
    + apply IH. intros q' Hq'. apply H. now right.
Qed.

Lemma get_emails_sort (messages : list Gmail.message) (email_list : list Gmail.email) :
  Gmail.for_messages strptime b64_utf8 now 0 messages = Ok email_list ->
  Gmail.get_emails_by_subject strptime b64_utf8 now messages
  = list_sort Gmail.date dt_lt true email_list.
Proof.
  intros E. unfold Gmail.get_emails_by_subject. destruct messages as [|m ms].
  - simpl in E. injection E as <-. reflexivity.
  - now rewrite E.
Qed.

(** When no format parses, the date is the wall clock, a naive value. *)
Lemma normalize_date_fallback (i : nat) (date_str : str) :
  (forall fmt, List.In fmt Gmail.date_formats ->
     strptime (strip (Re.sub re_paren [] date_str)) fmt = Raise ValueError) ->
  Gmail.normalize_date strptime now i date_str = Naive (now i).
Proof.
  intros H. unfold Gmail.normalize_date.
  assert (E : Gmail.try_formats strptime Gmail.date_formats
                (strip (Re.sub re_paren [] date_str)) = Ok None).
  { induction Gmail.date_formats as [|fmt fmts IH]; simpl; [reflexivity|].
    rewrite (H fmt) by now left. apply IH. intros f Hf. apply H. now right. }
  now rewrite E.
Qed.

End RetrievalFacts.

(** C6. The message-retrieval operation returns its messages sorted by
    the normalized timestamp in descending order, and messages with
    equal timestamps keep the order the provider returned them in: what
    it returns is a permutation of the messages read, in descending
    order of the instants, and for every instant the messages at that
    instant are in their original order. It returns whenever the
    timestamps are all naive or all aware. *)
Theorem retrieval_sorted_descending_stable
  (strptime : str -> str -> result datetime) (b64_utf8 : str -> result str)
  (now : nat -> Z) (messages : list Gmail.message) (email_list : list Gmail.email) :
  Gmail.for_messages strptime b64_utf8 now 0 messages = Ok email_list ->
  (forall out,
     Gmail.get_emails_by_subject strptime b64_utf8 now messages = Ok out ->
     Permutation email_list out
     /\ descending Gmail.date out
     /\ forall z, at_instant Gmail.date z out = at_instant Gmail.date z email_list)
  /\ ((exists k, same_kind Gmail.date k email_list) ->
      exists out, Gmail.get_emails_by_subject strptime b64_utf8 now messages = Ok out).
Proof.
  intros E. rewrite (get_emails_sort strptime b64_utf8 now messages email_list E).
  split.
  - intros out H. destruct (list_sort_reverse_Ok _ Gmail.date _ _ H) as [k Hk].
    destruct (list_sort_reverse_same_kind _ Gmail.date k email_list Hk)
      as (out' & E' & P & D & S).
    rewrite H in E'. injection E' as <-. now repeat split.
  - intros [k Hk].
    destruct (list_sort_reverse_same_kind _ Gmail.date k email_list Hk)
      as (out & E' & _). now exists out.
Qed.

(** The theorem at two messages with parsed dates: the later one comes
    first. *)
Lemma retrieval_sorted_descending_stable_witness :
  exists out,
    Gmail.get_emails_by_subject sample_strptime Ok sample_now [sample_m1; sample_m2]
    = Ok out
    /\ List.map Gmail.id out = [py "m2"; py "m1"]
    /\ descending Gmail.date out.
Proof.
  destruct (Gmail.for_messages sample_strptime Ok sample_now 0 [sample_m1; sample_m2])
    as [el|] eqn:E; [|vm_compute in E; discriminate E].
  destruct (retrieval_sorted_descending_stable _ _ _ _ el E) as [H1 H2].
  destruct H2 as [out Hout].
  { exists false. vm_compute in E. injection E as <-. repeat constructor. }
  exists out. split; [exact Hout|].
  destruct (H1 out Hout) as (_ & D & _). split; [|exact D].
  vm_compute in Hout. injection Hout as <-. reflexivity.
Defined.

(** C5, where the program departs from it. Date normalization itself
    always returns a timestamp, and falls back to the wall clock when no
    format parses; but that fallback is a naive [datetime], while every
    parsed date is aware (all formats hold [%z]). When the list of
    messages holds a timestamp of each kind, the sort of line 138 raises
    [TypeError] and the run aborts. *)
Theorem fallback_timestamp_aborts_sort
  (strptime : str -> str -> result datetime) (b64_utf8 : str -> result str)
  (now : nat -> Z) (messages : list Gmail.message) (email_list : list Gmail.email)
  (e1 e2 : Gmail.email) :
  Gmail.for_messages strptime b64_utf8 now 0 messages = Ok email_list ->
  List.In e1 email_list -> List.In e2 email_list ->
  is_naive (Gmail.date e1) = true -> is_naive (Gmail.date e2) = false ->
  Gmail.get_emails_by_subject strptime b64_utf8 now messages = Raise TypeError
  /\ main_articles strptime b64_utf8 now messages = Raise TypeError
  /\ (forall i date_str,
        (forall fmt, List.In fmt Gmail.date_formats ->
           strptime (strip (Re.sub re_paren [] date_str)) fmt = Raise ValueError) ->
        Gmail.normalize_date strptime now i date_str = Naive (now i)).
Proof.
  intros E H1 H2 K1 K2.
  assert (R : Gmail.get_emails_by_subject strptime b64_utf8 now messages
              = Raise TypeError).
  { rewrite (get_emails_sort strptime b64_utf8 now messages email_list E).
    apply (list_sort_reverse_mixed _ Gmail.date email_list e1 e2 H1 H2). congruence. }
  split; [exact R|]. split.
  - unfold main_articles. now rewrite R.
  - apply normalize_date_fallback.
Qed.

(** The theorem at a message with a parsed date and one without [Date]
    header. *)
Lemma fallback_timestamp_aborts_sort_witness :
  Gmail.get_emails_by_subject sample_strptime Ok sample_now [sample_m1; sample_m3]
  = Raise TypeError.
Proof.
  destruct (Gmail.for_messages sample_strptime Ok sample_now 0 [sample_m1; sample_m3])
    as [el|] eqn:E; [|vm_compute in E; discriminate E].
  pose proof E as E'. vm_compute in E'. injection E' as E'.
  refine (proj1 (fallback_timestamp_aborts_sort _ _ _ _ el
                   (nth 1 el (nth 0 el (Gmail.Build_email [] [] [] (Naive 0) [])))
                   (nth 0 el (Gmail.Build_email [] [] [] (Naive 0) []))
                   E _ _ _ _)); rewrite <- E'; vm_compute; auto.
Defined.

(** C7, as the program has it. For every retrieved message: when the
    payload has a [parts] list, the body is the decoded data of its first
    [text/plain] part, and the empty string when no part is
    [text/plain], whatever the top-level body holds; when the payload
    has no [parts] list, the body is the decoded top-level body data
    when present, and the empty string otherwise. Missing [Subject],
    [From] and [Date] headers default to ["No Subject"], ["Unknown"] and
    the empty string. *)
Theorem email_body_and_header_defaults
  (strptime : str -> str -> result datetime) (b64_utf8 : str -> result str)
  (now : nat -> Z) (i : nat) (m : Gmail.message) (e : Gmail.email) :
  Gmail.email_of strptime b64_utf8 now i m = Ok e ->
  let pl := Gmail.msg_payload m in
  let missing n := forall h, List.In h (Gmail.headers pl) -> Gmail.name h <> n in
  let plain p := Gmail.mimeType p = py "text/plain" in
  (forall ps1 p ps2 d,
     Gmail.parts pl = Some (ps1 ++ p :: ps2) ->
     (forall q, List.In q ps1 -> ~ plain q) -> plain p ->
     Gmail.data (Gmail.part_body p) = Some d ->
     b64_utf8 d = Ok (Gmail.body e))
  /\ (forall ps,
        Gmail.parts pl = Some ps -> (forall q, List.In q ps -> ~ plain q) ->
        Gmail.body e = [])
  /\ (forall b d,
        Gmail.parts pl = None -> Gmail.payload_body pl = Some b ->
        Gmail.data b = Some d -> b64_utf8 d = Ok (Gmail.body e))
  /\ (Gmail.parts pl = None ->
      (Gmail.payload_body pl = None
       \/ exists b, Gmail.payload_body pl = Some b /\ Gmail.data b = None) ->
      Gmail.body e = [])
  /\ (missing (py "Subject") -> Gmail.subject e = py "No Subject")
  /\ (missing (py "From") -> Gmail.sender e = py "Unknown")
  /\ (missing (py "Date") ->
      Gmail.date e = Gmail.normalize_date strptime now i []).
Proof.
  intros E pl missing plain. unfold Gmail.email_of in E. fold pl in E.
  destruct (Gmail.message_body b64_utf8 pl) as [bd|] eqn:B; [|discriminate].
  cbn [bind] in E. injection E as <-. cbn [Gmail.body Gmail.subject Gmail.sender Gmail.date].
  unfold Gmail.message_body in B.
  repeat split.
  - intros ps1 p ps2 d Hp H1 H2 H3. rewrite Hp in B.
    now rewrite (first_plain_first b64_utf8 ps1 ps2 p d H1 H2 H3) in B.
  - intros ps Hp H. rewrite Hp in B.
    rewrite (first_plain_none b64_utf8 ps H) in B. now injection B.
  - intros b d Hp Hb Hd. now rewrite Hp, Hb, Hd in B.
  - intros Hp [Hb|(b & Hb & Hd)]; rewrite Hp, Hb in B; [|rewrite Hd in B];
      now injection B.
  - intros H. now apply header_value_missing.
  - intros H. now apply header_value_missing.
  - intros H. now rewrite (header_value_missing (Gmail.headers pl) (py "Date") [] H).
Qed.

(** The theorem at a message with [html_only_payload] and no header. *)
Lemma email_body_and_header_defaults_witness :
  exists e,
    Gmail.email_of sample_strptime Ok sample_now 0
      {| Gmail.msg_id := py "m"; Gmail.msg_payload := html_only_payload |} = Ok e
    /\ Gmail.body e = []
    /\ Gmail.subject e = py "No Subject"
    /\ Gmail.sender e = py "Unknown".
Proof.
  destruct (Gmail.email_of sample_strptime Ok sample_now 0
              {| Gmail.msg_id := py "m"; Gmail.msg_payload := html_only_payload |})
    as [e|] eqn:E; [|vm_compute in E; discriminate E].
  exists e. split; [reflexivity|].
  destruct (email_body_and_header_defaults _ _ _ _ _ e E)
    as (_ & H2 & _ & _ & H5 & H6 & _).
  split; [|split].
  - apply (H2 _ eq_refl). intros q [<-|[]]. vm_compute. discriminate.
  - apply H5. intros h [].
  - apply H6. intros h [].
Defined.

(** C7, as the specification words it ("a multi-part message with no
    [text/plain] part but with top-level body data still yields the
    top-level body"), fails: the program yields the empty string. *)
Lemma html_only_body_is_empty :
  Gmail.message_body Ok html_only_payload = Ok []
  /\ spec_message_body Ok html_only_payload = Ok (py "top")
  /\ Gmail.message_body Ok html_only_payload <> spec_message_body Ok html_only_payload.
Proof. repeat split. discriminate. Qed.

(* ================================================================== *)
(** * The calendar *)
(* ================================================================== *)

Section CalendarFacts.
Import Cal.
Local Open Scope Z_scope.

Lemma days_before_year_cycle (a b c e : Z) :
  0 <= a -> 0 <= b <= 3 -> 0 <= c <= 24 -> 0 <= e <= 3 ->
  days_before_year (400 * a + 100 * b + 4 * c + e + 1)
  = 146097 * a + 36524 * b + 1461 * c + 365 * e.
Proof.
  intros Ha Hb Hc He. unfold days_before_year.
  replace (400 * a + 100 * b + 4 * c + e + 1 - 1) with (400 * a + 100 * b + 4 * c + e) by lia.
  Z.div_mod_to_equations. lia.
Qed.

Lemma is_leap_cycle (a b c e : Z) :
  0 <= a -> 0 <= b <= 3 -> 0 <= c <= 24 -> 0 <= e <= 3 ->
  is_leap (400 * a + 100 * b + 4 * c + e + 1)
  = (e =? 3) && (negb (c =? 24) || (b =? 3)).
Proof.
  intros Ha Hb Hc He. unfold is_leap.
  destruct (Z.eqb_spec e 3) as [E|E]; destruct (Z.eqb_spec c 24) as [C|C];
    destruct (Z.eqb_spec b 3) as [B|B]; cbn [andb orb negb];
    repeat match goal with
      | |- context [?x mod ?k =? 0] =>
          let H := fresh "M" in destruct (Z.eqb_spec (x mod k) 0) as [H|H]
      end; cbn [andb orb negb]; try reflexivity; exfalso;
    Z.div_mod_to_equations; lia.
Qed.

Lemma month_day_range (leapyear : bool) (r : Z) :
  0 <= r < 365 -> month_day_check leapyear r = true.
Proof.
  intros Hr.
  assert (A : forallb (fun k => month_day_check true (Z.of_nat k)
                                && month_day_check false (Z.of_nat k))
                (seq 0 365) = true) by (vm_compute; reflexivity).
  rewrite forallb_forall in A. specialize (A (Z.to_nat r)).
  rewrite Z2Nat.id in A by lia. rewrite in_seq in A.
  specialize (A ltac:(lia)). apply andb_prop in A as [A1 A2].
  now destruct leapyear.
Qed.

Lemma valid_intro (y m d : Z) :
  1 <= y <= 9999 -> 1 <= m <= 12 -> 1 <= d ->
  d <= (if (m =? 2) && is_leap y then 29 else nth (Z.to_nat (m - 1)) DAYS_IN_MONTH 0) ->
  valid {| year := y; month := m; day := d |} = true.
Proof.
  intros Hy Hm Hd1 Hd2. unfold valid, days_in_month, MINYEAR, MAXYEAR. cbn [year month day].
  repeat (apply andb_true_intro; split); apply Z.leb_le; lia.
Qed.

Lemma december_31 (y : Z) :
  31 <= (if (12 =? 2) && is_leap y then 29 else nth (Z.to_nat (12 - 1)) DAYS_IN_MONTH 0)
  /\ days_before_month y 12 = 334 + (if is_leap y then 1 else 0).
Proof. split; [apply Z.le_refl|reflexivity]. Qed.

(** [_ord2ymd] returns a date of the calendar, and [_ymd2ord] is its
    inverse, on the ordinals of [date.min .. date.max]. *)
Lemma ord2ymd_round_trip (n : Z) :
  1 <= n <= MAXORDINAL ->
  valid (ord2ymd n) = true /\ ymd2ord (ord2ymd n) = n.
Proof.
  unfold MAXORDINAL. intros Hn.
  set (n0 := n - 1).
  set (a := n0 / 146097). set (r1 := n0 mod 146097).
  set (b := r1 / 36524). set (r2 := r1 mod 36524).
  set (c := r2 / 1461). set (r3 := r2 mod 1461).
  set (e := r3 / 365). set (r := r3 mod 365).
  assert (U : ord2ymd n =
    if (e =? 4) || (b =? 4)
    then {| year := a * 400 + 1 + b * 100 + c * 4 + e - 1; month := 12; day := 31 |}
    else
      let md := month_day ((e =? 3) && (negb (c =? 24) || (b =? 3))) r in
      {| year := a * 400 + 1 + b * 100 + c * 4 + e; month := fst md; day := snd md |})
    by reflexivity.
  assert (E0 : n0 = n - 1) by reflexivity.
  assert (E1 : n0 = 146097 * a + r1 /\ 0 <= r1 < 146097)
    by (split; [apply Z.div_mod|apply Z.mod_pos_bound]; lia).
  assert (E2 : r1 = 36524 * b + r2 /\ 0 <= r2 < 36524)
    by (split; [apply Z.div_mod|apply Z.mod_pos_bound]; lia).
  assert (E3 : r2 = 1461 * c + r3 /\ 0 <= r3 < 1461)
    by (split; [apply Z.div_mod|apply Z.mod_pos_bound]; lia).
  assert (E4 : r3 = 365 * e + r /\ 0 <= r < 365)
    by (split; [apply Z.div_mod|apply Z.mod_pos_bound]; lia).
  assert (Ba : 0 <= a) by (apply Z.div_pos; lia).
  assert (Bb : 0 <= b) by (apply Z.div_pos; lia).
  assert (Bc : 0 <= c) by (apply Z.div_pos; lia).
  assert (Be : 0 <= e) by (apply Z.div_pos; lia).
  clearbody n0 a r1 b r2 c r3 e r.
  destruct E1 as [E1 B1], E2 as [E2 B2], E3 as [E3 B3], E4 as [E4 B4].
  rewrite U. clear U.
  destruct (Z.eqb_spec e 4) as [He|He]; [|destruct (Z.eqb_spec b 4) as [Hb|Hb]];
    cbn [orb].
  - (* the last day of a leap year *)
    assert (Hb : b <= 3) by lia. assert (Hc : c <= 23) by lia.
    replace (a * 400 + 1 + b * 100 + c * 4 + e - 1)
      with (400 * a + 100 * b + 4 * c + 3 + 1) by lia.
    pose proof (days_before_year_cycle a b c 3 ltac:(lia) ltac:(lia) ltac:(lia) ltac:(lia)) as D.
    pose proof (is_leap_cycle a b c 3 ltac:(lia) ltac:(lia) ltac:(lia) ltac:(lia)) as L.
    replace ((3 =? 3) && (negb (c =? 24) || (b =? 3))) with true in L
      by (destruct (Z.eqb_spec c 24); [lia|reflexivity]).
    split.
    + apply valid_intro; try lia. apply december_31.
    + unfold ymd2ord. cbn [year month day].
      rewrite D, (proj2 (december_31 _)), L. lia.
  - (* the last day of a cycle of 400 years *)
    replace (a * 400 + 1 + b * 100 + c * 4 + e - 1)
      with (400 * a + 100 * 3 + 4 * 24 + 3 + 1) by lia.
    pose proof (days_before_year_cycle a 3 24 3 ltac:(lia) ltac:(lia) ltac:(lia) ltac:(lia)) as D.
    pose proof (is_leap_cycle a 3 24 3 ltac:(lia) ltac:(lia) ltac:(lia) ltac:(lia)) as L.
    change ((3 =? 3) && (negb (24 =? 24) || (3 =? 3))) with true in L. split.
    + apply valid_intro; try lia. apply december_31.
    + unfold ymd2ord. cbn [year month day].
      rewrite D, (proj2 (december_31 _)), L. lia.
  - assert (Hb3 : b <= 3) by lia. assert (Hc : c <= 24) by lia.
    assert (He3 : e <= 3) by lia.
    replace (a * 400 + 1 + b * 100 + c * 4 + e)
      with (400 * a + 100 * b + 4 * c + e + 1) by lia.
    pose proof (days_before_year_cycle a b c e ltac:(lia) ltac:(lia) ltac:(lia) ltac:(lia)) as D.
    pose proof (is_leap_cycle a b c e ltac:(lia) ltac:(lia) ltac:(lia) ltac:(lia)) as L.
    pose proof (month_day_range ((e =? 3) && (negb (c =? 24) || (b =? 3))) r B4) as M.
    unfold month_day_check in M. cbv zeta in M |- *.
    rewrite <- L in M |- *.
    set (md := month_day (is_leap (400 * a + 100 * b + 4 * c + e + 1)) r) in *.
    clearbody md.
    repeat (apply andb_prop in M; destruct M as [M ?]).
    repeat match goal with
      | H : (_ <=? _) = true |- _ => apply Z.leb_le in H
      | H : (_ =? _) = true |- _ => apply Z.eqb_eq in H
      end.
    split.
    + apply valid_intro; lia.
    + unfold ymd2ord, days_before_month. cbn [year month day]. rewrite D. lia.
Qed.

Lemma ymd2ord_positive (d : date) : valid d = true -> 1 <= ymd2ord d.
Proof.
  unfold valid, ymd2ord, days_before_year, days_before_month, MINYEAR.
  intros H. repeat (apply andb_prop in H; destruct H as [H ?]).
  repeat match goal with
    | H : (_ <=? _) = true |- _ => apply Z.leb_le in H
    end.
  assert (0 <= nth (Z.to_nat (month d - 1)) DAYS_BEFORE_MONTH 0).
  { destruct (Z.to_nat (month d - 1)) as [|[|[|[|[|[|[|[|[|[|[|[|k]]]]]]]]]]]];
      simpl; try lia. destruct k; lia. }
  set (leap_day := if (2 <? month d) && is_leap (year d) then 1 else 0).
  assert (0 <= leap_day)
    by (unfold leap_day; destruct ((2 <? month d) && is_leap (year d)); lia).
  clearbody leap_day. Z.div_mod_to_equations. lia.
Qed.

(** The ordinals of a year lie after the days before it and within its
    365 or 366 days. *)
Lemma ymd2ord_in_year (d : date) :
  valid d = true ->
  days_before_year (year d) + 1 <= ymd2ord d <= days_before_year (year d + 1).
Proof.
  unfold valid, ymd2ord, days_before_month, days_in_month, MINYEAR, MAXYEAR.
  intros H. repeat (apply andb_prop in H; destruct H as [H ?]).
  repeat match goal with
    | H : (_ <=? _) = true |- _ => apply Z.leb_le in H
    end.
  assert (Y : days_before_year (year d + 1)
              = days_before_year (year d) + 365 + (if is_leap (year d) then 1 else 0)).
  { unfold days_before_year, is_leap.
    replace (year d + 1 - 1) with (year d - 1 + 1) by lia.
    repeat match goal with
      | |- context [?x mod ?k =? 0] =>
          let M := fresh "M" in destruct (Z.eqb_spec (x mod k) 0) as [M|M]
      end; cbn [andb orb negb]; Z.div_mod_to_equations; lia. }
  rewrite Y. clear Y.
  set (B := days_before_year (year d)). clearbody B.
  set (leap := is_leap (year d)) in *. clearbody leap.
  set (m := month d) in *. set (k := day d) in *. clearbody m k.
  assert (M : m = 1 \/ m = 2 \/ m = 3 \/ m = 4 \/ m = 5 \/ m = 6 \/ m = 7
              \/ m = 8 \/ m = 9 \/ m = 10 \/ m = 11 \/ m = 12) by lia.
  destruct leap; destruct M as [M|[M|[M|[M|[M|[M|[M|[M|[M|[M|[M|M]]]]]]]]]]];
    subst m; simpl in *; lia.
Qed.

Lemma days_before_year_le (y y' : Z) :
  y <= y' -> days_before_year y <= days_before_year y'.
Proof. unfold days_before_year. intros H. Z.div_mod_to_equations. lia. Qed.

(** A later date of the calendar is in the same year or in a later one. *)
Lemma year_le (d d' : date) :
  valid d = true -> valid d' = true -> ymd2ord d <= ymd2ord d' -> year d <= year d'.
Proof.
  intros V V' H. destruct (Z.le_gt_cases (year d) (year d')) as [L|L]; [assumption|].
  pose proof (ymd2ord_in_year d V) as [B _].
  pose proof (ymd2ord_in_year d' V') as [_ B'].
  pose proof (days_before_year_le (year d' + 1) (year d) ltac:(lia)). lia.
Qed.

(** Adding days within the range of [datetime] moves the ordinal by that
    many days and gives a date of the calendar. *)
Lemma add_days_ordinal (d : date) (k : Z) :
  valid d = true -> 0 <= k -> ymd2ord d + k <= MAXORDINAL ->
  exists d', add_days d k = Ok d' /\ valid d' = true /\ ymd2ord d' = ymd2ord d + k.
Proof.
  intros Hv Hk Hmax. pose proof (ymd2ord_positive d Hv) as Hpos.
  unfold add_days.
  destruct (Z.ltb_spec 0 (ymd2ord d + k)); [|lia].
  destruct (Z.leb_spec (ymd2ord d + k) MAXORDINAL); [|lia]. cbn [andb].
  exists (ord2ymd (ymd2ord d + k)). split; [reflexivity|].
  apply ord2ymd_round_trip. lia.
Qed.

(** Beyond [date.max] the addition raises [OverflowError]. *)
Lemma add_days_overflow (d : date) (k : Z) :
  MAXORDINAL < ymd2ord d + k -> add_days d k = Raise OverflowError.
Proof.
  intros H. unfold add_days.
  destruct (Z.leb_spec (ymd2ord d + k) MAXORDINAL); [lia|].
  now rewrite andb_false_r.
Qed.
End CalendarFacts.

(* ================================================================== *)
(** * The digest window *)
(* ================================================================== *)

Section WindowFacts.
Import Cal.

Lemma digit_is_digit (n : Z) : is_digit (digit n) = true.
Proof.
  unfold is_digit, digit. pose proof (Z.mod_pos_bound n 10 ltac:(lia)) as B.
  apply andb_true_intro. split; apply N.leb_le; lia.
Qed.

Lemma zpad_digits (w : nat) : forall n, forallb is_digit (zpad w n) = true.
Proof.
  induction w as [|w IH]; intros n; simpl; [reflexivity|].
  rewrite forallb_app, IH. simpl. now rewrite digit_is_digit.
Qed.

Lemma zpad_length (w : nat) : forall n, length (zpad w n) = w.
Proof.
  induction w as [|w IH]; intros n; simpl; [reflexivity|].
  rewrite length_app, IH. simpl. lia.
Qed.

Lemma decimal_value_snoc (s : str) (c : char) :
  decimal_value (s ++ [c]) = (10 * decimal_value s + (Z.of_N c - 48))%Z.
Proof. unfold decimal_value. now rewrite fold_left_app. Qed.

(** The digits of [zpad] denote the number, up to the width. *)
Lemma decimal_value_zpad (w : nat) :
  forall n, (0 <= n)%Z -> decimal_value (zpad w n) = (n mod 10 ^ Z.of_nat w)%Z.
Proof.
  induction w as [|w IH]; intros n Hn.
  - simpl. now rewrite Z.mod_1_r.
  - cbn [zpad]. rewrite decimal_value_snoc, IH by (apply Z.div_pos; lia).
    unfold digit. pose proof (Z.mod_pos_bound n 10 ltac:(lia)) as B.
    rewrite Z2N.id by lia.
    rewrite Nat2Z.inj_succ, Z.pow_succ_r by lia.
    rewrite (Z.rem_mul_r n 10 (10 ^ Z.of_nat w)) by lia. lia.
Qed.

Lemma decimal_value_zpad_small (w : nat) (n : Z) :
  (0 <= n < 10 ^ Z.of_nat w)%Z -> decimal_value (zpad w n) = n.
Proof.
  intros Hn. rewrite decimal_value_zpad by lia. now apply Z.mod_small.
Qed.

Lemma valid_bounds (d : date) :
  valid d = true ->
  (1 <= year d <= 9999 /\ 1 <= month d <= 12 /\ 1 <= day d <= 31)%Z.
Proof.
  unfold valid, MINYEAR, MAXYEAR. intros H.
  repeat (apply andb_prop in H; destruct H as [H ?]).
  repeat match goal with
    | H : (_ <=? _)%Z = true |- _ => apply Z.leb_le in H
    end.
  assert (days_in_month (year d) (month d) <= 31)%Z.
  { unfold days_in_month.
    destruct ((month d =? 2)%Z && is_leap (year d)); [lia|].
    destruct (Z.to_nat (month d - 1)) as [|[|[|[|[|[|[|[|[|[|[|[|k]]]]]]]]]]]];
      simpl; try lia. destruct k; lia. }
  lia.
Qed.

Lemma year_width_cases (y : Z) :
  (1 <= y <= 9999)%Z ->
  (year_width y = 1%nat /\ y < 10
   \/ year_width y = 2%nat /\ 10 <= y < 100
   \/ year_width y = 3%nat /\ 100 <= y < 1000
   \/ year_width y = 4%nat /\ 1000 <= y)%Z.
Proof.
  intros H. unfold year_width.
  destruct (Z.ltb_spec y 10); [left; split; [reflexivity|lia]|].
  destruct (Z.ltb_spec y 100); [right; left; split; [reflexivity|lia]|].
  destruct (Z.ltb_spec y 1000); [right; right; left; split; [reflexivity|lia]|].
  right. right. right. split; [reflexivity|lia].
Qed.

Lemma strftime_Y_length (y : Z) : length (strftime_Y y) = year_width y.
Proof. apply zpad_length. Qed.

Lemma year_width_range (y : Z) : 1 <= year_width y <= 4.
Proof.
  unfold year_width.
  destruct (y <? 10)%Z; [lia|]. destruct (y <? 100)%Z; [lia|].
  destruct (y <? 1000)%Z; lia.
Qed.

(** [%Y] writes the digits of the year, without leading zero. *)
Lemma strftime_Y_value (y : Z) :
  (1 <= y <= 9999)%Z ->
  decimal_value (strftime_Y y) = y /\ hd 48%N (strftime_Y y) <> 48%N.
Proof.
  intros H. unfold strftime_Y.
  destruct (year_width_cases y H) as [[-> B]|[[-> B]|[[-> B]|[-> B]]]].
  - split; [apply decimal_value_zpad_small; simpl; lia|].
    cbn [zpad app hd]. unfold digit. rewrite Z.mod_small by lia. lia.
  - split; [apply decimal_value_zpad_small; simpl; lia|].
    cbn [zpad app hd]. unfold digit.
    assert (1 <= (y / 10) mod 10)%Z by (Z.div_mod_to_equations; lia). lia.
  - split; [apply decimal_value_zpad_small; simpl; lia|].
    cbn [zpad app hd]. unfold digit.
    assert (1 <= (y / 10 / 10) mod 10)%Z by (Z.div_mod_to_equations; lia). lia.
  - split; [apply decimal_value_zpad_small; simpl; lia|].
    cbn [zpad app hd]. unfold digit.
    assert (1 <= (y / 10 / 10 / 10) mod 10)%Z by (Z.div_mod_to_equations; lia). lia.
Qed.

Lemma strftime_Y_digits (y : Z) : forallb is_digit (strftime_Y y) = true.
Proof. apply zpad_digits. Qed.

(** From the year 1000 on, [%Y] writes four digits. *)
Lemma strftime_Y_four (y : Z) : (1000 <= y)%Z -> strftime_Y y = zpad 4 y.
Proof.
  intros H. unfold strftime_Y, year_width.
  destruct (Z.ltb_spec y 10); [lia|]. destruct (Z.ltb_spec y 100); [lia|].
  destruct (Z.ltb_spec y 1000); [lia|reflexivity].
Qed.

(** [strftime('%Y/%m/%d')] on a date of the calendar: the year without
    leading zero, and two digits for the month and for the day. *)
Lemma strftime_renders (d : date) : valid d = true -> renders_date d (strftime_Ymd d).
Proof.
  intros H. apply valid_bounds in H as (Hy & Hm & Hd).
  exists (strftime_Y (year d)), (zpad 2 (month d)), (zpad 2 (day d)).
  split; [reflexivity|]. rewrite strftime_Y_length, !zpad_length.
  destruct (strftime_Y_value (year d) Hy) as [V Z].
  split; [apply year_width_range|]. repeat split; try assumption.
  - now rewrite !forallb_app, strftime_Y_digits, !zpad_digits.
  - apply decimal_value_zpad_small. simpl. lia.
  - apply decimal_value_zpad_small. simpl. lia.
Qed.

(** From the year 1000 on, the date text is [YYYY/MM/DD]. *)
Lemma strftime_spec (d : date) :
  (1000 <= year d)%Z -> strftime_Ymd d = spec_date_text d /\ date_digits d = yyyymmdd d.
Proof.
  intros H. unfold strftime_Ymd, date_digits, spec_date_text, yyyymmdd.
  now rewrite (strftime_Y_four _ H).
Qed.

Lemma spec_date_text_renders (d : date) : valid d = true -> renders_ymd d (spec_date_text d).
Proof.
  intros H. apply valid_bounds in H as (Hy & Hm & Hd).
  exists (zpad 4 (year d)), (zpad 2 (month d)), (zpad 2 (day d)).
  split; [reflexivity|]. rewrite !zpad_length.
  repeat split.
  - now rewrite !forallb_app, !zpad_digits.
  - apply decimal_value_zpad_small. simpl. lia.
  - apply decimal_value_zpad_small. simpl. lia.
  - apply decimal_value_zpad_small. simpl. lia.
Qed.

Lemma find_at_first (k : char) (p a rest : str) :
  Forall (fun c => c <> k) a ->
  find (k :: p) a = None
  /\ find (k :: p) (a ++ (k :: p) ++ rest) = Some (a, rest).
Proof.
  induction 1 as [|c a Hc Ha [IH1 IH2]].
  - split; [reflexivity|]. change ([] ++ (k :: p) ++ rest) with ((k :: p) ++ rest).
    apply find_cons_prefix, strip_prefix_app.
  - split.
    + rewrite find_cons, strip_prefix_not_head by assumption. now rewrite IH1.
    + change ((c :: a) ++ (k :: p) ++ rest) with (c :: (a ++ (k :: p) ++ rest)).
      rewrite find_cons, strip_prefix_not_head by assumption. now rewrite IH2.
Qed.

Lemma digits_not (k : char) (s : str) :
  is_digit k = false -> forallb is_digit s = true -> Forall (fun c => c <> k) s.
Proof.
  intros Hk Hs. apply Forall_forall. intros c Hc ->.
  apply (proj1 (forallb_forall _ _) Hs) in Hc. congruence.
Qed.

Lemma replace_char_one (k : char) (a rest : str) :
  Forall (fun c => c <> k) a ->
  Py.replace (a ++ [k] ++ rest) [k] [] = a ++ Py.replace rest [k] [].
Proof.
  intros H. rewrite replace_eq by discriminate.
  now rewrite (proj2 (find_at_first k [] a rest H)).
Qed.

Lemma replace_char_none (k : char) (a : str) :
  Forall (fun c => c <> k) a -> Py.replace a [k] [] = a.
Proof.
  intros H. rewrite replace_eq by discriminate.
  now rewrite (proj1 (find_at_first k [] a [] H)).
Qed.

(** Removing the slashes of the date text. *)
Lemma replace_slashes (d : date) : Py.replace (strftime_Ymd d) (py "/") [] = date_digits d.
Proof.
  unfold strftime_Ymd, date_digits, strftime_Y. change (py "/") with [47%N].
  assert (N : forall w n, Forall (fun c => c <> 47%N) (zpad w n))
    by (intros w n; apply digits_not; [reflexivity|apply zpad_digits]).
  rewrite (replace_char_one 47%N _ _ (N _ _)).
  rewrite (replace_char_one 47%N _ _ (N _ _)).
  now rewrite (replace_char_none 47%N _ (N _ _)).
Qed.

Lemma date_digits_digits (d : date) : forallb is_digit (date_digits d) = true.
Proof.
  unfold date_digits. now rewrite !forallb_app, strftime_Y_digits, !zpad_digits.
Qed.

Lemma replace_at_end (k : char) (p new x : str) :
  Forall (fun c => c <> k) x ->
  Py.replace (x ++ k :: p) (k :: p) new = x ++ new.
Proof.
  intros H. rewrite replace_eq by discriminate.
  pose proof (proj2 (find_at_first k p x [] H)) as F.
  rewrite app_nil_r in F. rewrite F.
  rewrite replace_eq by discriminate. cbn [find strip_prefix].
  now rewrite app_nil_r.
Qed.

(** The formatted name: [.txt] occurs at the end only. *)
Lemma replace_txt (a b : str) :
  forallb is_digit a = true -> forallb is_digit b = true ->
  Py.replace (py "output_" ++ a ++ py "-" ++ b ++ py ".txt")
    (py ".txt") (py "_formatted.txt")
  = py "output_" ++ a ++ py "-" ++ b ++ py "_formatted.txt".
Proof.
  intros Ha Hb.
  assert (F : Forall (fun c => c <> 46%N) (py "output_" ++ a ++ py "-" ++ b)).
  { apply Forall_app. split; [repeat constructor; discriminate|].
    apply Forall_app. split; [now apply digits_not|].
    apply Forall_app. split; [repeat constructor; discriminate|now apply digits_not]. }
  pose proof (replace_at_end 46%N (py "txt") (py "_formatted.txt") _ F) as R.
  rewrite <- !app_assoc in R. exact R.
Qed.
End WindowFacts.

Lemma add_days_Ok (d d' : Cal.date) (k : Z) :
  Cal.add_days d k = Ok d' ->
  Cal.valid d' = true /\ Cal.ymd2ord d' = (Cal.ymd2ord d + k)%Z.
Proof.
  unfold Cal.add_days.
  destruct (Z.ltb_spec 0 (Cal.ymd2ord d + k)); [|discriminate].
  destruct (Z.leb_spec (Cal.ymd2ord d + k) Cal.MAXORDINAL); [|discriminate].
  cbn [andb]. intros [= <-]. apply ord2ymd_round_trip. lia.
Qed.

(** The window's file names, from the digits of the two dates. *)
Lemma digest_window_Ok (after_date : Cal.date) (subject_filter : str) (w : window) :
  digest_window after_date subject_filter = Ok w ->
  Cal.add_days after_date 6 = Ok (before_date w)
  /\ after_date_text w = Cal.strftime_Ymd after_date
  /\ before_date_text w = Cal.strftime_Ymd (before_date w)
  /\ query w =
       py "subject:" ++ subject_filter ++ py " after:" ++ after_date_text w
       ++ py " before:" ++ before_date_text w
  /\ output_filename w =
       py "output_" ++ Cal.date_digits after_date ++ py "-"
       ++ Cal.date_digits (before_date w) ++ py ".txt"
  /\ output_filename_formatted w =
       py "output_" ++ Cal.date_digits after_date ++ py "-"
       ++ Cal.date_digits (before_date w) ++ py "_formatted.txt".
Proof.
  intros H. unfold digest_window in H.
  destruct (Cal.add_days after_date 6) as [d'|] eqn:E; [|discriminate].
  cbn [bind] in H.
  match type of H with Ok ?r = Ok w => assert (W : w = r) by congruence end.
  rewrite W. clear H W.
  cbn [before_date after_date_text before_date_text query output_filename
       output_filename_formatted].
  rewrite !replace_slashes.
  rewrite (replace_txt _ _ (date_digits_digits after_date) (date_digits_digits d')).
  now repeat split.
Qed.

(** C8, as the program has it. For every start date of the calendar up
    to 9999-12-25 the window exists, and a later start date raises
    [OverflowError]. The end date is the start date plus exactly 6 days
    (its ordinal is 6 more, and it is a date of the calendar). Both
    dates are written in the mailbox query with the year in decimal
    without leading zeros, then two digits for the month and two for the
    day, and the file names are [output_], the digits of the start date,
    [-], the digits of the end date, and [.txt] or [_formatted.txt]. From
    the year 1000 on these are [YYYY/MM/DD],
    [output_<startYYYYMMDD>-<endYYYYMMDD>.txt] and
    [output_<startYYYYMMDD>-<endYYYYMMDD>_formatted.txt]; start
    2025-05-05 gives end 2025-05-11, [output_20250505-20250511.txt] and
    [output_20250505-20250511_formatted.txt]. *)
Theorem digest_window_six_days (after_date : Cal.date) (subject_filter : str) :
  Cal.valid after_date = true ->
  ((Cal.ymd2ord after_date + 6 <= Cal.MAXORDINAL)%Z ->
     exists w, digest_window after_date subject_filter = Ok w)
  /\ ((Cal.MAXORDINAL < Cal.ymd2ord after_date + 6)%Z ->
      digest_window after_date subject_filter = Raise OverflowError)
  /\ (forall w, digest_window after_date subject_filter = Ok w ->
        Cal.valid (before_date w) = true
        /\ Cal.ymd2ord (before_date w) = (Cal.ymd2ord after_date + 6)%Z
        /\ renders_date after_date (after_date_text w)
        /\ renders_date (before_date w) (before_date_text w)
        /\ query w =
             py "subject:" ++ subject_filter ++ py " after:" ++ after_date_text w
             ++ py " before:" ++ before_date_text w
        /\ output_filename w =
             py "output_" ++ Cal.date_digits after_date ++ py "-"
             ++ Cal.date_digits (before_date w) ++ py ".txt"
        /\ output_filename_formatted w =
             py "output_" ++ Cal.date_digits after_date ++ py "-"
             ++ Cal.date_digits (before_date w) ++ py "_formatted.txt"
        /\ ((1000 <= Cal.year after_date)%Z ->
            renders_ymd after_date (after_date_text w)
            /\ renders_ymd (before_date w) (before_date_text w)
            /\ after_date_text w = spec_date_text after_date
            /\ before_date_text w = spec_date_text (before_date w)
            /\ output_filename w = spec_output_filename after_date (before_date w)
            /\ output_filename_formatted w
               = spec_output_filename_formatted after_date (before_date w)))
  /\ (exists w,
        digest_window {| Cal.year := 2025; Cal.month := 5; Cal.day := 5 |}
          subject_filter = Ok w
        /\ before_date w = {| Cal.year := 2025; Cal.month := 5; Cal.day := 11 |}
        /\ after_date_text w = py "2025/05/05"
        /\ before_date_text w = py "2025/05/11"
        /\ output_filename w = py "output_20250505-20250511.txt"
        /\ output_filename_formatted w
           = py "output_20250505-20250511_formatted.txt").
Proof.
  intros Hv. split; [|split; [|split]].
  - intros Hmax.
    destruct (add_days_ordinal after_date 6 Hv ltac:(lia) Hmax) as (d' & E & _).
    unfold digest_window. rewrite E. cbn [bind]. eauto.
  - intros Hmax. unfold digest_window.
    now rewrite (add_days_overflow after_date 6 Hmax).
  - intros w H. destruct (digest_window_Ok _ _ _ H) as (A & Ta & Tb & Q & N & F).
    destruct (add_days_Ok _ _ _ A) as [V O].
    split; [assumption|]. split; [assumption|].
    split; [rewrite Ta; now apply strftime_renders|].
    split; [rewrite Tb; now apply strftime_renders|].
    split; [assumption|]. split; [assumption|]. split; [assumption|].
    intros Y.
    assert (Y' : (1000 <= Cal.year (before_date w))%Z).
    { pose proof (year_le after_date (before_date w) Hv V ltac:(lia)). lia. }
    destruct (strftime_spec after_date Y) as [Sa Da].
    destruct (strftime_spec (before_date w) Y') as [Sb Db].
    rewrite Ta, Tb, N, F, Sa, Sb, Da, Db.
    repeat split; now apply spec_date_text_renders.
  - eexists. split; [reflexivity|]. repeat split.
Qed.

(** The theorem at a window that crosses the end of February of a leap
    year. *)
Lemma digest_window_six_days_witness :
  exists w,
    digest_window {| Cal.year := 2024; Cal.month := 2; Cal.day := 26 |} (py "AWS") = Ok w
    /\ before_date w = {| Cal.year := 2024; Cal.month := 3; Cal.day := 3 |}
    /\ output_filename w = py "output_20240226-20240303.txt".
Proof.
  destruct (digest_window_six_days
              {| Cal.year := 2024; Cal.month := 2; Cal.day := 26 |} (py "AWS") eq_refl)
    as (H1 & _).
  destruct H1 as [w Hw]; [vm_compute; discriminate|].
  exists w. split; [exact Hw|].
  vm_compute in Hw. injection Hw as <-. split; reflexivity.
Defined.

(** C8, as the specification words it ("for every start date", "rendered
    as YYYY/MM/DD", [output_<startYYYYMMDD>-<endYYYYMMDD>.txt]), fails
    before the year 1000 and after 9999-12-25: the window that starts on
    0999-12-27 is written [999/12/27] to [1000/01/02] and its raw file is
    [output_9991227-10000102.txt], and the start date 9999-12-26 has no
    window. *)
Lemma digest_window_not_spec :
  (exists w,
     digest_window {| Cal.year := 999; Cal.month := 12; Cal.day := 27 |} (py "AWS")
     = Ok w
     /\ before_date w = {| Cal.year := 1000; Cal.month := 1; Cal.day := 2 |}
     /\ after_date_text w = py "999/12/27"
     /\ spec_date_text {| Cal.year := 999; Cal.month := 12; Cal.day := 27 |}
        = py "0999/12/27"
     /\ ~ renders_ymd {| Cal.year := 999; Cal.month := 12; Cal.day := 27 |}
          (after_date_text w)
     /\ before_date_text w = py "1000/01/02"
     /\ output_filename w = py "output_9991227-10000102.txt"
     /\ spec_output_filename {| Cal.year := 999; Cal.month := 12; Cal.day := 27 |}
          (before_date w)
        = py "output_09991227-10000102.txt"
     /\ output_filename_formatted w = py "output_9991227-10000102_formatted.txt")
  /\ Cal.valid {| Cal.year := 9999; Cal.month := 12; Cal.day := 26 |} = true
  /\ digest_window {| Cal.year := 9999; Cal.month := 12; Cal.day := 26 |} (py "AWS")
     = Raise OverflowError.
Proof.
  split; [|split; vm_compute; reflexivity].
  eexists. split; [vm_compute; reflexivity|].
  cbn [before_date after_date_text before_date_text output_filename
       output_filename_formatted].
  repeat split; try (vm_compute; reflexivity).
  intros (Y & M & D & E & LY & _).
  destruct Y as [|y1 [|y2 [|y3 [|y4 [|y5 Y]]]]]; discriminate.
Qed.

(* ================================================================== *)
(** * Further properties of URL canonicalization *)
(* ================================================================== *)

Lemma remove_angles_id (s : str) : no_angle s -> remove_angles s = s.
Proof.
  intros H. unfold remove_angles. induction H as [|c s Hc Hs IH]; simpl; [reflexivity|].
  rewrite Hc. simpl. now rewrite IH.
Qed.

Lemma find_None_rfind (p s : str) : find p s = None -> rfind p s = None.
Proof.
  induction s as [|c s IH].
  - simpl. now destruct (strip_prefix p []).
  - rewrite find_cons, rfind_cons.
    destruct (strip_prefix p (c :: s)); [discriminate|].
    destruct (find p s) as [[a b]|]; [discriminate|]. intros _. now rewrite IH.
Qed.

Lemma rfind_app_Some (p a x m r : str) :
  rfind p x = Some (m, r) -> rfind p (a ++ x) = Some (a ++ m, r).
Proof.
  intros H. induction a as [|c a IH]; [exact H|].
  simpl app. now rewrite rfind_cons, IH.
Qed.

(** The last [http] of [http ++ r] is the leading one when [r] holds
    none. *)
Lemma rfind_http_head (r : str) :
  find http r = None -> rfind http (http ++ r) = Some ([], r).
Proof.
  intros H. apply find_None_rfind in H.
  change (http ++ r) with (104 :: 116 :: 116 :: 112 :: r)%N.
  rewrite rfind_cons, rfind_cons, rfind_cons, rfind_cons, H.
  reflexivity.
Qed.

(** An occurrence found first at the end of [x ++ p] is found first
    there whatever follows. *)
Lemma find_lookahead (p x j : str) :
  find p (x ++ p) = Some (x, []) -> find p (x ++ p ++ j) = Some (x, j).
Proof.
  induction x as [|c x IH]; intros H.
  - apply find_cons_prefix, (strip_prefix_app p j).
  - change ((c :: x) ++ p) with (c :: (x ++ p)) in H.
    change ((c :: x) ++ p ++ j) with (c :: (x ++ p ++ j)).
    rewrite find_cons in H |- *.
    destruct (strip_prefix p (c :: x ++ p)) as [rest|] eqn:E; [discriminate|].
    assert (E' : strip_prefix p (c :: x ++ p ++ j) = None).
    { pose proof (strip_prefix_None_app p (c :: x ++ p) j E) as E'.
      simpl app in E'. rewrite <- app_assoc in E'. apply E'.
      simpl. rewrite length_app. lia. }
    rewrite E'.
    destruct (find p (x ++ p)) as [[a b]|] eqn:F; [|discriminate].
    injection H as -> ->. now rewrite (IH eq_refl).
Qed.

Lemma no_angle_app (a b : str) : no_angle (a ++ b) <-> no_angle a /\ no_angle b.
Proof. apply Forall_app. Qed.

(** The canonical form of a redirect link: a link [<http w http t
    &ct=ga& j>] whose wrapper starts with [http], whose target [http t]
    holds no other [http] and no earlier [&ct=ga&], and whose tracking
    tail [j] holds no [http], is canonicalized to its target [http t],
    whatever the wrapper and the tracking tail are. *)
Theorem canonicalize_unwraps_redirect (w t j : str) :
  ~ List.In LF (w ++ t ++ j) -> no_angle (w ++ t ++ j) ->
  find http (t ++ ct_ga ++ j) = None ->
  find ct_ga (http ++ t ++ ct_ga) = Some (http ++ t, []) ->
  canonicalize (py "<" ++ http ++ w ++ http ++ t ++ ct_ga ++ j ++ py ">")
  = http ++ t.
Proof.
  intros HLF Hang Hh Hm.
  set (l := py "<" ++ http ++ w ++ http ++ t ++ ct_ga ++ j ++ py ">").
  assert (NL : ~ List.In LF l).
  { assert (C1 : ~ List.In LF (py "<")) by (intros [H|[]]; discriminate).
    assert (C2 : ~ List.In LF (py ">")) by (intros [H|[]]; discriminate).
    pose proof not_In_LF_http as C3. pose proof not_In_LF_ct_ga as C4.
    unfold l. rewrite !in_app_iff in *. tauto. }
  rewrite <- (app_nil_r l).
  rewrite (canonicalize_line l [] NL line_tail_nil), canonicalize_nil, app_nil_r.
  unfold canon_line.
  apply no_angle_app in Hang as [Aw Hang]. apply no_angle_app in Hang as [At Aj].
  assert (R : remove_angles l = http ++ w ++ http ++ t ++ ct_ga ++ j).
  { unfold l, remove_angles. rewrite !filter_app.
    fold (remove_angles w) (remove_angles t) (remove_angles j).
    rewrite (remove_angles_id w Aw), (remove_angles_id t At), (remove_angles_id j Aj).
    cbn. now rewrite app_nil_r. }
  rewrite R. unfold collapse.
  rewrite (find_cons_prefix http _ _ (strip_prefix_app http _)).
  rewrite (rfind_app_Some http w _ [] _ (rfind_http_head _ Hh)).
  cbn [app]. unfold truncate.
  pose proof (find_lookahead ct_ga (http ++ t) j Hm) as F.
  rewrite <- app_assoc in F. now rewrite F.
Qed.

(** The theorem at a link of an alert mail. *)
Lemma canonicalize_unwraps_redirect_witness :
  canonicalize
    (py "<https://www.google.com/url?rct=j&sa=t&url=https://aws.example/blog/1&ct=ga&cd=CAEYACoT&usg=AOv>")
  = py "https://aws.example/blog/1".
Proof.
  apply (canonicalize_unwraps_redirect
           (py "s://www.google.com/url?rct=j&sa=t&url=")
           (py "s://aws.example/blog/1") (py "cd=CAEYACoT&usg=AOv")).
  - intros H. vm_compute in H. repeat (destruct H as [H|H]; [discriminate H|]). exact H.
  - apply Forall_forall. intros c H. vm_compute in H.
    repeat (destruct H as [H|H]; [now subst c|]). destruct H.
  - vm_compute. reflexivity.
  - vm_compute. reflexivity.
Defined.

Lemma quiet_no_occurrence (r : Re.regex) (s a x : str) :
  quiet r s -> Re.match_here r false x <> None -> s <> a ++ x.
Proof.
  intros Q M E. specialize (Q (length a)). rewrite E in Q.
  rewrite skipn_app, skipn_all, Nat.sub_diag in Q. simpl in Q. contradiction.
Qed.

(** On a line, a greedy [.*] finds an [http] that follows. *)
Lemma after_last_http_found (b c : str) :
  ~ List.In LF b -> after_last http (b ++ http ++ c) <> None.
Proof.
  induction b as [|x b IH]; intros Hb.
  - change ([] ++ http ++ c) with (104 :: (py "ttp" ++ c))%N.
    rewrite after_last_cons by discriminate.
    destruct (after_last http (py "ttp" ++ c)); [discriminate|].
    change (104 :: py "ttp" ++ c)%N with (http ++ c).
    rewrite strip_prefix_app. discriminate.
  - change ((x :: b) ++ http ++ c) with (x :: (b ++ http ++ c)).
    rewrite after_last_cons by (intros ->; apply Hb; now left).
    assert (N : after_last http (b ++ http ++ c) <> None)
      by (apply IH; intros H; apply Hb; now right).
    destruct (after_last http (b ++ http ++ c)); [discriminate|contradiction].
Qed.

(** The canonical form: a canonicalized URL holds no [<], no [>] and no
    [&ct=ga&], and none of its lines holds [http] twice. The strings of
    that form are exactly those canonicalization leaves unchanged. *)
Theorem canonical_form (x : str) :
  (forall c, List.In c (canonicalize x) -> c <> 60%N /\ c <> 62%N)
  /\ (forall a b, canonicalize x <> a ++ ct_ga ++ b)
  /\ (forall a b c, ~ List.In LF b -> canonicalize x <> a ++ http ++ b ++ http ++ c)
  /\ (canonicalize x = x <->
      no_angle x /\ quiet re_http_http x /\ quiet re_ct_ga x).
Proof.
  repeat split.
  - intros ->. apply (proj1 (Forall_forall _ _) (canonicalize_no_angle x)) in H.
    discriminate.
  - intros ->. apply (proj1 (Forall_forall _ _) (canonicalize_no_angle x)) in H.
    discriminate.
  - intros a b. apply (quiet_no_occurrence re_ct_ga _ a _ (canonicalize_quiet_ct_ga x)).
    rewrite mh_ct_ga, strip_prefix_app. discriminate.
  - intros a b c Hb.
    apply (quiet_no_occurrence re_http_http _ a _ (canonicalize_quiet_http x)).
    rewrite mh_http, strip_prefix_app. now apply after_last_http_found.
  - rewrite <- H. apply canonicalize_no_angle.
  - rewrite <- H. apply canonicalize_quiet_http.
  - rewrite <- H. apply canonicalize_quiet_ct_ga.
  - intros (H1 & H2 & H3). rewrite canonicalize_steps.
    rewrite (sub_angle_id x H1). unfold sub_http, sub_ct_ga.
    rewrite (sub_quiet _ _ _ progress_http_http H2).
    apply (sub_quiet _ _ _ progress_ct_ga H3).
Qed.

(** [re.sub] does not lengthen a text when no match is shorter than the
    replacement. *)
Lemma sub_length (r : Re.regex) (repl : str) :
  progress r ->
  (forall s rest, Re.match_here r false s = Some rest ->
     length repl + length rest <= length s) ->
  forall s, length (Re.sub r repl s) <= length s.
Proof.
  intros Hr Hm s. len_induction s IH. destruct s as [|c s].
  - now rewrite sub_nil.
  - destruct (Re.match_here r false (c :: s)) as [rest|] eqn:E.
    + rewrite (sub_hit r repl _ rest Hr E), length_app.
      pose proof (Hm _ _ E). pose proof (Hr _ _ E). specialize (IH rest ltac:(lia)). lia.
    + rewrite (sub_miss r repl c s Hr E). simpl.
      specialize (IH s ltac:(simpl; lia)). lia.
Qed.

Lemma after_last_length (p t r : str) :
  after_last p t = Some r -> length p + length r <= length t.
Proof.
  unfold after_last. intros H. apply star_inv in H as (s' & Hs & H).
  apply strip_prefix_length in H. apply suffix_length in Hs. lia.
Qed.

(** Canonicalization never lengthens a URL. *)
Theorem canonicalize_length (x : str) : length (canonicalize x) <= length x.
Proof.
  rewrite canonicalize_steps. unfold sub_ct_ga, sub_http, sub_angle.
  apply Nat.le_trans with (length (Re.sub re_http_http http (Re.sub re_angle [] x))).
  { apply sub_length; [apply progress_ct_ga|]. intros s rest H.
    apply progress_ct_ga in H. simpl. lia. }
  apply Nat.le_trans with (length (Re.sub re_angle [] x)).
  { apply sub_length; [apply progress_http_http|]. intros s rest H.
    rewrite mh_http in H. destruct (strip_prefix http s) as [t|] eqn:E; [|discriminate].
    apply strip_prefix_length in E. apply after_last_length in H. lia. }
  apply sub_length; [apply progress_angle|]. intros s rest H.
  apply progress_angle in H. simpl. lia.
Qed.

(* ================================================================== *)
(** * Further properties of the splits (lines 161-164) *)
(* ================================================================== *)

Lemma strip_prefix_app_Some (p x r y : str) :
  strip_prefix p x = Some r -> strip_prefix p (x ++ y) = Some (r ++ y).
Proof.
  intros H. apply strip_prefix_Some in H. subst x.
  rewrite <- app_assoc. apply strip_prefix_app.
Qed.

Lemma quiet_nil (r : Re.regex) : progress r -> quiet r [].
Proof.
  intros Hr k. replace (skipn k (@nil char)) with (@nil char) by now destruct k.
  destruct (Re.match_here r false []) as [rest|] eqn:E; [|reflexivity].
  apply Hr in E. simpl in E. lia.
Qed.

Lemma search_None_quiet (r : Re.regex) (s : str) :
  progress r -> Re.search r false s = None -> quiet r s.
Proof.
  intros Hr. induction s as [|c s IH]; intros H.
  - now apply quiet_nil.
  - cbn [Re.search] in H.
    destruct (Re.match_here r false (c :: s)) eqn:E; [discriminate|].
    apply quiet_cons. split; [assumption|]. apply IH.
    now destruct (Re.search r false s) as [[[a m] b]|].
Qed.

(** A match of the delimiter pattern at the head of [x] is one at the
    head of [x ++ y]. *)
Lemma mh_delim_app (x y : str) :
  Re.match_here re_delim false x <> None ->
  Re.match_here re_delim false (x ++ y) <> None.
Proof.
  rewrite !mh_delim.
  destruct (strip_prefix (py "===") x) as [r|] eqn:E1.
  - intros _. now rewrite (strip_prefix_app_Some _ _ _ y E1).
  - destruct (strip_prefix (py "- - - ") x) as [r|] eqn:E2; [|contradiction].
    intros _. rewrite (strip_prefix_app_Some _ _ _ y E2).
    now destruct (strip_prefix (py "===") (x ++ y)).
Qed.

Lemma mh_delim_matched (s rest : str) :
  Re.match_here re_delim false s = Some rest ->
  is_delim (firstn (length s - length rest) s) = true.
Proof.
  rewrite mh_delim.
  destruct (strip_prefix (py "===") s) as [r|] eqn:E1.
  - intros [= <-]. apply strip_prefix_Some in E1. subst s.
    rewrite length_app, Nat.add_sub, firstn_app, Nat.sub_diag, firstn_all.
    reflexivity.
  - intros E2. apply strip_prefix_Some in E2. subst s.
    rewrite length_app, Nat.add_sub, firstn_app, Nat.sub_diag, firstn_all.
    reflexivity.
Qed.

(** What [search] finds for the delimiter pattern: a text without
    delimiter, then a delimiter. *)
Lemma search_delim (s : str) :
  forall a m b, Re.search re_delim false s = Some (a, m, b) ->
  quiet re_delim a /\ is_delim m = true.
Proof.
  induction s as [|c s IH]; intros a m b H; cbn [Re.search] in H.
  - destruct (Re.match_here re_delim false []) as [rest|] eqn:E; [|discriminate].
    apply progress_delim in E. simpl in E. lia.
  - destruct (Re.match_here re_delim false (c :: s)) as [rest|] eqn:E.
    + injection H as <- <- <-. split; [apply quiet_nil, progress_delim|].
      exact (mh_delim_matched (c :: s) rest E).
    + destruct (Re.search re_delim false s) as [[[a' m'] b']|] eqn:F; [|discriminate].
      injection H as <- <- <-. destruct (IH _ _ _ eq_refl) as [Q D].
      split; [|assumption]. apply quiet_cons. split; [|assumption].
      destruct (Re.match_here re_delim false (c :: a')) eqn:E'; [|reflexivity].
      exfalso. apply (mh_delim_app (c :: a') (m' ++ b')); [congruence|].
      apply search_parts in F. simpl. now rewrite <- F.
Qed.

Lemma segments_and_delims_odd (n : nat) :
  forall l, length l <= n -> segments_and_delims l ->
  exists k, length l = 2 * k + 1.
Proof.
  induction n as [n IH] using lt_wf_ind. intros l L S.
  destruct l as [|x [|d l]]; cbn [segments_and_delims] in S.
  - contradiction.
  - now exists 0.
  - destruct S as (_ & _ & S). simpl in L.
    destruct (IH (length l) ltac:(lia) l (le_n _) S) as [k Hk].
    exists (k + 1). simpl. lia.
Qed.

Lemma segments_and_delims_even (l : list str) (k : nat) :
  segments_and_delims l ->
  forall seg, nth_error l (2 * k) = Some seg -> quiet re_delim seg.
Proof.
  revert l. induction k as [|k IH]; intros l Hl seg H.
  - destruct l as [|x [|d l]]; cbn [segments_and_delims] in Hl;
      [contradiction| |]; simpl in H; injection H as <-; tauto.
  - replace (2 * (k + 1)) with (2 * k + 2) in H by lia.
    replace (2 * S k) with (2 + 2 * k) in H by lia.
    destruct l as [|x [|d l]]; cbn [Nat.add nth_error] in H.
    + discriminate.
    + now destruct (2 * k).
    + cbn [segments_and_delims] in Hl. apply (IH l); tauto.
Qed.

(** The split of line 161 loses nothing and alternates: its items,
    concatenated, are the body; they are segments without delimiter with
    one delimiter between two of them, so their number is odd; and item
    4, when there is one, holds no delimiter. *)
Theorem delimiter_split_structure (email_body : str) :
  List.concat (Re.split re_delim true email_body) = email_body
  /\ segments_and_delims (Re.split re_delim true email_body)
  /\ (exists k, length (Re.split re_delim true email_body) = 2 * k + 1)
  /\ (forall seg, nth_error (Re.split re_delim true email_body) 4 = Some seg ->
        quiet re_delim seg).
Proof.
  assert (A : forall s,
            List.concat (Re.split re_delim true s) = s
            /\ segments_and_delims (Re.split re_delim true s)).
  { intros s. len_induction s IH. rewrite re_split_eq by apply progress_delim.
    destruct (Re.search re_delim false s) as [[[a m] b]|] eqn:F.
    - destruct (search_progress _ _ progress_delim _ _ _ F) as [L _].
      destruct (search_delim _ _ _ _ F) as [Q D].
      destruct (IH b L) as [C S]. apply search_parts in F. split.
      + cbn [app List.concat]. now rewrite C.
      + cbn [app]. cbn [segments_and_delims]. now repeat split.
    - split; [simpl; apply app_nil_r|].
      now apply search_None_quiet; [apply progress_delim|]. }
  destruct (A email_body) as [C S].
  destruct (segments_and_delims_odd _ _ (le_n _) S) as [k O].
  repeat split; [assumption|assumption|now exists k|].
  intros seg. apply (segments_and_delims_even _ 2 S).
Qed.

(** The text before the leftmost occurrence of [p] holds no occurrence
    of [p]. *)
Lemma find_before_None (p : str) (s : str) :
  p <> [] -> forall a b, find p s = Some (a, b) -> find p a = None.
Proof.
  intros Hp. induction s as [|c s IH]; intros a b H.
  - destruct p; [contradiction|discriminate].
  - rewrite find_cons in H.
    destruct (strip_prefix p (c :: s)) as [r|] eqn:E.
    + injection H as <- <-. now destruct p.
    + destruct (find p s) as [[a' b']|] eqn:F; [|discriminate].
      injection H as <- <-. rewrite find_cons.
      destruct (strip_prefix p (c :: a')) as [r|] eqn:E'.
      * apply find_Some in F. subst s.
        change (c :: a' ++ p ++ b') with ((c :: a') ++ p ++ b') in E.
        now rewrite (strip_prefix_app_Some _ _ _ (p ++ b') E') in E.
      * now rewrite (IH _ _ eq_refl).
Qed.

(** The leftmost match of a literal is its leftmost occurrence. *)
Lemma search_lit (p s : str) :
  Re.search (Re.lit p) false s =
    match find p s with
    | Some (a, b) => Some (a, p, b)
    | None => None
    end.
Proof.
  assert (M : forall x, Re.match_here (Re.lit p) false x = strip_prefix p x).
  { intros x. unfold Re.match_here. rewrite rmatch_lit.
    now destruct (strip_prefix p x). }
  induction s as [|c s IH].
  - cbn [Re.search find]. rewrite M.
    destruct (strip_prefix p []) as [r|] eqn:E; [|reflexivity].
    apply strip_prefix_Some in E. symmetry in E.
    apply app_eq_nil in E as [-> ->]. reflexivity.
  - cbn [Re.search]. rewrite M, find_cons.
    destruct (strip_prefix p (c :: s)) as [r|] eqn:E.
    + apply strip_prefix_Some in E. rewrite E.
      now rewrite length_app, Nat.add_sub, firstn_app, Nat.sub_diag, firstn_all,
        app_nil_r.
    + rewrite IH. now destruct (find p s) as [[a b]|].
Qed.

Lemma join_cons_split (sep x b : str) :
  join sep (x :: Py.split b sep) = x ++ sep ++ join sep (Py.split b sep).
Proof.
  unfold Py.split. destruct (length b); [reflexivity|]. cbn [split_fuel].
  now destruct (find sep b) as [[u v]|].
Qed.

Lemma split_join_parts (sep s : str) :
  sep <> [] ->
  join sep (Py.split s sep) = s
  /\ Forall (fun x => find sep x = None) (Py.split s sep)
  /\ Re.split (Re.lit sep) false s = Py.split s sep.
Proof.
  intros Hp. len_induction s IH.
  rewrite re_split_eq by now apply progress_lit.
  rewrite search_lit, split_eq by assumption.
  destruct (find sep s) as [[a b]|] eqn:F.
  - destruct (IH b (find_shorter _ _ _ _ Hp F)) as (J & N & R).
    repeat split.
    + rewrite join_cons_split, J. symmetry. now apply find_Some.
    + constructor; [|assumption]. now apply (find_before_None sep s Hp a b).
    + cbn [app]. now rewrite R.
  - repeat split. now constructor.
Qed.

(** Splitting at a separator and joining with it (lines 161, 163): the
    pieces of [s.split(sep)], joined by [sep], are [s]; no piece holds
    [sep]; and [re.split] with the literal pattern [sep] cuts [s] into the
    same pieces. So in the program: a block [s] is its lines joined by
    ['\r\n'], none of which holds ['\r\n'], and its fields are the
    trimmed concatenation of the lines before the last, and the trimmed
    last line; and when [s] is item 4 of the split of a body and the
    body has article blocks, [s] is a first chunk, the blocks and a last
    chunk joined by blank lines, and no block holds a blank line. *)
Theorem split_join_round_trip (sep s : str) :
  sep <> [] ->
  join sep (Py.split s sep) = s
  /\ Forall (fun x => find sep x = None) (Py.split s sep)
  /\ Re.split (Re.lit sep) false s = Py.split s sep
  /\ (exists lines last,
        s = join crlf (lines ++ [last])
        /\ Forall (fun x => find crlf x = None) (lines ++ [last])
        /\ block_fields s = Ok (strip (join0 lines), strip last))
  /\ (forall email_body arts,
        nth_error (Re.split re_delim true email_body) 4 = Some s ->
        article_blocks email_body = Ok arts -> arts <> [] ->
        exists first last,
          s = join blank (first :: arts ++ [last])
          /\ Forall (fun x => find blank x = None) arts).
Proof.
  intros Hp.
  destruct (split_join_parts sep s Hp) as (J & N & R).
  split; [assumption|]. split; [assumption|]. split; [assumption|]. split.
  - destruct (split_join_parts crlf s ltac:(discriminate)) as (Jc & Nc & Rc).
    fold re_crlf in Rc.
    assert (E : Py.split s crlf
                = removelast (Py.split s crlf) ++ [last (Py.split s crlf) []]).
    { apply app_removelast_last. rewrite <- Rc. apply re_split_not_nil. }
    exists (removelast (Py.split s crlf)), (last (Py.split s crlf) []).
    rewrite <- E. split; [now symmetry|]. split; [assumption|].
    assert (I : index_m1 (Py.split s crlf) = Some (last (Py.split s crlf) []))
      by (rewrite E at 1; apply index_m1_snoc).
    unfold block_fields, last_item, slice_to_m1. now rewrite Rc, I.
  - intros email_body arts H A Hn. unfold article_blocks in A. rewrite H in A.
    assert (A' : slice_1_m1 (Py.split s blank) = arts) by (unfold blank; congruence).
    clear A. rename A' into A.
    destruct (split_join_parts blank s blank_not_nil) as (Jb & Nb & _).
    unfold slice_1_m1 in A.
    destruct (Py.split s blank) as [|first t];
      [exfalso; apply Hn; now rewrite <- A|].
    cbn [tl] in A. destruct t as [|x t] using rev_ind;
      [exfalso; apply Hn; now rewrite <- A|].
    rewrite removelast_last in A. subst arts.
    exists first, x. split; [now symmetry|].
    apply Forall_cons_iff in Nb as [_ Nb]. now apply Forall_app in Nb as [Nb _].
Qed.

(** The theorem at the separator of line 161 and a text of three
    blocks. *)
Lemma split_join_round_trip_witness :
  join blank (Py.split (py "a" ++ blank ++ py "b" ++ blank ++ py "c") blank)
  = py "a" ++ blank ++ py "b" ++ blank ++ py "c"
  /\ Py.split (py "a" ++ blank ++ py "b" ++ blank ++ py "c") blank
     = [py "a"; py "b"; py "c"].
Proof.
  split.
  - apply (split_join_round_trip blank). discriminate.
  - reflexivity.
Defined.

(* ================================================================== *)
(** * Further properties of the extraction loop (lines 157-173) *)
(* ================================================================== *)

Lemma map_result_Ok {A B} (f : A -> result B) (l : list A) :
  (forall a, exists b, f a = Ok b) ->
  exists bs, map_result f l = Ok bs /\ length bs = length l.
Proof.
  intros Hf. induction l as [|a l [bs [E L]]]; [now exists []|].
  destruct (Hf a) as [b Hb]. exists (b :: bs). cbn [map_result].
  rewrite Hb, E. cbn [bind]. split; [reflexivity|]. simpl. now rewrite L.
Qed.

Lemma map_result_In {A B} (f : A -> result B) (l : list A) :
  forall bs, map_result f l = Ok bs ->
  forall b, List.In b bs -> exists a, List.In a l /\ f a = Ok b.
Proof.
  induction l as [|a l IH]; intros bs H b Hb; cbn [map_result] in H.
  - injection H as <-. contradiction.
  - destruct (f a) as [b0|] eqn:E; [|discriminate]. cbn [bind] in H.
    destruct (map_result f l) as [bs0|] eqn:F; [|discriminate].
    cbn [bind] in H. injection H as <-. destruct Hb as [<-|Hb].
    + exists a. split; [now left|assumption].
    + destruct (IH _ eq_refl _ Hb) as [a' [I E']].
      exists a'. split; [now right|assumption].
Qed.

Lemma discovered_In (bodies : list str) :
  forall xs, discovered bodies = Ok xs ->
  forall x, List.In x xs ->
  exists b ys, List.In b bodies /\ extract b = Ok ys /\ List.In x ys.
Proof.
  induction bodies as [|b bodies IH]; intros xs H x Hx; cbn [discovered] in H.
  - injection H as <-. contradiction.
  - destruct (extract b) as [ys|] eqn:E; [|discriminate]. cbn [bind] in H.
    destruct (discovered bodies) as [zs|] eqn:F; [|discriminate].
    cbn [bind] in H. injection H as <-. apply in_app_or in Hx as [Hx|Hx].
    + exists b, ys. split; [now left|now split].
    + destruct (IH _ eq_refl _ Hx) as (b' & ys' & I & E' & I').
      exists b', ys'. split; [now right|now split].
Qed.

Lemma first_occurrences_incl (l : list article) (x : article) :
  List.In x (first_occurrences l) -> List.In x l.
Proof.
  induction l as [|y l IH]; [trivial|]. cbn [first_occurrences].
  intros [<-|H]; [now left|]. right. apply IH.
  now apply filter_In in H as [H _].
Qed.

Lemma collect_discovered (bodies : list str) :
  collect bodies = (xs <- discovered bodies ;; Ok (first_occurrences xs)).
Proof.
  unfold collect. rewrite for_emails_fold.
  destruct (discovered bodies) as [xs|]; [|reflexivity].
  cbn [bind]. now rewrite fold_gate_first.
Qed.

Lemma article_blocks_long (b : str) :
  5 <= length (Re.split re_delim true b) -> exists arts, article_blocks b = Ok arts.
Proof.
  intros H. unfold article_blocks.
  destruct (nth_error (Re.split re_delim true b) 4) as [seg|] eqn:E; [eauto|].
  apply nth_error_None in E. lia.
Qed.

Lemma for_emails_long (bodies : list str) :
  (forall b, List.In b bodies -> 5 <= length (Re.split re_delim true b)) ->
  forall st, exists st', for_emails st bodies = Ok st'.
Proof.
  induction bodies as [|b bodies IH]; intros H st; [now exists st|].
  cbn [for_emails]. unfold email_step.
  destruct (article_blocks_long b (H b (or_introl eq_refl))) as [arts ->].
  cbn [bind]. destruct (for_blocks_Ok arts st) as [st' ->]. cbn [bind].
  apply IH. intros b' Hb'. apply H. now right.
Qed.

Lemma for_emails_Raise (bodies : list str) :
  forall st e, for_emails st bodies = Raise e -> e = IndexError.
Proof.
  induction bodies as [|b bodies IH]; intros st e H; [discriminate|].
  cbn [for_emails] in H. unfold email_step in H.
  destruct (article_blocks b) as [arts|e'] eqn:E.
  - cbn [bind] in H. destruct (for_blocks_Ok arts st) as [st' F].
    rewrite F in H. cbn [bind] in H. now apply (IH st').
  - cbn [bind] in H. injection H as <-. now apply (article_blocks_Raise b).
Qed.

Lemma slice_1_m1_length {A} (l : list A) : length (slice_1_m1 l) = length l - 2.
Proof.
  unfold slice_1_m1. destruct l as [|x l]; [reflexivity|]. cbn [tl].
  destruct l as [|y l] using rev_ind; [reflexivity|].
  rewrite removelast_last. simpl. rewrite length_app. simpl. lia.
Qed.

(** When the extraction returns, when it raises, and how many articles a
    message gives. The run over the retrieved bodies returns exactly when
    the split of every body on the delimiters has at least five items;
    the one exception it can raise is [IndexError]; and a body whose
    split has an item 4 gives one article for every chunk that item 4
    has between blank lines, but for the first and the last chunk. *)
Theorem extraction_returns_iff (bodies : list str) :
  ((exists l, collect bodies = Ok l) <->
     (forall b, List.In b bodies -> 5 <= length (Re.split re_delim true b)))
  /\ (forall e, collect bodies = Raise e -> e = IndexError)
  /\ (forall b seg,
        nth_error (Re.split re_delim true b) 4 = Some seg ->
        exists xs, extract b = Ok xs
          /\ length xs = length (Py.split seg blank) - 2).
Proof.
  split; [split|split].
  - intros [l H] b Hb.
    destruct (le_lt_dec 5 (length (Re.split re_delim true b))) as [L|L]; [assumption|].
    unfold collect in H. now rewrite (for_emails_short bodies b Hb L) in H.
  - intros H. destruct (for_emails_long bodies H acc0) as [st E].
    exists (articles st). unfold collect. now rewrite E.
  - intros e H. unfold collect in H.
    destruct (for_emails acc0 bodies) as [st|e'] eqn:E; [discriminate|].
    cbn [bind] in H. injection H as <-. now apply (for_emails_Raise bodies acc0).
  - intros b seg H. unfold extract, article_blocks. rewrite H. cbn [bind].
    destruct (map_result_Ok block_article (slice_1_m1 (Py.split seg (crlf ++ crlf)))
                block_article_Ok) as (xs & E & L).
    exists xs. split; [assumption|]. rewrite L. apply slice_1_m1_length.
Qed.

(** ** Trimming *)

Lemma lstrip_head (s : str) (c : char) (r : str) :
  lstrip s = c :: r -> isspace c = false.
Proof.
  induction s as [|a s IH]; [discriminate|]. cbn [lstrip].
  destruct (isspace a) eqn:E; [assumption|]. now intros [= <- _].
Qed.

Lemma lstrip_id (s : str) :
  (forall c r, s = c :: r -> isspace c = false) -> lstrip s = s.
Proof.
  destruct s as [|a s]; [reflexivity|]. intros H. cbn [lstrip].
  now rewrite (H a s eq_refl).
Qed.

(** [lstrip] drops a run of whitespace from the front. *)
Lemma lstrip_parts (s : str) :
  exists w, s = w ++ lstrip s /\ forallb isspace w = true.
Proof.
  induction s as [|a s (w & E & W)]; [now exists []|]. cbn [lstrip].
  destruct (isspace a) eqn:Ha.
  - exists (a :: w). split; [simpl; now rewrite <- E|]. simpl. now rewrite Ha.
  - now exists [].
Qed.

Lemma rstrip_last (s : str) (c : char) (r : str) :
  rstrip s = r ++ [c] -> isspace c = false.
Proof.
  unfold rstrip. intros H. apply (f_equal (@rev char)) in H.
  rewrite rev_involutive, rev_unit in H. now apply lstrip_head in H.
Qed.

Lemma rstrip_id (s : str) :
  (forall c r, s = r ++ [c] -> isspace c = false) -> rstrip s = s.
Proof.
  intros H. unfold rstrip. rewrite lstrip_id; [apply rev_involutive|].
  intros c r E. apply (H c (rev r)).
  rewrite <- (rev_involutive s), E. reflexivity.
Qed.

(** [rstrip] drops a run of whitespace from the end. *)
Lemma rstrip_parts (s : str) :
  exists w, s = rstrip s ++ w /\ forallb isspace w = true.
Proof.
  unfold rstrip. destruct (lstrip_parts (rev s)) as (w & E & W).
  exists (rev w). split.
  - rewrite <- rev_app_distr, <- E. symmetry. apply rev_involutive.
  - rewrite forallb_forall in W |- *. intros x Hx. apply W. now apply in_rev.
Qed.

Lemma strip_head (s : str) (c : char) (r : str) :
  strip s = c :: r -> isspace c = false.
Proof.
  unfold strip. intros H. destruct (rstrip_parts (lstrip s)) as (w & E & _).
  rewrite H in E. now apply lstrip_head in E.
Qed.

Lemma strip_last (s : str) (c : char) (r : str) :
  strip s = r ++ [c] -> isspace c = false.
Proof. apply rstrip_last. Qed.

Lemma strip_strip (s : str) : strip (strip s) = strip s.
Proof.
  unfold strip at 1. rewrite (lstrip_id (strip s)) by apply strip_head.
  apply rstrip_id, strip_last.
Qed.

(** [strip] keeps what is between the leading and the trailing
    whitespace. *)
Lemma strip_parts (s : str) :
  exists w1 w2, s = w1 ++ strip s ++ w2
    /\ forallb isspace w1 = true /\ forallb isspace w2 = true.
Proof.
  destruct (lstrip_parts s) as (w1 & E1 & W1).
  destruct (rstrip_parts (lstrip s)) as (w2 & E2 & W2).
  exists w1, w2. unfold strip. now rewrite <- E2.
Qed.

Lemma block_article_fields (a : str) (x : article) :
  block_article a = Ok x ->
  body x = strip (join0 (slice_to_m1 (Re.split re_crlf false a)))
  /\ exists last, last_item (Re.split re_crlf false a) = Ok last
       /\ url x = canonicalize (strip last).
Proof.
  unfold block_article, block_fields. intros H.
  destruct (last_item (Re.split re_crlf false a)) as [last|] eqn:E; [|discriminate].
  cbn [bind fst snd] in H. injection H as <-. cbn [body url]. eauto.
Qed.

(** What the run hands to the digest: every article it keeps is the
    article of a block of one of the bodies, its summary is trimmed (it
    neither starts nor ends with whitespace), and its URL is in canonical
    form (it holds no angle bracket, and canonicalizing it again changes
    nothing). *)
Theorem collected_articles_normalized (bodies : list str) (l : list article) :
  collect bodies = Ok l ->
  forall x, List.In x l ->
    (exists b arts a,
        List.In b bodies /\ article_blocks b = Ok arts /\ List.In a arts
        /\ block_article a = Ok x)
    /\ strip (body x) = body x
    /\ (forall c r, body x = c :: r -> isspace c = false)
    /\ (forall c r, body x = r ++ [c] -> isspace c = false)
    /\ no_angle (url x)
    /\ canonicalize (url x) = url x.
Proof.
  intros H x Hx. rewrite collect_discovered in H.
  destruct (discovered bodies) as [xs|] eqn:D; [|discriminate].
  cbn [bind] in H. injection H as <-. apply first_occurrences_incl in Hx.
  destruct (discovered_In bodies xs D x Hx) as (b & ys & Hb & E & Hy).
  unfold extract in E.
  destruct (article_blocks b) as [arts|] eqn:B; [|discriminate].
  cbn [bind] in E. destruct (map_result_In _ _ _ E x Hy) as (a & Ha & F).
  split; [now exists b, arts, a|].
  destruct (block_article_fields a x F) as (Eb & last & _ & Eu).
  rewrite Eb, Eu. repeat split.
  - apply strip_strip.
  - apply strip_head.
  - apply strip_last.
  - apply canonicalize_no_angle.
  - rewrite (canonicalize_steps (canonicalize (strip last))).
    rewrite (sub_angle_id _ (canonicalize_no_angle (strip last))).
    unfold sub_http, sub_ct_ga.
    rewrite (sub_quiet _ _ _ progress_http_http (canonicalize_quiet_http (strip last))).
    apply (sub_quiet _ _ _ progress_ct_ga (canonicalize_quiet_ct_ga (strip last))).
Qed.

(** The theorem at [sample_body] and the second article of the run. *)
Lemma collected_articles_normalized_witness :
  collect [sample_body]
  = Ok [ {| body := py "Title onea summary = of it"; url := py "https://a.example/1" |};
         {| body := py "Title two"; url := py "http://b.example/2" |} ]
  /\ strip (py "Title two") = py "Title two"
  /\ canonicalize (py "http://b.example/2") = py "http://b.example/2".
Proof.
  assert (E : collect [sample_body]
            = Ok [ {| body := py "Title onea summary = of it";
                      url := py "https://a.example/1" |};
                   {| body := py "Title two"; url := py "http://b.example/2" |} ])
    by (vm_compute; reflexivity).
  split; [exact E|].
  destruct (collected_articles_normalized [sample_body] _ E
              {| body := py "Title two"; url := py "http://b.example/2" |})
    as (_ & S & _ & _ & _ & C).
  - right. left. reflexivity.
  - split; [exact S|exact C].
Defined.

(** ** The gate *)

Lemma find_filter {A} (p f : A -> bool) (l : list A) :
  (forall y, p y = true -> f y = true) ->
  List.find p (filter f l) = List.find p l.
Proof.
  intros H. induction l as [|y l IH]; [reflexivity|]. cbn [filter List.find].
  destruct (p y) eqn:P.
  - rewrite (H y P). cbn [List.find]. now rewrite P.
  - destruct (f y); [cbn [List.find]; now rewrite P|assumption].
Qed.

Lemma fold_gate_inv (l : list article) :
  forall st, loop_inv st -> loop_inv (fold_left gate l st).
Proof.
  induction l as [|x l IH]; intros st H; [assumption|].
  cbn [fold_left]. now apply IH, gate_inv.
Qed.

Lemma loop_inv_acc0 : loop_inv acc0.
Proof. split; [reflexivity|constructor]. Qed.

Lemma first_occurrences_NoDup (l : list article) :
  NoDup (List.map url (first_occurrences l)).
Proof.
  rewrite <- fold_gate_first.
  destruct (fold_gate_inv l acc0 loop_inv_acc0) as [E N]. now rewrite E.
Qed.

Lemma first_occurrences_id (l : list article) :
  NoDup (List.map url l) -> first_occurrences l = l.
Proof.
  induction l as [|x l IH]; [reflexivity|]. cbn [List.map first_occurrences].
  intros N. apply NoDup_cons_iff in N as [Hx N]. rewrite (IH N). f_equal.
  apply forallb_filter_id. apply forallb_forall. intros y Hy.
  destruct (str_eqb (url y) (url x)) eqn:E; [|reflexivity].
  apply str_eqb_eq in E. exfalso. apply Hx. rewrite <- E. now apply in_map.
Qed.

Lemma first_occurrences_length (l : list article) :
  length (first_occurrences l) <= length l.
Proof.
  induction l as [|x l IH]; [constructor|]. cbn [first_occurrences length].
  pose proof (filter_length_le (fun y => negb (str_eqb (url y) (url x)))
                (first_occurrences l)). lia.
Qed.

(** The article stored for a URL is the first one discovered with it. *)
Lemma lookup_url_first_occurrences (l : list article) (u : str) :
  lookup_url u (first_occurrences l) = lookup_url u l.
Proof.
  unfold lookup_url. induction l as [|x l IH]; [reflexivity|].
  cbn [first_occurrences List.find].
  destruct (str_eqb (url x) u) eqn:E; [reflexivity|].
  rewrite find_filter; [assumption|].
  intros y Hy. apply str_eqb_eq in Hy. subst u.
  destruct (str_eqb (url y) (url x)) eqn:F; [|reflexivity].
  apply str_eqb_eq in F. rewrite F, str_eqb_refl in E. discriminate.
Qed.

(** The gate of lines 168-173 on a discovery sequence [l]. For every URL
    the article kept is the first one discovered with it, so the summary
    of a later duplicate never replaces it; feeding the kept articles to
    the gate again keeps them all; the gate keeps the whole sequence
    exactly when its URLs are pairwise distinct, and never more articles
    than it is given; and a sequence in two parts gives what the first
    part gives, then what the second part gives without the URLs of the
    first. *)
Theorem dedup_first_summary_wins (l : list article) :
  (forall u, lookup_url u (kept l) = lookup_url u l)
  /\ kept (kept l) = kept l
  /\ (kept l = l <-> NoDup (List.map url l))
  /\ length (kept l) <= length l
  /\ (forall l', kept (l ++ l')
        = kept l ++ filter (fun y => negb (str_in (url y) (List.map url (kept l))))
                      (kept l')).
Proof.
  unfold kept. rewrite !fold_gate_first. repeat split.
  - intros u. apply lookup_url_first_occurrences.
  - apply first_occurrences_id, first_occurrences_NoDup.
  - intros <-. apply first_occurrences_NoDup.
  - apply first_occurrences_id.
  - apply first_occurrences_length.
  - intros l'. rewrite fold_left_app, fold_gate_articles.
    destruct (fold_gate_inv l acc0 loop_inv_acc0) as [E _].
    now rewrite <- E, !fold_gate_first.
Qed.

(* ================================================================== *)
(** * Further properties of the date header (lines 89-113) *)
(* ================================================================== *)

Lemma find_char_In (c : char) (s : str) : List.In c s -> find [c] s <> None.
Proof.
  induction s as [|x s IH]; [contradiction|]. intros H. rewrite find_cons.
  rewrite strip_prefix_cons. destruct (N.eqb_spec x c) as [->|N]; [discriminate|].
  destruct H as [H|H]; [contradiction|].
  specialize (IH H). now destruct (find [c] s) as [[a b]|].
Qed.

Lemma find_char_not_In (c : char) (s : str) : ~ List.In c s -> find [c] s = None.
Proof.
  intros H. apply (find_at_first c [] s []). apply Forall_forall.
  intros x Hx ->. contradiction.
Qed.

Lemma find_char_Some (c : char) (s a b : str) :
  find [c] s = Some (a, b) -> s = a ++ c :: b /\ ~ List.In c a.
Proof.
  intros H. split; [exact (find_Some _ _ _ _ H)|].
  intros I. apply (find_char_In c a I).
  apply (find_before_None [c] s ltac:(discriminate) a b H).
Qed.

(** The greedy [[^)]*] followed by [\)] ends at the first [')']. *)
Lemma star_paren (r : str) :
  Re.star (Re.NotIn [41%N]) r (fun s' => Re.rmatch (Re.Chr (Re.One 41%N)) s' Some)
  = option_map snd (find (@cons char 41%N []) r).
Proof.
  induction r as [|x r IH]; [reflexivity|].
  rewrite find_cons, strip_prefix_cons.
  cbn [Re.star Re.cset_mem char_in existsb].
  destruct (N.eqb x 41) eqn:E; cbn [orb negb strip_prefix option_map snd].
  - cbn [Re.rmatch Re.cset_mem]. now rewrite E.
  - rewrite IH. destruct (find (@cons char 41%N []) r) as [[a b]|]; [reflexivity|].
    cbn [Re.rmatch Re.cset_mem option_map]. now rewrite E.
Qed.

(** One attempt of the comment pattern: an opening parenthesis, and the
    text up to the first closing one. *)
Lemma mh_paren (s : str) :
  Re.match_here re_paren false s =
    match s with
    | c :: r => if N.eqb c 40 then option_map snd (find (@cons char 41%N []) r) else None
    | [] => None
    end.
Proof.
  rewrite match_here_false. destruct s as [|c r]; [reflexivity|].
  unfold re_paren. cbn [Re.rmatch Re.cset_mem].
  destruct (N.eqb c 40); [exact (star_paren r)|reflexivity].
Qed.

Lemma mh_paren_comment (b c : str) :
  ~ List.In 41%N b ->
  Re.match_here re_paren false (40%N :: b ++ 41%N :: c) = Some c.
Proof.
  intros H. rewrite mh_paren. cbn [N.eqb Pos.eqb].
  assert (F : Forall (fun x => x <> 41%N) b)
    by (apply Forall_forall; intros x Hx ->; contradiction).
  destruct (find_at_first 41%N [] b c F) as [_ E].
  exact (f_equal (option_map snd) E).
Qed.

Lemma mh_paren_not_open (c : char) (s : str) :
  c <> 40%N -> Re.match_here re_paren false (c :: s) = None.
Proof.
  intros H. rewrite mh_paren. now destruct (N.eqb_spec c 40).
Qed.

Lemma mh_paren_open (s : str) :
  ~ List.In 41%N s -> Re.match_here re_paren false (40%N :: s) = None.
Proof.
  intros H. rewrite mh_paren. cbn [N.eqb Pos.eqb].
  now rewrite (find_char_not_In _ _ H).
Qed.

Lemma mh_paren_Some (s rest : str) :
  Re.match_here re_paren false s = Some rest ->
  exists b, s = 40%N :: b ++ 41%N :: rest /\ ~ List.In 41%N b.
Proof.
  rewrite mh_paren. destruct s as [|c r]; [discriminate|].
  destruct (N.eqb_spec c 40) as [->|]; [|discriminate].
  destruct (find (@cons char 41%N []) r) as [[b y]|] eqn:F; [|discriminate].
  intros [= <-]. destruct (find_char_Some _ _ _ _ F) as [-> N].
  now exists b.
Qed.

Lemma no_comment_nil : no_comment [].
Proof. intros a b c H. now destruct a. Qed.

Lemma no_comment_cons (x : char) (s : str) :
  x <> 40%N -> no_comment s -> no_comment (x :: s).
Proof.
  intros Hx H a b c E. destruct a as [|y a].
  - injection E as E _. contradiction.
  - injection E as _ E. now apply (H a b c).
Qed.

Lemma no_comment_no_close (s : str) : ~ List.In 41%N s -> no_comment s.
Proof.
  intros H a b c E. apply H. rewrite E.
  do 3 (apply in_or_app; right). apply in_or_app. left. now left.
Qed.

Lemma no_comment_part (w1 x w2 : str) : no_comment (w1 ++ x ++ w2) -> no_comment x.
Proof.
  intros H a b c E. apply (H (w1 ++ a) b (c ++ w2)). rewrite E.
  now rewrite <- !app_assoc.
Qed.

Lemma quiet_paren (s : str) : quiet re_paren s <-> no_comment s.
Proof.
  split.
  - intros Q a b c. apply (quiet_no_occurrence re_paren s a _ Q).
    change (py "(" ++ b ++ py ")" ++ c) with (40%N :: b ++ 41%N :: c).
    rewrite mh_paren. cbn [N.eqb Pos.eqb].
    pose proof (find_char_In 41%N (b ++ 41%N :: c)
                  ltac:(apply in_or_app; right; now left)) as F.
    now destruct (find (@cons char 41%N []) (b ++ 41%N :: c)).
  - intros H k. destruct (Re.match_here re_paren false (skipn k s)) as [rest|] eqn:E;
      [|reflexivity].
    apply mh_paren_Some in E as (b & E & _). exfalso.
    apply (H (firstn k s) b rest). rewrite <- (firstn_skipn k s) at 1.
    now rewrite E.
Qed.

(** Removing the comments leaves the characters of the text. *)
Lemma sub_paren_keeps (P : char -> Prop) (s : str) :
  Forall P s -> Forall P (Re.sub re_paren [] s).
Proof. apply sub_Forall; [apply progress_paren|constructor]. Qed.

Lemma sub_paren_no_comment (s : str) : no_comment (Re.sub re_paren [] s).
Proof.
  len_induction s IH. destruct s as [|x s].
  - rewrite sub_nil by apply progress_paren. apply no_comment_nil.
  - destruct (Re.match_here re_paren false (x :: s)) as [rest|] eqn:E.
    + rewrite (sub_hit _ _ _ _ progress_paren E). apply IH.
      now apply progress_paren in E.
    + rewrite (sub_miss _ _ _ _ progress_paren E).
      destruct (N.eqb_spec x 40) as [->|Hx].
      * apply no_comment_no_close. intros [H|H]; [discriminate|].
        rewrite mh_paren in E. cbn [N.eqb Pos.eqb] in E.
        assert (N : ~ List.In 41%N s).
        { intros I. apply (find_char_In _ _ I).
          now destruct (find (@cons char 41%N []) s). }
        assert (F : Forall (fun c => c <> 41%N) (Re.sub re_paren [] s)).
        { apply sub_paren_keeps. apply Forall_forall. intros c Hc ->. contradiction. }
        now apply (proj1 (Forall_forall _ _) F _ H).
      * apply no_comment_cons; [assumption|]. apply IH. simpl. lia.
Qed.

(** A comment after a text without opening parenthesis is removed. *)
Lemma sub_paren_comment (a b c : str) :
  ~ List.In 40%N a -> ~ List.In 41%N b ->
  Re.sub re_paren [] (a ++ py "(" ++ b ++ py ")" ++ c) = a ++ Re.sub re_paren [] c.
Proof.
  intros Ha Hb. change (py "(" ++ b ++ py ")" ++ c) with (40%N :: b ++ 41%N :: c).
  induction a as [|x a IH].
  - cbn [app]. now rewrite (sub_hit _ _ _ _ progress_paren (mh_paren_comment b c Hb)).
  - cbn [app]. rewrite sub_miss.
    + f_equal. apply IH. intros H. apply Ha. now right.
    + apply progress_paren.
    + apply mh_paren_not_open. intros ->. apply Ha. now left.
Qed.

Lemma sub_paren_length (s : str) : length (Re.sub re_paren [] s) <= length s.
Proof.
  apply sub_length; [apply progress_paren|].
  intros x rest E. apply progress_paren in E. simpl. lia.
Qed.

Lemma lstrip_spaces_app (w s : str) :
  forallb isspace w = true -> lstrip (w ++ s) = lstrip s.
Proof.
  induction w as [|x w IH]; [reflexivity|]. cbn [forallb app lstrip].
  intros H. apply andb_prop in H as [-> H]. now apply IH.
Qed.

Lemma rstrip_app_spaces (s w : str) :
  forallb isspace w = true -> rstrip (s ++ w) = rstrip s.
Proof.
  intros H. unfold rstrip. rewrite rev_app_distr, lstrip_spaces_app; [reflexivity|].
  apply forallb_forall. intros x Hx. apply in_rev in Hx.
  now apply (proj1 (forallb_forall _ _) H).
Qed.

Lemma strip_app_spaces (s w : str) :
  forallb isspace w = true -> strip (s ++ w) = strip s.
Proof.
  intros H. unfold strip. induction s as [|x s IH].
  - cbn [app]. rewrite <- (app_nil_r w), lstrip_spaces_app by assumption.
    reflexivity.
  - cbn [app lstrip]. destruct (isspace x); [assumption|].
    now apply (rstrip_app_spaces (x :: s)).
Qed.

Lemma strip_length (s : str) : length (strip s) <= length s.
Proof.
  destruct (strip_parts s) as (w1 & w2 & E & _). rewrite E at 2.
  rewrite !length_app. lia.
Qed.

(** The date text the program parses (line 102). It holds no
    parenthesized comment: no ['('] of it is followed by a [')']; it is
    trimmed; cleaning it again changes nothing; it is not longer than
    the header value; a comment after a text without ['('] is dropped
    with everything from its ['('] to the first [')']; and removing the
    comments leaves a header value unchanged exactly when it has no
    comment. *)
Theorem cleaned_date_has_no_comment (date_str : str) :
  no_comment (cleaned_date date_str)
  /\ strip (cleaned_date date_str) = cleaned_date date_str
  /\ cleaned_date (cleaned_date date_str) = cleaned_date date_str
  /\ length (cleaned_date date_str) <= length date_str
  /\ (forall a b c,
        ~ List.In 40%N a -> ~ List.In 41%N b ->
        date_str = a ++ py "(" ++ b ++ py ")" ++ c ->
        cleaned_date date_str = strip (a ++ Re.sub re_paren [] c))
  /\ (Re.sub re_paren [] date_str = date_str <-> no_comment date_str).
Proof.
  assert (N : no_comment (cleaned_date date_str)).
  { unfold cleaned_date.
    destruct (strip_parts (Re.sub re_paren [] date_str)) as (w1 & w2 & E & _).
    apply (no_comment_part w1 _ w2). rewrite <- E. apply sub_paren_no_comment. }
  repeat split.
  - exact N.
  - apply strip_strip.
  - unfold cleaned_date at 1.
    rewrite (sub_quiet _ _ _ progress_paren (proj2 (quiet_paren _) N)).
    apply strip_strip.
  - unfold cleaned_date.
    pose proof (strip_length (Re.sub re_paren [] date_str)).
    pose proof (sub_paren_length date_str). lia.
  - intros a b c Ha Hb ->. unfold cleaned_date. now rewrite sub_paren_comment.
  - intros <-. apply sub_paren_no_comment.
  - intros H. apply (sub_quiet _ _ _ progress_paren (proj2 (quiet_paren _) H)).
Qed.

Lemma sub_paren_id (s : str) : ~ List.In 40%N s -> Re.sub re_paren [] s = s.
Proof.
  induction s as [|x s IH]; intros H.
  - apply sub_nil, progress_paren.
  - rewrite sub_miss.
    + f_equal. apply IH. intros I. apply H. now right.
    + apply progress_paren.
    + apply mh_paren_not_open. intros ->. apply H. now left.
Qed.

Lemma isspace_not_open (w : str) : forallb isspace w = true -> ~ List.In 40%N w.
Proof.
  intros H I. apply (proj1 (forallb_forall _ _) H) in I. discriminate.
Qed.

(** A comment at the end of the header value, with the whitespace before
    it, does not count. *)
Lemma cleaned_date_trailing_comment (a w b : str) :
  ~ List.In 40%N a -> forallb isspace w = true -> ~ List.In 41%N b ->
  cleaned_date (a ++ w ++ py "(" ++ b ++ py ")") = cleaned_date a.
Proof.
  intros Ha Hw Hb. unfold cleaned_date.
  replace (a ++ w ++ py "(" ++ b ++ py ")")
    with ((a ++ w) ++ py "(" ++ b ++ py ")" ++ [])
    by now rewrite <- app_assoc.
  rewrite sub_paren_comment; [|intros I|assumption].
  - rewrite (sub_nil _ _ progress_paren), app_nil_r, (sub_paren_id a Ha).
    now apply strip_app_spaces.
  - apply in_app_or in I as [I|I]; [contradiction|].
    now apply (isspace_not_open w Hw).
Qed.

Section DateFacts.
Variable strptime : str -> str -> result datetime.
Variable now : nat -> Z.

(** The date of a message ignores a trailing comment: a [Date] header
    that ends in a parenthesized comment, such as a zone name, after any
    whitespace, gives the timestamp the header without them gives. *)
Theorem date_comment_ignored (i : nat) (a w b : str) :
  ~ List.In 40%N a -> forallb isspace w = true -> ~ List.In 41%N b ->
  Gmail.normalize_date strptime now i (a ++ w ++ py "(" ++ b ++ py ")")
  = Gmail.normalize_date strptime now i a.
Proof.
  intros Ha Hw Hb. unfold Gmail.normalize_date.
  fold (cleaned_date (a ++ w ++ py "(" ++ b ++ py ")")). fold (cleaned_date a).
  now rewrite cleaned_date_trailing_comment.
Qed.

End DateFacts.

(** The theorem at the [Date] header of [sample_m2]. *)
Lemma date_comment_ignored_witness :
  Gmail.normalize_date sample_strptime sample_now 1
    (py "Tue, 06 May 2025 09:00:00 +0000 (UTC)")
  = Gmail.normalize_date sample_strptime sample_now 1
      (py "Tue, 06 May 2025 09:00:00 +0000").
Proof.
  apply (date_comment_ignored sample_strptime sample_now 1
           (py "Tue, 06 May 2025 09:00:00 +0000") (py " ") (py "UTC")).
  - intros H. repeat (destruct H as [H|H]; [discriminate|]). exact H.
  - reflexivity.
  - intros H. repeat (destruct H as [H|H]; [discriminate|]). exact H.
Defined.

(* ================================================================== *)
(** * Further properties of the retrieval (lines 67-140) *)
(* ================================================================== *)

Section SortExceptions.
Variables (A : Type) (key : A -> datetime).


End SortExceptions.

Section RetrievalOutcomes.
Variable strptime : str -> str -> result datetime.
Variable b64_utf8 : str -> result str.
Variable now : nat -> Z.

Local Notation "'email_of'" := (Gmail.email_of strptime b64_utf8 now).
Local Notation "'for_messages'" := (Gmail.for_messages strptime b64_utf8 now).
Local Notation "'get_emails'" := (Gmail.get_emails_by_subject strptime b64_utf8 now).
Local Notation "'body_of' m" := (Gmail.message_body b64_utf8 (Gmail.msg_payload m))
  (at level 10, m at level 9).

Lemma email_of_Ok (i : nat) (m : Gmail.message) (e : Gmail.email) :
  email_of i m = Ok e ->
  Gmail.id e = Gmail.msg_id m /\ body_of m = Ok (Gmail.body e).
Proof.
  unfold Gmail.email_of. destruct (body_of m) as [b|]; [|discriminate].
  cbn [bind]. intros [= <-]. now split.
Qed.


Lemma for_messages_Ok (ms : list Gmail.message) :
  forall i l, for_messages i ms = Ok l ->
  Forall2 (fun m e => Gmail.id e = Gmail.msg_id m /\ body_of m = Ok (Gmail.body e)) ms l.
Proof.
  induction ms as [|m ms IH]; intros i l H; cbn [Gmail.for_messages] in H.
  - injection H as <-. constructor.
  - destruct (email_of i m) as [e|] eqn:E; [|discriminate]. cbn [bind] in H.
    destruct (for_messages (S i) ms) as [es|] eqn:F; [|discriminate].
    cbn [bind] in H. injection H as <-.
    constructor; [now apply (email_of_Ok i)|now apply (IH (S i))].
Qed.






Lemma Forall2_In_l {X Y} (R : X -> Y -> Prop) (l : list X) (l' : list Y) :
  Forall2 R l l' -> forall x, List.In x l -> exists y, List.In y l' /\ R x y.
Proof.
  induction 1 as [|a b l l' HR _ IH]; intros x Hx; [contradiction|].
  destruct Hx as [<-|Hx].
  - exists b. split; [now left|assumption].
  - destruct (IH x Hx) as (y & I & Ry). exists y. split; [now right|assumption].
Qed.

Lemma Forall2_In_r {X Y} (R : X -> Y -> Prop) (l : list X) (l' : list Y) :
  Forall2 R l l' -> forall y, List.In y l' -> exists x, List.In x l /\ R x y.
Proof.
  induction 1 as [|a b l l' HR _ IH]; intros y Hy; [contradiction|].
  destruct Hy as [<-|Hy].
  - exists a. split; [now left|assumption].
  - destruct (IH y Hy) as (x & I & Rx). exists x. split; [now right|assumption].
Qed.

Lemma Forall2_ids (ms : list Gmail.message) (l : list Gmail.email) :
  Forall2 (fun m e => Gmail.id e = Gmail.msg_id m /\ body_of m = Ok (Gmail.body e)) ms l ->
  List.map Gmail.id l = List.map Gmail.msg_id ms.
Proof.
  induction 1 as [|m e ms l [E _] _ IH]; [reflexivity|].
  cbn [List.map]. now rewrite E, IH.
Qed.

Lemma get_emails_Ok (messages : list Gmail.message) (out : list Gmail.email) :
  get_emails messages = Ok out ->
  exists l,
    Forall2 (fun m e => Gmail.id e = Gmail.msg_id m /\ body_of m = Ok (Gmail.body e))
      messages l
    /\ Permutation l out.
Proof.
  intros H. destruct (for_messages 0 messages) as [l|e] eqn:F.
  - rewrite (get_emails_sort strptime b64_utf8 now messages l F) in H.
    destruct (list_sort_reverse_Ok _ Gmail.date _ _ H) as [k Hk].
    destruct (list_sort_reverse_same_kind _ Gmail.date k l Hk) as (out' & E & P & _).
    rewrite H in E. injection E as <-.
    exists l. split; [exact (for_messages_Ok messages 0 l F)|exact P].
  - unfold Gmail.get_emails_by_subject in H. destruct messages as [|m ms].
    + discriminate.
    + rewrite F in H. discriminate.
Qed.


(** What retrieval returns holds every listed message once. When
    [get_emails_by_subject] returns, the ids of the result are the ids of
    the listed messages in another order, one entry per message; every
    entry carries the id and the decoded body of a listed message; and
    every listed message has its entry. *)
Theorem retrieval_keeps_every_message
  (messages : list Gmail.message) (out : list Gmail.email) :
  get_emails messages = Ok out ->
  Permutation (List.map Gmail.id out) (List.map Gmail.msg_id messages)
  /\ length out = length messages
  /\ (forall e, List.In e out ->
        exists m, List.In m messages
          /\ Gmail.id e = Gmail.msg_id m /\ body_of m = Ok (Gmail.body e))
  /\ (forall m, List.In m messages ->
        exists e, List.In e out
          /\ Gmail.id e = Gmail.msg_id m /\ body_of m = Ok (Gmail.body e)).
Proof.
  intros H. destruct (get_emails_Ok messages out H) as (l & R & P).
  repeat split.
  - rewrite <- (Forall2_ids messages l R). apply Permutation_map.
    now apply Permutation_sym.
  - rewrite <- (Permutation_length P). symmetry. exact (Forall2_length R).
  - intros e He. apply (Forall2_In_r _ _ _ R).
    apply (Permutation_in e (Permutation_sym P) He).
  - intros m Hm. destruct (Forall2_In_l _ _ _ R m Hm) as (e & He & Re).
    exists e. split; [|assumption]. apply (Permutation_in e P He).
Qed.


End RetrievalOutcomes.

(** The theorem at two sample messages. *)
Lemma retrieval_keeps_every_message_witness :
  exists out,
    Gmail.get_emails_by_subject sample_strptime Ok sample_now [sample_m1; sample_m2]
    = Ok out
    /\ Permutation (List.map Gmail.id out) [py "m1"; py "m2"]
    /\ length out = 2.
Proof.
  assert (E : exists out,
            Gmail.get_emails_by_subject sample_strptime Ok sample_now
              [sample_m1; sample_m2] = Ok out)
    by (eexists; vm_compute; reflexivity).
  destruct E as [out E]. exists out. split; [exact E|].
  destruct (retrieval_keeps_every_message sample_strptime Ok sample_now
              [sample_m1; sample_m2] out E) as (P & L & _).
  split; [exact P|exact L].
Defined.

(* ================================================================== *)
(** * Further properties of the window and the file names
      (lines 149-151, 179-181, 225) *)
(* ================================================================== *)

(** A text is cut at its first [c] in one way only. *)
Lemma first_cut_unique (c : char) (a a' r r' : str) :
  ~ List.In c a -> ~ List.In c a' -> a ++ c :: r = a' ++ c :: r' -> a = a' /\ r = r'.
Proof.
  revert a'. induction a as [|x a IH]; intros [|x' a'] H H' E; cbn [app] in E.
  - injection E as <-. now split.
  - injection E as <- _. exfalso. apply H'. now left.
  - injection E as -> _. exfalso. apply H. now left.
  - injection E as <- E. destruct (IH a') as [<- <-]; trivial.
    + intros I. apply H. now right.
    + intros I. apply H'. now right.
    + now split.
Qed.

Section WindowNames.
Import Cal.

Lemma app_eq_length {X} (x x' y y' : list X) :
  length x = length x' -> x ++ y = x' ++ y' -> x = x' /\ y = y'.
Proof.
  revert x'. induction x as [|a x IH]; intros [|a' x'] L E; try discriminate.
  - now split.
  - injection L as L. injection E as -> E. destruct (IH x' L E) as [-> ->].
    now split.
Qed.

Lemma date_digits_length (d : date) :
  length (date_digits d) = year_width (year d) + 4.
Proof.
  unfold date_digits. rewrite !length_app, strftime_Y_length, !zpad_length. lia.
Qed.

(** The digits determine the date. *)
Lemma date_digits_inj (d d' : date) :
  valid d = true -> valid d' = true -> date_digits d = date_digits d' -> d = d'.
Proof.
  intros V V' E.
  destruct (valid_bounds d V) as (By & Bm & Bd).
  destruct (valid_bounds d' V') as (By' & Bm' & Bd').
  assert (L : length (strftime_Y (year d)) = length (strftime_Y (year d'))).
  { apply (f_equal (@length char)) in E. rewrite !date_digits_length in E.
    rewrite !strftime_Y_length. lia. }
  unfold date_digits in E.
  apply app_eq_length in E as [Ey E]; [|assumption].
  apply app_eq_length in E as [Em Ed]; [|now rewrite !zpad_length].
  apply (f_equal decimal_value) in Ey, Em, Ed.
  rewrite (proj1 (strftime_Y_value _ By)), (proj1 (strftime_Y_value _ By')) in Ey.
  rewrite !decimal_value_zpad_small in Em, Ed
    by (change (10 ^ Z.of_nat 2)%Z with 100%Z; lia).
  destruct d, d'. cbn [year month day] in Ey, Em, Ed. now subst.
Qed.

Lemma digits_no (k : char) (s : str) :
  is_digit k = false -> forallb is_digit s = true -> ~ List.In k s.
Proof.
  intros Hk Hs I. apply (proj1 (forallb_forall _ _) Hs) in I. congruence.
Qed.

(** A name of the form [output_<digits>-<digits><ext>] is read in one
    way. *)
Lemma output_name_parts (a a' b b' ext ext' : str) :
  forallb is_digit a = true -> forallb is_digit a' = true ->
  py "output_" ++ a ++ py "-" ++ b ++ ext = py "output_" ++ a' ++ py "-" ++ b' ++ ext' ->
  a = a' /\ b ++ ext = b' ++ ext'.
Proof.
  intros Ha Ha' E. apply app_inv_head in E.
  apply (first_cut_unique 45%N) in E; [assumption| |];
    now apply digits_no.
Qed.

Lemma output_filename_length (a b : date) (ext : str) :
  length (py "output_" ++ date_digits a ++ py "-" ++ date_digits b ++ ext)
  = 16 + year_width (year a) + year_width (year b) + length ext.
Proof.
  rewrite !length_app, !date_digits_length.
  change (length (py "output_")) with 7. change (length (py "-")) with 1. lia.
Qed.

(** The window and its files. For a start date of the calendar,
    [main] derives the window unless the sixth day after the start is
    past 9999-12-31, and then the exception is [OverflowError]. The
    formatted file name is 10 characters longer than the raw one, which
    has 22 to 28 characters, and 28 exactly from the year 1000 on; no raw
    file of any window is the formatted file of a window; the names do
    not depend on the subject filter; and two windows with a file name in
    common start on the same day. *)
Theorem digest_window_files (after_date : date) (subject_filter : str) :
  valid after_date = true ->
  (digest_window after_date subject_filter = Raise OverflowError
   <-> (MAXORDINAL < ymd2ord after_date + 6)%Z)
  /\ (forall e, digest_window after_date subject_filter = Raise e ->
        e = OverflowError)
  /\ (forall w, digest_window after_date subject_filter = Ok w ->
        length (output_filename_formatted w) = length (output_filename w) + 10
        /\ 22 <= length (output_filename w) <= 28
        /\ (length (output_filename w) = 28 <-> (1000 <= year after_date)%Z)
        /\ (forall subject_filter' w',
              digest_window after_date subject_filter' = Ok w' ->
              output_filename w' = output_filename w
              /\ output_filename_formatted w' = output_filename_formatted w)
        /\ (forall after_date' subject_filter' w',
              valid after_date' = true ->
              digest_window after_date' subject_filter' = Ok w' ->
              output_filename w' <> output_filename_formatted w
              /\ (output_filename w' = output_filename w
                  \/ output_filename_formatted w' = output_filename_formatted w ->
                  after_date' = after_date))).
Proof.
  intros V. split; [|split].
  - unfold digest_window. split.
    + intros H. destruct (Z.lt_ge_cases MAXORDINAL (ymd2ord after_date + 6)) as [L|L];
        [assumption|].
      destruct (add_days_ordinal after_date 6 V ltac:(lia) L) as (d' & E & _).
      rewrite E in H. discriminate.
    + intros L. now rewrite (add_days_overflow after_date 6 L).
  - intros e H. unfold digest_window in H.
    destruct (add_days after_date 6) as [d'|e'] eqn:E; [discriminate|].
    cbn [bind] in H. injection H as <-. unfold add_days in E.
    destruct ((0 <? ymd2ord after_date + 6) && (ymd2ord after_date + 6 <=? MAXORDINAL))%Z;
      [discriminate|]. now injection E.
  - intros w H. destruct (digest_window_Ok _ _ _ H) as (A & _ & _ & _ & N & F).
    destruct (add_days_Ok _ _ _ A) as [Vb O].
    pose proof (year_le after_date (before_date w) V Vb ltac:(lia)) as Y.
    destruct (valid_bounds _ V) as (By & _).
    destruct (valid_bounds _ Vb) as (By' & _).
    pose proof (year_width_range (year after_date)) as Ra.
    pose proof (year_width_range (year (before_date w))) as Rb.
    split; [|split; [|split; [|split]]].
    + rewrite N, F, !output_filename_length.
      change (length (py ".txt")) with 4.
      change (length (py "_formatted.txt")) with 14. lia.
    + rewrite N, output_filename_length. change (length (py ".txt")) with 4. lia.
    + rewrite N, output_filename_length. change (length (py ".txt")) with 4.
      destruct (year_width_cases _ By) as [[Wa Ba]|[[Wa Ba]|[[Wa Ba]|[Wa Ba]]]];
        destruct (year_width_cases _ By') as [[Wb Bb]|[[Wb Bb]|[[Wb Bb]|[Wb Bb]]]];
        rewrite Wa, Wb; split; intros; lia.
    + intros s' w' H'. destruct (digest_window_Ok _ _ _ H') as (A' & _ & _ & _ & N' & F').
      rewrite A in A'. injection A' as A'. now rewrite N, F, N', F', A'.
    + intros a' s' w' V' H'.
      destruct (digest_window_Ok _ _ _ H') as (A' & _ & _ & _ & N' & F'). split.
      * intros E. rewrite N', F in E.
        apply output_name_parts in E as [_ E]; try apply date_digits_digits.
        change (py ".txt") with ([] ++ 46%N :: py "txt") in E.
        change (py "_formatted.txt") with (py "_formatted" ++ 46%N :: py "txt") in E.
        rewrite !app_assoc in E.
        apply (first_cut_unique 46%N) in E as [E _].
        -- rewrite app_nil_r in E.
           pose proof (date_digits_digits (before_date w')) as G.
           rewrite E, forallb_app in G. apply andb_prop in G as [_ G]. discriminate.
        -- rewrite app_nil_r. apply digits_no; [reflexivity|apply date_digits_digits].
        -- intros I. apply in_app_or in I as [I|I].
           ++ revert I. apply digits_no; [reflexivity|apply date_digits_digits].
           ++ repeat (destruct I as [I|I]; [discriminate|]). exact I.
      * intros E. apply (date_digits_inj _ _ V' V).
        rewrite N, F, N', F' in E.
        destruct E as [E|E];
          now apply output_name_parts in E as [E _]; try apply date_digits_digits.
Qed.

End WindowNames.

(** The theorem at the start date 2025-05-05. *)
Lemma digest_window_files_witness :
  exists w,
    digest_window {| Cal.year := 2025; Cal.month := 5; Cal.day := 5 |} (py "AWS") = Ok w
    /\ length (output_filename w) = 28
    /\ output_filename w <> output_filename_formatted w.
Proof.
  assert (E : exists w,
            digest_window {| Cal.year := 2025; Cal.month := 5; Cal.day := 5 |}
              (py "AWS") = Ok w)
    by (eexists; vm_compute; reflexivity).
  destruct E as [w E]. exists w. split; [exact E|].
  destruct (digest_window_files {| Cal.year := 2025; Cal.month := 5; Cal.day := 5 |}
              (py "AWS") eq_refl) as (_ & _ & H).
  destruct (H w E) as (_ & _ & L & _ & K). split.
  - apply L. cbn [Cal.year]. lia.
  - exact (proj1 (K {| Cal.year := 2025; Cal.month := 5; Cal.day := 5 |} (py "AWS") w
                    eq_refl E)).
Defined.

(* ================================================================== *)
(** * Authentication and the files of a run (lines 20-42, 142-229) *)
(* ================================================================== *)

Lemma write_same (fs : files) (name : str) (c : content) :
  write fs name c name = Some c.
Proof. unfold write. now rewrite str_eqb_refl. Qed.

Lemma write_other (fs : files) (name : str) (c : content) (n : str) :
  n <> name -> write fs name c n = fs n.
Proof. intros H. unfold write. now rewrite (proj2 (str_eqb_neq n name) H). Qed.

Section RunFacts.
Variable service : Type.
Variable pickle_load : str -> outcome Auth.credentials.
Variable refresh : Auth.credentials -> outcome Auth.credentials.
Variable run_local_server : outcome Auth.credentials.
Variable build : Auth.credentials -> outcome service.
Variable list_messages : service -> str -> nat -> outcome (list Gmail.message).
Variable strptime : str -> str -> result datetime.
Variable b64_utf8 : str -> result str.
Variable now : nat -> Z.
Variable api_key : option str.
Variable responses_create : option str -> str -> str -> outcome str.

Local Notation "'auth'" :=
  (authenticate_gmail service pickle_load refresh run_local_server build).
Local Notation "'run'" :=
  (main service pickle_load refresh run_local_server build list_messages
     strptime b64_utf8 now api_key responses_create).

Lemma load_token_write (fs : files) (c : Auth.credentials) :
  load_token pickle_load (write fs token_pickle (Pickle c)) = Done (Some c).
Proof. unfold load_token. now rewrite write_same. Qed.

(** The two ways [authenticate_gmail] ends: the files are left as they
    were, and the call raised or used the stored credentials; or the
    credentials the service is built with have been stored. *)
Lemma authenticate_gmail_cases (fs : files) :
  (fst (auth fs) = fs
   /\ ((exists e, snd (auth fs) = Failed e)
       \/ exists c, load_token pickle_load fs = Done (Some c)
            /\ Auth.valid c = true /\ snd (auth fs) = build c))
  \/ (exists c, fst (auth fs) = write fs token_pickle (Pickle c)
        /\ snd (auth fs) = build c
        /\ forall c0, load_token pickle_load fs = Done (Some c0) ->
             Auth.valid c0 = false).
Proof.
  unfold authenticate_gmail, new_credentials, store_and_build.
  destruct (load_token pickle_load fs) as [[c|]|e].
  - destruct (Auth.valid c) eqn:V.
    + left. split; [reflexivity|]. right. now exists c.
    + destruct (Auth.expired c && Auth.truthy (Auth.refresh_token c)).
      * destruct (refresh c) as [c'|e].
        -- right. exists c'. repeat split. now intros c0 [= <-].
        -- left. split; [reflexivity|]. left. now exists e.
      * destruct run_local_server as [c'|e].
        -- right. exists c'. repeat split. now intros c0 [= <-].
        -- left. split; [reflexivity|]. left. now exists e.
  - destruct run_local_server as [c'|e].
    + right. exists c'. repeat split. discriminate.
    + left. split; [reflexivity|]. left. now exists e.
  - left. split; [reflexivity|]. left. now exists e.
Qed.

(** [authenticate_gmail] and the token file. The call touches no file
    but [token.pickle]. Whenever it returns a service, the token file
    then holds the credentials that service was built with. Stored
    credentials that are valid are used as they are: the files are left
    unchanged and the service is built from them, whatever a refresh or
    the consent flow would give. So when the call leaves valid
    credentials in the token file, a second call right after it changes
    nothing and builds the service from them. When the call raises, the
    files are unchanged, unless new credentials were stored and building
    the service from them raised. *)
Theorem authenticate_gmail_token_file (fs : files) :
  (forall n, n <> token_pickle -> fst (auth fs) n = fs n)
  /\ (forall srv, snd (auth fs) = Done srv ->
        exists c, load_token pickle_load (fst (auth fs)) = Done (Some c)
          /\ build c = Done srv)
  /\ (forall c refresh' run_local_server',
        load_token pickle_load fs = Done (Some c) -> Auth.valid c = true ->
        authenticate_gmail service pickle_load refresh' run_local_server' build fs
        = (fs, build c))
  /\ (forall c, load_token pickle_load (fst (auth fs)) = Done (Some c) ->
        Auth.valid c = true ->
        auth (fst (auth fs)) = (fst (auth fs), build c))
  /\ (forall e, snd (auth fs) = Failed e ->
        fst (auth fs) = fs
        \/ exists c, fst (auth fs) = write fs token_pickle (Pickle c)
             /\ build c = Failed e).
Proof.
  assert (V : forall fs0 c refresh' run_local_server',
            load_token pickle_load fs0 = Done (Some c) -> Auth.valid c = true ->
            authenticate_gmail service pickle_load refresh' run_local_server' build fs0
            = (fs0, build c)).
  { intros fs0 c refresh' run' L Hv. unfold authenticate_gmail. now rewrite L, Hv. }
  split; [|split; [|split; [|split]]].
  - intros n Hn. destruct (authenticate_gmail_cases fs) as [[E _]|(c & E & _)];
      rewrite E; [reflexivity|now apply write_other].
  - intros srv H.
    destruct (authenticate_gmail_cases fs) as [[E [[e F]|(c & L & _ & B)]]|(c & E & B & _)].
    + rewrite F in H. discriminate.
    + exists c. rewrite E. split; [assumption|]. now rewrite <- B.
    + exists c. rewrite E, load_token_write. split; [reflexivity|]. now rewrite <- B.
  - exact (V fs).
  - intros c. apply V.
  - intros e H.
    destruct (authenticate_gmail_cases fs) as [[E _]|(c & E & B & _)]; [now left|].
    right. exists c. split; [assumption|]. now rewrite <- B.
Qed.

Lemma authenticate_gmail_other_files (fs : files) (n : str) :
  n <> token_pickle -> fst (auth fs) n = fs n.
Proof.
  intros Hn. destruct (authenticate_gmail_cases fs) as [[E _]|(c & E & _)];
    rewrite E; [reflexivity|now apply write_other].
Qed.

(** The names of the digest files: none is the token file, and the two
    differ. *)
Lemma output_names_distinct (after_date : Cal.date) (subject_filter : str) (w : window) :
  digest_window after_date subject_filter = Ok w ->
  output_filename w <> token_pickle
  /\ output_filename_formatted w <> token_pickle
  /\ output_filename w <> output_filename_formatted w.
Proof.
  intros H. destruct (digest_window_Ok _ _ _ H) as (_ & _ & _ & _ & N & F).
  rewrite N, F. split; [discriminate|]. split; [discriminate|].
  intros E. apply (f_equal (@length char)) in E.
  rewrite !output_filename_length in E.
  change (length (py ".txt")) with 4 in E.
  change (length (py "_formatted.txt")) with 14 in E. lia.
Qed.

(** How [main] ends: before the raw digest is written, with the files
    [authenticate_gmail] left; or after it, with the exception of the
    summarizer or with both files written. *)
Lemma main_cases (after_date : Cal.date) (subject_filter : str) (fs : files) :
  (exists e, run after_date subject_filter fs = (fst (auth fs), Failed e))
  \/ exists srv w messages l,
       snd (auth fs) = Done srv
       /\ digest_window after_date subject_filter = Ok w
       /\ list_messages srv (query w) 30 = Done messages
       /\ main_articles strptime b64_utf8 now messages = Ok l
       /\ ((exists e,
              responses_create api_key (py "o4-mini") (prompt w (raw_digest w l))
              = Failed e
              /\ run after_date subject_filter fs
                 = (write (fst (auth fs)) (output_filename w) (Text (raw_digest w l)),
                    Failed e))
           \/ (exists formatted,
                 responses_create api_key (py "o4-mini") (prompt w (raw_digest w l))
                 = Done formatted
                 /\ run after_date subject_filter fs
                    = (write
                         (write (fst (auth fs)) (output_filename w)
                            (Text (raw_digest w l)))
                         (output_filename_formatted w) (Text formatted),
                       Done tt))).
Proof.
  unfold main. destruct (auth fs) as [fs1 [srv|e]]; cbn [fst snd]; [|left; now exists e].
  destruct (digest_window after_date subject_filter) as [w|e] eqn:W; [|left; eauto].
  destruct (list_messages srv (query w) 30) as [messages|e] eqn:L; [|left; eauto].
  destruct (main_articles strptime b64_utf8 now messages) as [l|e] eqn:M;
    [|left; eauto].
  right. exists srv, w, messages, l.
  split; [reflexivity|]. split; [reflexivity|]. split; [assumption|].
  split; [assumption|].
  destruct (responses_create api_key (py "o4-mini") (prompt w (raw_digest w l)))
    as [formatted|e]; [right; now exists formatted|left; now exists e].
Qed.

(** The files of a run of [main]. The digest files never replace the
    token file, and no file is touched but the token file and the two
    digest files of the window. When [main] returns, the raw file holds
    the raw digest of the articles (the window, the headings and the
    rendered articles), the summarizer was given the prompt that ends in
    this digest, and the formatted file holds its answer. When [main]
    raises, either no file but the token file was touched, or the
    exception is the summarizer's: then the raw digest is on disk and the
    formatted file is as it was. *)
Theorem main_file_effects (after_date : Cal.date) (subject_filter : str) (fs : files) :
  fst (run after_date subject_filter fs) token_pickle = fst (auth fs) token_pickle
  /\ (forall n,
        n <> token_pickle ->
        (forall w, digest_window after_date subject_filter = Ok w ->
           n <> output_filename w /\ n <> output_filename_formatted w) ->
        fst (run after_date subject_filter fs) n = fs n)
  /\ (snd (run after_date subject_filter fs) = Done tt ->
      exists srv w messages l formatted,
        snd (auth fs) = Done srv
        /\ digest_window after_date subject_filter = Ok w
        /\ list_messages srv (query w) 30 = Done messages
        /\ main_articles strptime b64_utf8 now messages = Ok l
        /\ responses_create api_key (py "o4-mini") (prompt w (raw_digest w l))
           = Done formatted
        /\ fst (run after_date subject_filter fs) (output_filename w)
           = Some (Text (raw_digest w l))
        /\ fst (run after_date subject_filter fs) (output_filename_formatted w)
           = Some (Text formatted))
  /\ (forall e, snd (run after_date subject_filter fs) = Failed e ->
        (forall n, n <> token_pickle -> fst (run after_date subject_filter fs) n = fs n)
        \/ exists srv w messages l,
             snd (auth fs) = Done srv
             /\ digest_window after_date subject_filter = Ok w
             /\ list_messages srv (query w) 30 = Done messages
             /\ main_articles strptime b64_utf8 now messages = Ok l
             /\ responses_create api_key (py "o4-mini") (prompt w (raw_digest w l))
                = Failed e
             /\ fst (run after_date subject_filter fs) (output_filename w)
                = Some (Text (raw_digest w l))
             /\ forall n, n <> token_pickle -> n <> output_filename w ->
                  fst (run after_date subject_filter fs) n = fs n).
Proof.
  pose proof (authenticate_gmail_other_files fs) as O.
  destruct (main_cases after_date subject_filter fs)
    as [[e E]|(srv & w & messages & l & A & W & L & M & [(e & R & E)|(formatted & R & E)])];
    rewrite E; cbn [fst snd];
    try (destruct (output_names_distinct _ _ _ W) as (N1 & N2 & N3)).
  - repeat split.
    + intros n Hn _. now apply O.
    + discriminate.
    + intros e' _. left. exact O.
  - repeat split.
    + apply write_other. congruence.
    + intros n Hn Hw. destruct (Hw w W) as [H1 _].
      rewrite write_other by assumption. now apply O.
    + discriminate.
    + intros e' [= <-]. right. exists srv, w, messages, l.
      repeat split; try assumption.
      * apply write_same.
      * intros n Hn H1. rewrite write_other by assumption. now apply O.
  - repeat split.
    + rewrite !write_other by congruence. reflexivity.
    + intros n Hn Hw. destruct (Hw w W) as [H1 H2].
      rewrite !write_other by assumption. now apply O.
    + intros _. exists srv, w, messages, l, formatted.
      repeat split; try assumption.
      * rewrite write_other by assumption. apply write_same.
      * apply write_same.
    + discriminate.
Qed.

End RunFacts.

(** The theorem at the sample run, from an empty directory: the run
    returns, and the three files are the stored credentials, the raw
    digest of the two articles of the mail, and the answer of the
    summarizer. *)
Lemma main_file_effects_witness :
  snd (sample_run (fun _ => None)) = Done tt
  /\ fst (sample_run (fun _ => None)) token_pickle = Some (Pickle sample_credentials)
  /\ fst (sample_run (fun _ => None)) (py "output_20250505-20250511_formatted.txt")
     = Some (Text (py "summary"))
  /\ (exists w l,
        fst (sample_run (fun _ => None)) (py "output_20250505-20250511.txt")
        = Some (Text (raw_digest w l))
        /\ List.map url l = [py "https://a.example/1"; py "http://b.example/2"])
  /\ fst (sample_run (fun _ => None)) (py "notes.txt") = None.
Proof.
  destruct (main_file_effects unit (fun _ => Failed (Library (py "UnpicklingError")))
              (fun c => Done c) (Done sample_credentials) (fun _ => Done tt)
              sample_mailbox sample_strptime Ok sample_now (Some (py "key"))
              (fun _ _ _ => Done (py "summary"))
              {| Cal.year := 2025; Cal.month := 5; Cal.day := 5 |} (py "AWS")
              (fun _ => None)) as (T & O & R & _).
  fold (sample_run (fun _ => None)) in T, O, R.
  assert (D : snd (sample_run (fun _ => None)) = Done tt) by (vm_compute; reflexivity).
  destruct (R D) as (srv & w & messages & l & formatted & _ & W & L & M & S & F1 & F2).
  split; [exact D|]. split; [rewrite T; vm_compute; reflexivity|].
  vm_compute in W. injection W as <-.
  vm_compute in L. injection L as <-.
  vm_compute in M. injection M as <-.
  vm_compute in S. injection S as <-.
  split; [exact F2|]. split.
  - eexists. eexists. split; [exact F1|reflexivity].
  - apply O.
    + discriminate.
    + intros w W. vm_compute in W. injection W as <-. split; discriminate.
Defined.

(* ================================================================== *)
(** * Duplicates across messages (lines 138, 157-173) *)
(* ================================================================== *)

Lemma lookup_url_app (u : str) (l l' : list article) :
  lookup_url u (l ++ l') =
    match lookup_url u l with
    | Some x => Some x
    | None => lookup_url u l'
    end.
Proof.
  unfold lookup_url. induction l as [|y l IH]; [reflexivity|].
  cbn [app List.find]. now destruct (str_eqb (url y) u).
Qed.

(** In a list of messages in descending order of their timestamps, the
    first discovered article with a URL is in a message that is not older
    than any message with that URL. *)
Lemma discovered_lookup (u : str) (out : list Gmail.email) :
  forall ds x,
  descending Gmail.date out ->
  discovered (List.map Gmail.body out) = Ok ds ->
  lookup_url u ds = Some x ->
  exists e xs,
    List.In e out /\ extract (Gmail.body e) = Ok xs /\ lookup_url u xs = Some x
    /\ forall e' xs',
         List.In e' out -> extract (Gmail.body e') = Ok xs' ->
         lookup_url u xs' <> None ->
         (instant (Gmail.date e') <= instant (Gmail.date e))%Z.
Proof.
  induction out as [|e0 out IH]; intros ds x D H L; cbn [List.map discovered] in H.
  - injection H as <-. discriminate.
  - destruct (extract (Gmail.body e0)) as [xs0|] eqn:E0; [|discriminate].
    cbn [bind] in H.
    destruct (discovered (List.map Gmail.body out)) as [ds'|] eqn:F; [|discriminate].
    cbn [bind] in H. injection H as <-.
    apply StronglySorted_inv in D as [D D0].
    rewrite lookup_url_app in L.
    destruct (lookup_url u xs0) as [x0|] eqn:L0.
    + injection L as <-. exists e0, xs0. repeat split; [now left|assumption..|].
      intros e' xs' [<-|I] _ _; [apply Z.le_refl|].
      now apply (proj1 (Forall_forall _ _) D0).
    + destruct (IH ds' x D eq_refl L) as (e & xs & I & E & Lx & M).
      exists e, xs. repeat split; [now right|assumption..|].
      intros e' xs' [<-|I'] E' N.
      * rewrite E0 in E'. injection E' as <-. contradiction.
      * now apply (M e' xs').
Qed.

Section NewestWins.
Variable strptime : str -> str -> result datetime.
Variable b64_utf8 : str -> result str.
Variable now : nat -> Z.

Lemma get_emails_descending (messages : list Gmail.message) (out : list Gmail.email) :
  Gmail.get_emails_by_subject strptime b64_utf8 now messages = Ok out ->
  descending Gmail.date out.
Proof.
  intros H. destruct (Gmail.for_messages strptime b64_utf8 now 0 messages)
    as [l|e] eqn:F.
  - rewrite (get_emails_sort strptime b64_utf8 now messages l F) in H.
    destruct (list_sort_reverse_Ok _ Gmail.date _ _ H) as [k Hk].
    destruct (list_sort_reverse_same_kind _ Gmail.date k l Hk) as (out' & E & _ & D & _).
    rewrite H in E. now injection E as <-.
  - unfold Gmail.get_emails_by_subject in H. destruct messages as [|m ms].
    + injection H as <-. constructor.
    + rewrite F in H. discriminate.
Qed.

(** Retrieval and deduplication together: of the articles with one URL,
    the digest keeps the one of the newest message. When the run keeps
    the article [x] for the URL [u], [x] is the first article with that
    URL in some retrieved message, and no retrieved message with an
    article of that URL has a later timestamp. *)
Theorem newest_duplicate_wins
  (messages : list Gmail.message) (out : list Gmail.email)
  (l : list article) (u : str) (x : article) :
  Gmail.get_emails_by_subject strptime b64_utf8 now messages = Ok out ->
  main_articles strptime b64_utf8 now messages = Ok l ->
  lookup_url u l = Some x ->
  exists e xs,
    List.In e out /\ extract (Gmail.body e) = Ok xs /\ lookup_url u xs = Some x
    /\ forall e' xs',
         List.In e' out -> extract (Gmail.body e') = Ok xs' ->
         lookup_url u xs' <> None ->
         (instant (Gmail.date e') <= instant (Gmail.date e))%Z.
Proof.
  intros G M L. unfold main_articles in M. rewrite G in M. cbn [bind] in M.
  rewrite collect_discovered in M.
  destruct (discovered (List.map Gmail.body out)) as [ds|] eqn:D; [|discriminate].
  cbn [bind] in M. injection M as <-.
  rewrite lookup_url_first_occurrences in L.
  exact (discovered_lookup u out ds x (get_emails_descending messages out G) D L).
Qed.

End NewestWins.

(** The theorem at two mails that report one URL: the title of the later
    mail is the one kept. *)
Lemma newest_duplicate_wins_witness :
  exists l x e,
    main_articles sample_strptime Ok sample_now [sample_older; sample_newer] = Ok l
    /\ lookup_url (py "https://a.example/1") l = Some x
    /\ body x = py "Title one, again"
    /\ Gmail.id e = py "m2"
    /\ (exists xs, extract (Gmail.body e) = Ok xs
          /\ lookup_url (py "https://a.example/1") xs = Some x).
Proof.
  assert (G : exists out,
            Gmail.get_emails_by_subject sample_strptime Ok sample_now
              [sample_older; sample_newer] = Ok out
            /\ List.map Gmail.id out = [py "m2"; py "m1"])
    by (eexists; split; vm_compute; reflexivity).
  destruct G as (out & G & Ids).
  assert (M : exists l,
            main_articles sample_strptime Ok sample_now [sample_older; sample_newer]
            = Ok l
            /\ lookup_url (py "https://a.example/1") l
               = Some {| body := py "Title one, again"; url := py "https://a.example/1" |})
    by (eexists; split; vm_compute; reflexivity).
  destruct M as (l & M & L).
  destruct (newest_duplicate_wins sample_strptime Ok sample_now _ out l _ _ G M L)
    as (e & xs & I & E & Lx & Max).
  exists l, {| body := py "Title one, again"; url := py "https://a.example/1" |}.
  assert (Ie : Gmail.id e = py "m2").
  { destruct out as [|e1 [|e2 [|e3 out]]]; try discriminate.
    injection Ids as I1 I2. destruct I as [<-|[<-|[]]]; [assumption|].
    exfalso. vm_compute in G. injection G as _ G2. rewrite <- G2 in E.
    vm_compute in E. injection E as <-. vm_compute in Lx. discriminate. }
  exists e. split; [exact M|]. split; [exact L|]. split; [reflexivity|].
  split; [exact Ie|]. now exists xs.
Defined.

(* ================================================================== *)
(** * The rendered articles (lines 175-189) *)
(* ================================================================== *)

Lemma news_text_cons (x : article) (l : list article) :
  news_text (x :: l) = body x ++ LF :: url x ++ LF :: LF :: news_text l.
Proof.
  unfold news_text. cbn [List.map List.concat]. unfold render.
  now rewrite <- !app_assoc.
Qed.

Lemma news_text_injective (l : list article) :
  forall l', Forall lf_free l -> Forall lf_free l' ->
  news_text l = news_text l' -> l = l'.
Proof.
  induction l as [|x l IH]; intros [|x' l'] F F' E.
  - reflexivity.
  - rewrite news_text_cons in E. now destruct (body x').
  - rewrite news_text_cons in E. now destruct (body x).
  - rewrite !news_text_cons in E.
    apply Forall_cons_iff in F as [[Hb Hu] F].
    apply Forall_cons_iff in F' as [[Hb' Hu'] F'].
    apply first_cut_unique in E as [Eb E]; [|assumption..].
    apply first_cut_unique in E as [Eu E]; [|assumption..].
    injection E as E. rewrite (IH l' F F' E).
    destruct x, x'. cbn [body url] in Eb, Eu. now subst.
Qed.

(** Rendering the articles (lines 175-177) and the raw digest (lines
    182-189). Article lists without line feed in their summaries and
    URLs that render alike are equal, so the raw digest of a window
    determines the articles; without that condition two different lists
    can render alike. The raw digest begins with the heading of the
    period and ends with the rendered articles and a line feed. *)
Theorem rendered_articles_determine_list :
  (forall l l', Forall lf_free l -> Forall lf_free l' ->
     news_text l = news_text l' -> l = l')
  /\ (forall w l l', Forall lf_free l -> Forall lf_free l' ->
        raw_digest w l = raw_digest w l' -> l = l')
  /\ (exists l l', l <> l' /\ news_text l = news_text l'
        /\ forall w, raw_digest w l = raw_digest w l')
  /\ (forall w l, length (raw_digest w l)
        = 34 + length (after_date_text w) + length (before_date_text w)
          + length (news_text l)).
Proof.
  split; [|split; [|split]].
  - intros l l'. apply news_text_injective.
  - intros w l l' F F' E. apply (news_text_injective l l' F F').
    unfold raw_digest in E. do 5 apply app_inv_head in E.
    now apply app_inv_tail in E.
  - exists [ {| body := py "a" ++ [LF] ++ py "b"; url := py "c" |} ],
           [ {| body := py "a"; url := py "b" ++ [LF] ++ py "c" |} ].
    split; [discriminate|]. split; [reflexivity|]. intros w. reflexivity.
  - intros w l. unfold raw_digest. rewrite !length_app. simpl. lia.
Qed.

(* ================================================================== *)
(** * Headers and the date of a message (lines 84-113) *)
(* ================================================================== *)

(** The value of the first header with the name. *)
Lemma header_value_first (hs1 hs2 : list Gmail.header) (h : Gmail.header)
  (n default : str) :
  (forall g, List.In g hs1 -> Gmail.name g <> n) -> Gmail.name h = n ->
  Gmail.header_value (hs1 ++ h :: hs2) n default = Gmail.value h.
Proof.
  intros H Hn. induction hs1 as [|g hs1 IH]; cbn [app Gmail.header_value].
  - now rewrite Hn, str_eqb_refl.
  - rewrite (proj2 (str_eqb_neq _ _) (H g (or_introl eq_refl))).
    apply IH. intros g' Hg'. apply H. now right.
Qed.

Section HeaderFacts.
Variable strptime : str -> str -> result datetime.
Variable b64_utf8 : str -> result str.
Variable now : nat -> Z.

(** The formats are tried in order, up to the first one that does not
    raise [ValueError]. *)
Lemma try_formats_first (fmts1 fmts2 : list str) (fmt s : str) :
  (forall g, List.In g fmts1 -> strptime s g = Raise ValueError) ->
  Gmail.try_formats strptime (fmts1 ++ fmt :: fmts2) s =
    match strptime s fmt with
    | Ok d => Ok (Some d)
    | Raise ValueError => Gmail.try_formats strptime fmts2 s
    | Raise e => Raise e
    end.
Proof.
  intros H. induction fmts1 as [|g fmts1 IH]; cbn [app Gmail.try_formats].
  - reflexivity.
  - rewrite (H g (or_introl eq_refl)). apply IH. intros g' Hg'. apply H. now right.
Qed.

Lemma try_formats_Some (fmts : list str) (s : str) (d : datetime) :
  Gmail.try_formats strptime fmts s = Ok (Some d) ->
  exists fmts1 fmt fmts2,
    fmts = fmts1 ++ fmt :: fmts2
    /\ (forall g, List.In g fmts1 -> strptime s g = Raise ValueError)
    /\ strptime s fmt = Ok d.
Proof.
  induction fmts as [|f fmts IH]; cbn [Gmail.try_formats]; [discriminate|].
  destruct (strptime s f) as [d'|e] eqn:E.
  - intros [= <-]. exists [], f, fmts. repeat split; [contradiction|assumption].
  - destruct e; try discriminate. intros H.
    destruct (IH H) as (f1 & g & f2 & -> & V & P).
    exists (f :: f1), g, f2. repeat split; [|assumption].
    intros g' [<-|I]; [assumption|now apply V].
Qed.

(** The headers and the date of an entry of the result. For every
    message the loop reads: the subject and the sender are the values of
    the first [Subject] and [From] headers (names compared exactly); the
    date is the first successful parse of the cleaned value of the first
    [Date] header, the formats tried in the order of the list, or else
    the clock: it is the clock as soon as a format raises something else
    than [ValueError], without trying the later formats. *)
Theorem entry_headers_and_date (i : nat) (m : Gmail.message) (e : Gmail.email) :
  Gmail.email_of strptime b64_utf8 now i m = Ok e ->
  (forall hs1 h hs2,
     Gmail.headers (Gmail.msg_payload m) = hs1 ++ h :: hs2 ->
     (forall g, List.In g hs1 -> Gmail.name g <> Gmail.name h) ->
     (Gmail.name h = py "Subject" -> Gmail.subject e = Gmail.value h)
     /\ (Gmail.name h = py "From" -> Gmail.sender e = Gmail.value h)
     /\ (Gmail.name h = py "Date" ->
         Gmail.date e = Gmail.normalize_date strptime now i (Gmail.value h)))
  /\ (forall date_str,
        Gmail.normalize_date strptime now i date_str = Naive (now i)
        \/ exists fmts1 fmt fmts2,
             Gmail.date_formats = fmts1 ++ fmt :: fmts2
             /\ (forall g, List.In g fmts1 ->
                   strptime (cleaned_date date_str) g = Raise ValueError)
             /\ strptime (cleaned_date date_str) fmt
                = Ok (Gmail.normalize_date strptime now i date_str))
  /\ (forall date_str fmts1 fmt fmts2 d,
        Gmail.date_formats = fmts1 ++ fmt :: fmts2 ->
        (forall g, List.In g fmts1 ->
           strptime (cleaned_date date_str) g = Raise ValueError) ->
        strptime (cleaned_date date_str) fmt = Ok d ->
        Gmail.normalize_date strptime now i date_str = d)
  /\ (forall date_str fmts1 fmt fmts2 x,
        Gmail.date_formats = fmts1 ++ fmt :: fmts2 ->
        (forall g, List.In g fmts1 ->
           strptime (cleaned_date date_str) g = Raise ValueError) ->
        strptime (cleaned_date date_str) fmt = Raise x -> x <> ValueError ->
        Gmail.normalize_date strptime now i date_str = Naive (now i)).
Proof.
  intros E. unfold Gmail.email_of in E.
  destruct (Gmail.message_body b64_utf8 (Gmail.msg_payload m)) as [b|]; [|discriminate].
  cbn [bind] in E. injection E as <-.
  cbn [Gmail.subject Gmail.sender Gmail.date].
  split; [|split; [|split]].
  - intros hs1 h hs2 -> H. repeat split; intros Hn;
      rewrite <- Hn; now rewrite (header_value_first hs1 hs2 h _ _ H eq_refl).
  - intros date_str. unfold Gmail.normalize_date. fold (cleaned_date date_str).
    destruct (Gmail.try_formats strptime Gmail.date_formats (cleaned_date date_str))
      as [[d|]|x] eqn:T; [|now left..].
    right. now apply try_formats_Some.
  - intros date_str fmts1 fmt fmts2 d F V P. unfold Gmail.normalize_date.
    fold (cleaned_date date_str). now rewrite F, (try_formats_first _ _ _ _ V), P.
  - intros date_str fmts1 fmt fmts2 x F V P Hx. unfold Gmail.normalize_date.
    fold (cleaned_date date_str). rewrite F, (try_formats_first _ _ _ _ V), P.
    now destruct x.
Qed.

End HeaderFacts.

(** The theorem at [sample_m1], whose first header is the subject. *)
Lemma entry_headers_and_date_witness :
  exists e,
    Gmail.email_of sample_strptime Ok sample_now 0 sample_m1 = Ok e
    /\ Gmail.subject e = py "Alert".
Proof.
  assert (E : exists e, Gmail.email_of sample_strptime Ok sample_now 0 sample_m1 = Ok e)
    by (eexists; vm_compute; reflexivity).
  destruct E as [e E]. exists e. split; [exact E|].
  destruct (entry_headers_and_date sample_strptime Ok sample_now 0 sample_m1 e E)
    as (H & _).
  destruct (H [] {| Gmail.name := py "Subject"; Gmail.value := py "Alert" |}
              [ {| Gmail.name := py "Date";
                   Gmail.value := py "Mon, 05 May 2025 10:00:00 +0900" |} ]
              eq_refl) as (S & _).
  - intros g [].
  - exact (S eq_refl).
Defined.
